(** * Intrinio real-time client: channel reconciliation and lifecycle

    A shallow embedding of the Go package [intriniorealtime]: the provider
    adapter ([makeAuthURL], [makeSoketURL], [makeJoinMessage],
    [makeLeaveMessage], [makeHeartbeatMessage], [parseTopic]), the client
    constructor and its control-plane methods ([New], [Connect],
    [Disconnect], [Join], [Leave], [LeaveAll], [Connected]) and the
    subscription reconciler [refreshChannels], and the turns of the three
    goroutines of a connection ([startReceiver], [startSender],
    [heartbeat]) with the calls of the handlers ([onQuote], [onError]).

    Go maps are finite maps ([gmap]); a Go string is its sequence of bytes
    ([string], one [ascii] per byte); a panic, a send or a receive that can
    never complete are outcomes of their own; everything the client does to
    the outside world is recorded in a list of events. *)

From Stdlib Require Import ZArith NArith Ascii String List.
From stdpp Require Import base tactics option list gmap strings fin_maps.

Local Open Scope string_scope.
Local Open Scope list_scope.


(** ** Go's [strings.TrimSpace]

    [strings.TrimSpace s] removes every leading and every trailing rune for
    which [unicode.IsSpace] holds.  On the UTF-8 bytes of the string these
    runes are the six ASCII ones (tab, line feed, vertical tab, form feed,
    carriage return, space), U+0085 and U+00A0 (two bytes each) and U+1680,
    U+2000..U+200A, U+2028, U+2029, U+202F, U+205F, U+3000 (three bytes
    each).  A byte sequence that is not the encoding of one of them decodes
    to another rune or to the error rune, and stops the trimming. *)

Definition byte_is (c : ascii) (n : N) : bool := (N_of_ascii c =? n)%N.

Definition byte_in (c : ascii) (lo hi : N) : bool :=
  ((lo <=? N_of_ascii c) && (N_of_ascii c <=? hi))%N.

(** [asciiSpace]: the one-byte white space of package [strings]. *)
Definition asciiSpace (c : ascii) : bool :=
  byte_in c 9 13 || byte_is c 32.

(** U+0085 is [C2 85], U+00A0 is [C2 A0]. *)
Definition space2 (c1 c2 : ascii) : bool :=
  byte_is c1 194 && (byte_is c2 133 || byte_is c2 160).

(** U+1680 is [E1 9A 80]; U+2000..U+200A are [E2 80 80]..[E2 80 8A];
    U+2028, U+2029, U+202F are [E2 80 A8], [E2 80 A9], [E2 80 AF];
    U+205F is [E2 81 9F]; U+3000 is [E3 80 80]. *)
Definition space3 (c1 c2 c3 : ascii) : bool :=
  (byte_is c1 225 && byte_is c2 154 && byte_is c3 128)
  || (byte_is c1 226 && byte_is c2 128
      && (byte_in c3 128 138 || byte_is c3 168 || byte_is c3 169 || byte_is c3 175))
  || (byte_is c1 226 && byte_is c2 129 && byte_is c3 159)
  || (byte_is c1 227 && byte_is c2 128 && byte_is c3 128).

(** [TrimLeftFunc s unicode.IsSpace] on the bytes of [s]. *)
Fixpoint trimLeft (s : list ascii) : list ascii :=
  match s with
  | c1 :: s1 =>
      if asciiSpace c1 then trimLeft s1 else
      match s1 with
      | c2 :: s2 =>
          if space2 c1 c2 then trimLeft s2 else
          match s2 with
          | c3 :: s3 => if space3 c1 c2 c3 then trimLeft s3 else s
          | [] => s
          end
      | [] => s
      end
  | [] => []
  end.

(** [TrimRightFunc s unicode.IsSpace], on the bytes of [s] read from the
    end: [r] is the reversed string, so the last byte comes first and a
    multi-byte rune is met with its continuation bytes first. *)
Fixpoint trimLeftRev (r : list ascii) : list ascii :=
  match r with
  | c1 :: r1 =>
      if asciiSpace c1 then trimLeftRev r1 else
      match r1 with
      | c2 :: r2 =>
          if space2 c2 c1 then trimLeftRev r2 else
          match r2 with
          | c3 :: r3 => if space3 c3 c2 c1 then trimLeftRev r3 else r
          | [] => r
          end
      | [] => r
      end
  | [] => []
  end.

Definition trimRight (s : list ascii) : list ascii :=
  rev (trimLeftRev (rev s)).

Definition TrimSpace (s : string) : string :=
  string_of_list_ascii (trimRight (trimLeft (list_ascii_of_string s))).

(** A string is trimmed when neither its first nor its last rune is white
    space. *)
Definition leadSpace (s : list ascii) : bool :=
  match s with
  | c1 :: s1 =>
      asciiSpace c1 ||
      match s1 with
      | c2 :: s2 =>
          space2 c1 c2 ||
          match s2 with
          | c3 :: _ => space3 c1 c2 c3
          | [] => false
          end
      | [] => false
      end
  | [] => false
  end.

Definition trailSpace (r : list ascii) : bool :=
  match r with
  | c1 :: r1 =>
      asciiSpace c1 ||
      match r1 with
      | c2 :: r2 =>
          space2 c2 c1 ||
          match r2 with
          | c3 :: _ => space3 c3 c2 c1
          | [] => false
          end
      | [] => false
      end
  | [] => false
  end.

Definition trimmed (s : string) : Prop :=
  leadSpace (list_ascii_of_string s) = false
  ∧ trailSpace (rev (list_ascii_of_string s)) = false.

(** ** Provider adapter *)

Definition cQUODDRealtimeTokenURL : string := "https://api.intrinio.com/token?type=QUODD".

Definition cQUODDWebsocketURL : string := "wss://www5.quodd.com/websocket/webStreamer/intrinio".

Definition cIEXRealtimeTokenURL : string := "https://realtime.intrinio.com/auth".

Definition cIEXWebsocketURL : string := "wss://realtime.intrinio.com/socket/websocket".

(** [type provider string]: any string is a value of the type. *)
Definition provider : Type := string.

Definition IEX : provider := "iex".

Definition QUODD : provider := "quodd".

(** What a call does: it returns, it panics, or it blocks for ever (a send
    on, or a receive from, a channel that nobody serves). *)
Inductive outcome (A : Type) : Type :=
| Ok (a : A)
| Panic (msg : string)
| Block.

Arguments Ok {A} a.

Arguments Panic {A} msg.

Arguments Block {A}.

(** The values of the outbound [map[string]interface{}]: a string, [nil],
    an integer, or a map one level down ([map[string]interface{}{}],
    [map[string]string{...}]). *)
Inductive scalar : Type :=
| SNil
| SStr (s : string)
| SInt (n : Z).

Inductive value : Type :=
| VScalar (x : scalar)
| VMap (fields : gmap string scalar).

#[global] Instance scalar_eq_dec : EqDecision scalar.
Proof. solve_decision. Defined.

#[global] Instance value_eq_dec : EqDecision value.
Proof. solve_decision. Defined.

Abbreviation message := (gmap string value).

Definition cPanicProvider : string := "A value that does not exist was specified.".

Definition makeAuthURL (p : provider) : outcome string :=
  if decide (p = IEX) then Ok cIEXRealtimeTokenURL
  else if decide (p = QUODD) then Ok cQUODDRealtimeTokenURL
  else Panic cPanicProvider.

Definition makeSoketURL (p : provider) (token : string) : outcome string :=
  if decide (p = IEX) then Ok (cIEXWebsocketURL +:+ "?vsn=1.0.0&token=" +:+ token)
  else if decide (p = QUODD) then Ok (cQUODDWebsocketURL +:+ "/" +:+ token)
  else Panic cPanicProvider.

Definition parseTopic (channel : string) : string :=
  if decide (channel = "$lobby") then "iex:lobby"
  else if decide (channel = "$lobby_last_price") then "iex:lobby:last_price"
  else "iex:securities:" +:+ channel.

Definition makeJoinMessage (p : provider) (channel : string) : outcome message :=
  if decide (p = IEX) then
    Ok (<["topic" := VScalar (SStr (parseTopic channel))]>
        (<["event" := VScalar (SStr "phx_join")]>
        (<["payload" := VMap ∅]>
        (<["ref" := VScalar SNil]> ∅))))
  else if decide (p = QUODD) then
    Ok (<["event" := VScalar (SStr "subscribe")]>
        (<["data" := VMap (<["ticker" := SStr channel]>
                          (<["action" := SStr "subscribe"]> ∅))]> ∅))
  else Panic cPanicProvider.

Definition makeLeaveMessage (p : provider) (channel : string) : outcome message :=
  if decide (p = IEX) then
    Ok (<["topic" := VScalar (SStr (parseTopic channel))]>
        (<["event" := VScalar (SStr "phx_leave")]>
        (<["payload" := VMap ∅]>
        (<["ref" := VScalar SNil]> ∅))))
  else if decide (p = QUODD) then
    Ok (<["event" := VScalar (SStr "unsubscribe")]>
        (<["data" := VMap (<["ticker" := SStr channel]>
                          (<["action" := SStr "unsubscribe"]> ∅))]> ∅))
  else Panic cPanicProvider.

(** [now] is the value of [time.Now().Unix()] at the call. *)
Definition makeHeartbeatMessage (p : provider) (now : Z) : outcome message :=
  if decide (p = IEX) then
    Ok (<["topic" := VScalar (SStr "phoenix")]>
        (<["event" := VScalar (SStr "heartbeat")]>
        (<["payload" := VMap ∅]>
        (<["ref" := VScalar SNil]> ∅))))
  else if decide (p = QUODD) then
    Ok (<["event" := VScalar (SStr "heartbeat")]>
        (<["data" := VMap (<["action" := SStr "heartbeat"]>
                          (<["ticker" := SInt now]> ∅))]> ∅))
  else Panic cPanicProvider.

(** ** The client *)

(** A Go channel held in a field: [nil] until it is made, then open, then
    closed. *)
Inductive gochan : Type := ChNil | ChOpen | ChClosed.

(** The socket returned by the dialer and the registered callbacks are
    known by a name only. *)
Definition conn : Type := nat.

Definition handler : Type := nat.

Definition error : Type := string.

Record Client : Type := mkClient {
  DebugMode : bool;
  username : string;
  password : string;
  provider_ : provider;
  token : string;
  ws : option conn;
  channels : gmap string bool;
  joinedChannels : gmap string bool;
  quoteHander : option handler;
  errorHandler : option handler;
  breakHartbeat : gochan;
  breakSender : gochan;
  sended : gochan;
  q : gochan;
  closing : bool
}.

Definition set_DebugMode (v : bool) (c : Client) : Client :=
  mkClient v (username c) (password c) (provider_ c) (token c) (ws c)
    (channels c) (joinedChannels c) (quoteHander c) (errorHandler c)
    (breakHartbeat c) (breakSender c) (sended c) (q c) (closing c).

Definition set_token (v : string) (c : Client) : Client :=
  mkClient (DebugMode c) (username c) (password c) (provider_ c) v (ws c)
    (channels c) (joinedChannels c) (quoteHander c) (errorHandler c)
    (breakHartbeat c) (breakSender c) (sended c) (q c) (closing c).

Definition set_ws (v : option conn) (c : Client) : Client :=
  mkClient (DebugMode c) (username c) (password c) (provider_ c) (token c) v
    (channels c) (joinedChannels c) (quoteHander c) (errorHandler c)
    (breakHartbeat c) (breakSender c) (sended c) (q c) (closing c).

Definition set_channels (v : gmap string bool) (c : Client) : Client :=
  mkClient (DebugMode c) (username c) (password c) (provider_ c) (token c) (ws c)
    v (joinedChannels c) (quoteHander c) (errorHandler c)
    (breakHartbeat c) (breakSender c) (sended c) (q c) (closing c).

Definition set_joinedChannels (v : gmap string bool) (c : Client) : Client :=
  mkClient (DebugMode c) (username c) (password c) (provider_ c) (token c) (ws c)
    (channels c) v (quoteHander c) (errorHandler c)
    (breakHartbeat c) (breakSender c) (sended c) (q c) (closing c).

Definition set_quoteHander (v : option handler) (c : Client) : Client :=
  mkClient (DebugMode c) (username c) (password c) (provider_ c) (token c) (ws c)
    (channels c) (joinedChannels c) v (errorHandler c)
    (breakHartbeat c) (breakSender c) (sended c) (q c) (closing c).

Definition set_errorHandler (v : option handler) (c : Client) : Client :=
  mkClient (DebugMode c) (username c) (password c) (provider_ c) (token c) (ws c)
    (channels c) (joinedChannels c) (quoteHander c) v
    (breakHartbeat c) (breakSender c) (sended c) (q c) (closing c).

Definition set_closing (v : bool) (c : Client) : Client :=
  mkClient (DebugMode c) (username c) (password c) (provider_ c) (token c) (ws c)
    (channels c) (joinedChannels c) (quoteHander c) (errorHandler c)
    (breakHartbeat c) (breakSender c) (sended c) (q c) v.

Inductive chan_name : Type := BreakHartbeat | BreakSender | Sended | Q.

Definition chanOf (n : chan_name) (c : Client) : gochan :=
  match n with
  | BreakHartbeat => breakHartbeat c
  | BreakSender => breakSender c
  | Sended => sended c
  | Q => q c
  end.

Definition set_chan (n : chan_name) (v : gochan) (c : Client) : Client :=
  mkClient (DebugMode c) (username c) (password c) (provider_ c) (token c) (ws c)
    (channels c) (joinedChannels c) (quoteHander c) (errorHandler c)
    (match n with BreakHartbeat => v | _ => breakHartbeat c end)
    (match n with BreakSender => v | _ => breakSender c end)
    (match n with Sended => v | _ => sended c end)
    (match n with Q => v | _ => q c end)
    (closing c).

(** What the client does to the outside world. *)
Inductive event : Type :=
| EvSend (m : message)                 (* cli.q <- m *)
| EvClose (n : chan_name)              (* close(cli.n) *)
| EvWsClose (c : conn)                 (* cli.ws.Close() *)
| EvHttpGet (url user pass : string)   (* client.Do(req) *)
| EvDial (url : string)                (* websocket.DefaultDialer.Dial *)
| EvGo (name : string)                 (* go cli.name() *)
| EvPrint (text : string).             (* fmt.Printf in debug mode *)

#[global] Instance gochan_eq_dec : EqDecision gochan.
Proof. solve_decision. Defined.

#[global] Instance chan_name_eq_dec : EqDecision chan_name.
Proof. solve_decision. Defined.

#[global] Instance event_eq_dec : EqDecision event.
Proof. solve_decision. Defined.

(** The reply of the credential exchange: the request fails, or a status
    comes back with a body that can be read ([inr]) or not ([inl]). *)
Inductive http_reply : Type :=
| HttpFail (err : error)
| HttpReply (status : Z) (body : error + string).

(** The state a call runs in: the client, the number of [range] loops run
    so far, and whether a sender goroutine is serving the channels the
    client holds now (it receives from [cli.q] and waits for
    [cli.breakSender]). *)
Record world : Type := mkWorld {
  self : Client;
  ranges : nat;
  senderUp : bool
}.

(** A call: from a state to what it does, the state it leaves and the
    events it caused, in order. *)
Definition M (A : Type) : Type := world → outcome A * world * list event.

Definition ret {A : Type} (a : A) : M A := λ w, (Ok a, w, []).

Definition bind {A B : Type} (m : M A) (f : A → M B) : M B :=
  λ w, match m w with
       | (Ok a, w1, e1) =>
           match f a w1 with
           | (r, w2, e2) => (r, w2, e1 ++ e2)
           end
       | (Panic msg, w1, e1) => (Panic msg, w1, e1)
       | (Block, w1, e1) => (Block, w1, e1)
       end.

#[global] Instance M_ret : MRet M := @ret.

#[global] Instance M_bind : MBind M := λ A B f m, bind m f.

Definition getCli : M Client := λ w, (Ok (self w), w, []).

Definition modify (f : Client → Client) : M unit :=
  λ w, (Ok tt, mkWorld (f (self w)) (ranges w) (senderUp w), []).

Definition setSender (b : bool) : M unit :=
  λ w, (Ok tt, mkWorld (self w) (ranges w) b, []).

Definition emit (e : event) : M unit := λ w, (Ok tt, w, [e]).

Definition lift {A : Type} (o : outcome A) : M A := λ w, (o, w, []).

Fixpoint forEach {A : Type} (l : list A) (body : A → M unit) : M unit :=
  match l with
  | [] => ret tt
  | x :: l' => (body x : M unit) ;; forEach l' body
  end.

(** [cli.debug]: prints only in debug mode. *)
Definition debug (text : string) : M unit :=
  cli ← getCli;
  if DebugMode cli then emit (EvPrint text) else ret tt.

(** [close(cli.n)]: closing a nil or a closed channel panics. *)
Definition closeChan (n : chan_name) : M unit :=
  cli ← getCli;
  match chanOf n cli with
  | ChOpen => modify (set_chan n ChClosed) ;; emit (EvClose n)
  | ChClosed => lift (Panic "close of closed channel")
  | ChNil => lift (Panic "close of nil channel")
  end.

(** [cli.q <- m].  The channel is unbuffered: the send completes when the
    sender goroutine receives the message, panics when the channel is
    closed and never completes on a nil channel or without a receiver. *)
Definition sendQ (m : message) : M unit :=
  λ w, match q (self w) with
       | ChOpen => if senderUp w then (Ok tt, w, [EvSend m]) else (Block, w, [])
       | ChClosed => (Panic "send on closed channel", w, [])
       | ChNil => (Block, w, [])
       end.

(** [cli.ws.Close()] on the socket the client holds; what the call returns
    is an input of the caller that reads it. *)
Definition wsClose : M unit :=
  cli ← getCli;
  match ws cli with
  | Some c => emit (EvWsClose c)
  | None => lift (Panic "invalid memory address or nil pointer dereference")
  end.

(** ** Construction and the simple methods *)

Definition New (username password : string) (p : provider) : Client :=
  mkClient false username password p "" None ∅ ∅ None None
    ChNil ChNil ChNil ChNil false.

(** A client that has just been constructed runs no goroutine. *)
Definition boot (c : Client) : world := mkWorld c 0 false.

Definition Connected (cli : Client) : bool :=
  match ws cli with
  | Some _ => true
  | None => false
  end.

Definition channelInitialize : M unit :=
  modify (set_chan BreakHartbeat ChOpen) ;;
  modify (set_chan BreakSender ChOpen) ;;
  modify (set_chan Sended ChOpen) ;;
  modify (set_chan Q ChOpen) ;;
  (* the goroutines of an earlier connection keep the channels they were
     started with *)
  setSender false ;;
  modify (set_closing false).

Definition onClosing : M unit :=
  modify (set_closing true) ;; debug "Websocket closing".

Definition onCloseFailed : M unit :=
  modify (set_closing false) ;; debug "Websocket failed close".

Definition onClosed : M unit :=
  modify (set_closing false) ;; debug "Websocket closed".

Definition OnQuote (f : handler) : M unit := modify (set_quoteHander (Some f)).

Definition OnError (f : handler) : M unit := modify (set_errorHandler (Some f)).

(** The function deferred in [startSender], run when the sender goroutine
    returns.  [cli.q] is unbuffered, so [len(cli.q)] is 0 and the loop that
    waits for the queue does not run. *)
Definition senderDeferred : M unit :=
  debug "close sender" ;;
  closeChan Q ;;
  wsClose ;;
  modify (set_ws None) ;;
  closeChan Sended ;;
  setSender false.

(** [<-cli.sended].  Nothing is ever sent on the channel: the receive
    completes once the channel is closed, which only the sender goroutine
    does, in its deferred function, after [cli.breakSender] was closed.  The
    caller resumes after that function has run. *)
Definition recvSended : M unit :=
  λ w, match sended (self w) with
       | ChClosed => (Ok tt, w, [])
       | ChOpen => if senderUp w then senderDeferred w else (Block, w, [])
       | ChNil => (Block, w, [])
       end.

Definition Disconnect : M (option error) :=
  cli ← getCli;
  if negb (Connected cli) then ret None else
  if closing cli then ret None else
  onClosing ;;
  closeChan BreakHartbeat ;;
  closeChan BreakSender ;;
  recvSended ;;
  onClosed ;;
  ret None.

Definition onConnected : M unit :=
  debug "Websocket connected" ;;
  emit (EvGo "startReceiver") ;;
  emit (EvGo "startSender") ;;
  setSender true ;;
  emit (EvGo "heartbeat").

(** [reply] is what the credential exchange answers to this call.
    [http.NewRequest] does not fail on the two URLs of [makeAuthURL]. *)
Definition refreshToken (reply : http_reply) : M (option error) :=
  cli ← getCli;
  url ← lift (makeAuthURL (provider_ cli));
  emit (EvHttpGet url (username cli) (password cli)) ;;
  match reply with
  | HttpFail err => ret (Some err)
  | HttpReply status body =>
      if decide (status ≠ 200%Z) then ret (Some "Auth failed.") else
      match body with
      | inl err => ret (Some err)
      | inr b => modify (set_token b) ;; ret None
      end
  end.

(** [dialed] is what the dialer answers to this call. *)
Definition refreshWebsocket (dialed : error + conn) : M (option error) :=
  cli ← getCli;
  (if Connected cli then Disconnect ;; ret tt else ret tt) ;;
  cli ← getCli;
  url ← lift (makeSoketURL (provider_ cli) (token cli));
  emit (EvDial url) ;;
  match dialed with
  | inl err => ret (Some err)
  | inr c => modify (set_ws (Some c)) ;; onConnected ;; ret None
  end.

Definition Connect (reply : http_reply) (dialed : error + conn) : M (option error) :=
  debug "Websocket connecting..." ;;
  channelInitialize ;;
  err ← refreshToken reply;
  match err with
  | Some e => ret (Some e)
  | None => refreshWebsocket dialed
  end.

(** ** Subscriptions *)

Section Reconciler.

Variable rangeOrder : nat → gmap string bool → list string.

Definition rangeKeys (m : gmap string bool) : M (list string) :=
  λ w, (Ok (rangeOrder (ranges w) m),
        mkWorld (self w) (S (ranges w)) (senderUp w), []).

Definition refreshChannels : M unit :=
  cli ← getCli;
  if negb (Connected cli) then ret tt else
  ks ← rangeKeys (channels cli);
  forEach ks (λ k,
    cli ← getCli;
    match joinedChannels cli !! k with
    | None => m ← lift (makeJoinMessage (provider_ cli) k); sendQ m
    | Some _ => ret tt
    end) ;;
  cli ← getCli;
  ks ← rangeKeys (joinedChannels cli);
  forEach ks (λ k,
    cli ← getCli;
    match channels cli !! k with
    | None => m ← lift (makeLeaveMessage (provider_ cli) k); sendQ m
    | Some _ => ret tt
    end) ;;
  modify (set_joinedChannels ∅) ;;
  cli ← getCli;
  ks ← rangeKeys (channels cli);
  forEach ks (λ k,
    modify (λ c, set_joinedChannels (<[k := true]> (joinedChannels c)) c)).

Definition Join (chs : list string) : M unit :=
  forEach chs (λ channel,
    let c := TrimSpace channel in
    cli ← getCli;
    match channels cli !! c with
    | None => modify (λ cl, set_channels (<[c := true]> (channels cl)) cl)
    | Some _ => ret tt
    end) ;;
  refreshChannels.

Definition Leave (chs : list string) : M unit :=
  forEach chs (λ channel,
    modify (λ cl, set_channels (delete (TrimSpace channel) (channels cl)) cl)) ;;
  refreshChannels.

Definition LeaveAll : M unit :=
  modify (set_channels ∅) ;;
  refreshChannels.

End Reconciler.

(** ** The goroutines of a connection

    [onConnected] starts three goroutines.  Each of them is a loop; one
    turn of a loop is a call that reads the client as it is at that
    moment.  What a turn receives from outside (the clock, the result of a
    read or of a write) is an argument of the turn.  The handlers are the
    owner's code: their calls are recorded, and they are taken to return
    and to leave the client alone. *)

(** One tick of the ticker in [heartbeat]:
    [cli.q <- makeHeartbeatMessage(cli.provider)], where [now] is the
    clock at the tick. *)
Definition heartbeatTick (now : Z) : M unit :=
  cli ← getCli;
  m ← lift (makeHeartbeatMessage (provider_ cli) now);
  sendQ m.

(** An error as the goroutines look at it: the close frame of the peer
    (gorilla's [*websocket.CloseError]) with its code, or any other
    error. *)
Inductive failure : Type :=
| CloseError (code : Z) (text : string)
| OtherError (text : string).

Definition CloseGoingAway : Z := 1001.

Definition CloseAbnormalClosure : Z := 1006.

(** gorilla's [websocket.IsUnexpectedCloseError]: the error is a close
    error and its code is none of the expected ones. *)
Definition IsUnexpectedCloseError (err : failure) (expectedCodes : list Z) : bool :=
  match err with
  | CloseError code _ => negb (bool_decide (code ∈ expectedCodes))
  | OtherError _ => false
  end.

(** What the goroutines do to the outside world.  The format of a debug
    print is kept as the source writes it, with its argument. *)
Inductive notice : Type :=
| NPrintf (format : string) (arg : message + failure)   (* cli.debug(format, arg) *)
| NQuote (f : handler) (quote : message)                (* cli.quoteHander(a) *)
| NError (f : handler) (err : failure)                  (* cli.errorHandler(err) *)
| NWrite (c : conn) (data : message).                   (* cli.ws.WriteJSON(data) *)

Definition debugf (cli : Client) (format : string) (arg : message + failure) :
    list notice :=
  if DebugMode cli then [NPrintf format arg] else [].

Definition onQuote (cli : Client) (a : message) : list notice :=
  debugf cli "%v\n" (inl a)
  ++ match quoteHander cli with
     | Some f => [NQuote f a]
     | None => []
     end.

Definition onError (cli : Client) (err : failure) : list notice :=
  debugf cli "IntrinioRealtime | Websocket error: %v\n" (inr err)
  ++ match errorHandler cli with
     | Some f => [NError f err]
     | None => []
     end.

(** [defer]: [d] runs when [m] has returned or panicked, and the panic
    goes on after it. *)
Definition deferring {A : Type} (d : M unit) (m : M A) : M A :=
  λ w, match m w with
       | (Block, w1, e1) => (Block, w1, e1)
       | (r, w1, e1) =>
           match d w1 with
           | (Ok _, w2, e2) => (r, w2, e1 ++ e2)
           | (Panic msg, w2, e2) => (Panic msg, w2, e1 ++ e2)
           | (Block, w2, e2) => (Block, w2, e1 ++ e2)
           end
       end.

(** A turn of the loop of [startReceiver] has two halves.  In the first
    the read deadline is set and the read begins, on the socket that the
    client holds: [cli.ws.SetReadDeadline] on a socket that is gone is a
    nil dereference.  The read then waits for the peer. *)
Definition receiverArm : M unit :=
  cli ← getCli;
  match ws cli with
  | None => lift (Panic "invalid memory address or nil pointer dereference")
  | Some _ => ret tt
  end.

(** In the second half the read has returned [r]: a quote, or an error,
    which ends the loop.  The notices are returned. *)
Definition receiverHandle (r : failure + message) : M (list notice) :=
  cli ← getCli;
  match r with
  | inl err =>
      if IsUnexpectedCloseError err [CloseGoingAway; CloseAbnormalClosure]
      then ret (onError cli err) else ret []
  | inr a => ret (onQuote cli a)
  end.

Definition receiverTurn (r : failure + message) : M (list notice) :=
  receiverArm ;; receiverHandle r.

(** The loop reads the quotes, then the read that fails with [err]. *)
Fixpoint receiverLoop (quotes : list message) (err : failure) : M (list notice) :=
  match quotes with
  | [] => receiverTurn (inl err)
  | a :: quotes' =>
      ns ← receiverTurn (inr a);
      ns' ← receiverLoop quotes' err;
      ret (ns ++ ns')
  end.

Definition startReceiver (quotes : list message) (err : failure) : M (list notice) :=
  deferring (Disconnect ;; ret tt) (receiverLoop quotes err).



(** * Vocabulary of the properties *)

(** ** Provider adapter *)

Definition validProvider (p : provider) : Prop := p = IEX ∨ p = QUODD.

#[global] Instance validProvider_dec (p : provider) : Decision (validProvider p).
Proof. unfold validProvider. apply _. Defined.

(** The message the adapter builds for a channel, when it builds one. *)
Definition joinMsg (p : provider) (k : string) : message :=
  match makeJoinMessage p k with Ok m => m | _ => ∅ end.

Definition leaveMsg (p : provider) (k : string) : message :=
  match makeLeaveMessage p k with Ok m => m | _ => ∅ end.

Definition joinEvent (p : provider) : string :=
  if decide (p = IEX) then "phx_join" else "subscribe".

Definition leaveEvent (p : provider) : string :=
  if decide (p = IEX) then "phx_leave" else "unsubscribe".

(** The keys for which a map has no entry: [_, ok := m[k]; !ok]. *)
Definition absent (m : gmap string bool) (k : string) : Prop := m !! k = None.

#[global] Instance absent_dec (m : gmap string bool) (k : string) :
  Decision (absent m k).
Proof. unfold absent. apply _. Defined.

(** The channels added to [D] by [Join], removed from it by [Leave]. *)
Definition joinAll (chs : list string) (D : gmap string bool) : gmap string bool :=
  foldl (λ D channel,
           match D !! TrimSpace channel with
           | None => <[TrimSpace channel := true]> D
           | Some _ => D
           end) D chs.

Definition leaveEach (chs : list string) (D : gmap string bool) : gmap string bool :=
  foldl (λ D channel, delete (TrimSpace channel) D) D chs.

Definition markAll (ks : list string) (J : gmap string bool) : gmap string bool :=
  foldl (λ J k, <[k := true]> J) J ks.

(** A connection that works: the socket is there, the queue is open and
    the sender goroutine receives from it. *)
Definition online (w : world) : Prop :=
  Connected (self w) = true ∧ q (self w) = ChOpen ∧ senderUp w = true.

#[global] Instance online_dec (w : world) : Decision (online w).
Proof. unfold online. apply _. Defined.

Section Passes.

Variable rangeOrder : nat → gmap string bool → list string.

(** The events and the state of one pass, on a working connection. *)
Definition passJoins (w : world) : list string :=
  filter (absent (joinedChannels (self w)))
         (rangeOrder (ranges w) (channels (self w))).

Definition passLeaves (w : world) : list string :=
  filter (absent (channels (self w)))
         (rangeOrder (S (ranges w)) (joinedChannels (self w))).

Definition passEvents (w : world) : list event :=
  ((λ k, EvSend (joinMsg (provider_ (self w)) k)) <$> passJoins w)
  ++ ((λ k, EvSend (leaveMsg (provider_ (self w)) k)) <$> passLeaves w).

Definition passState (w : world) : world :=
  mkWorld
    (set_joinedChannels
       (markAll (rangeOrder (S (S (ranges w))) (channels (self w))) ∅) (self w))
    (S (S (S (ranges w)))) (senderUp w).

End Passes.

(** One concrete order for the [range] loops: the keys as the map lists
    them. *)
Definition keyOrder : nat → gmap string bool → list string :=
  λ _ m, (map_to_list m).*1.

(** The event [e] is the send of the message that [mk] builds for [k]. *)
Definition sends (mk : string → outcome message) (k : string) (e : event) : Prop :=
  ∃ m, mk k = Ok m ∧ e = EvSend m.

(** A client on a working connection to IEX that wants AAPL and MSFT and
    has joined MSFT and GE. *)
Definition demoClient : Client :=
  mkClient false "user" "secret" IEX "token" (Some 1%nat)
    (<["AAPL" := true]> (<["MSFT" := true]> ∅))
    (<["MSFT" := true]> (<["GE" := true]> ∅))
    None None ChOpen ChOpen ChOpen ChOpen false.

Definition demoWorld : world := mkWorld demoClient 0 true.

(** ** Sequences of calls *)

Inductive call : Type :=
| CJoin (chs : list string)
| CLeave (chs : list string)
| CLeaveAll.

(** What a call does to the desired set. *)
Definition intend (k : call) (D : gmap string bool) : gmap string bool :=
  match k with
  | CJoin chs => joinAll chs D
  | CLeave chs => leaveEach chs D
  | CLeaveAll => ∅
  end.

(** [e] is the send of the message in [o], if there is one. *)
Definition isSend (o : outcome message) (e : event) : bool :=
  match o with
  | Ok m => bool_decide (e = EvSend m)
  | _ => false
  end.

Definition isJoin (p : provider) (k : string) (e : event) : bool :=
  isSend (makeJoinMessage p k) e.

Definition isLeave (p : provider) (k : string) (e : event) : bool :=
  isSend (makeLeaveMessage p k) e.

(** Whether channel [k] has an outstanding join after the events [tr]: the
    last join or leave message for [k] in [tr] is a join; [init] when
    there is none. *)
Definition outstanding (p : provider) (k : string) (init : bool)
    (tr : list event) : bool :=
  foldl (λ b e, if isJoin p k e then true
                else if isLeave p k e then false else b) init tr.

(** How many join messages, how many leave messages for [k] in [tr]. *)
Definition countJoins (p : provider) (k : string) (tr : list event) : nat :=
  length (filter (λ e, isJoin p k e = true) tr).

Definition countLeaves (p : provider) (k : string) (tr : list event) : nat :=
  length (filter (λ e, isLeave p k e = true) tr).

Section Calls.

Variable rangeOrder : nat → gmap string bool → list string.

Definition perform (k : call) : M unit :=
  match k with
  | CJoin chs => Join rangeOrder chs
  | CLeave chs => Leave rangeOrder chs
  | CLeaveAll => LeaveAll rangeOrder
  end.

Definition performAll (ks : list call) : M unit := forEach ks perform.

(** The state in which the pass of a call runs. *)
Definition intended (k : call) (w : world) : world :=
  mkWorld (set_channels (intend k (channels (self w))) (self w))
    (ranges w) (senderUp w).

End Calls.

(** ** Reasoning about calls that may panic or block

    [triple P m Q E]: from a state that satisfies [P], every event that
    [m] causes satisfies [E], also when [m] panics or blocks, and when [m]
    returns [a], the state it leaves satisfies [Q a]. *)

Definition triple {A : Type} (P : world → Prop) (m : M A)
    (Q : A → world → Prop) (E : event → Prop) : Prop :=
  ∀ w, P w →
    match m w with
    | (Ok a, w', tr) => Q a w' ∧ Forall E tr
    | (_, _, tr) => Forall E tr
    end.

(** The events of a call. *)
Definition eventsOf {A : Type} (m : M A) (w : world) : list event := (m w).2.

(** [keeps I E m]: [m] keeps the invariant [I] and causes only events that
    satisfy [E]. *)
Definition keeps {A : Type} (I : world → Prop) (E : event → Prop) (m : M A) : Prop :=
  triple I m (λ _, I) E.

(** The part of the state that the reconciler works on. *)
Definition subscriptions (w : world) : gmap string bool * gmap string bool * provider :=
  (channels (self w), joinedChannels (self w), provider_ (self w)).

(** [I] looks at the desired set, the joined set and the provider only. *)
Definition onSubscriptions (I : world → Prop) : Prop :=
  ∀ w w', subscriptions w = subscriptions w' → I w → I w'.

Definition notSend (e : event) : Prop :=
  match e with
  | EvSend _ => False
  | _ => True
  end.

Definition anyEvent (e : event) : Prop := True.

(** While the socket is there, the sender goroutine has not finished. *)
Definition sendedOpen (w : world) : Prop :=
  Connected (self w) = true → sended (self w) = ChOpen.

(** The state in which a second [Disconnect] has nothing to do. *)
Definition disconnected (w : world) : Prop :=
  Connected (self w) = false ∨ closing (self w) = true.

(** The state [channelInitialize] leaves: fresh channels that no goroutine
    serves yet. *)
Definition initialized (w : world) : Prop :=
  breakHartbeat (self w) = ChOpen ∧ breakSender (self w) = ChOpen
  ∧ sended (self w) = ChOpen ∧ q (self w) = ChOpen
  ∧ closing (self w) = false ∧ senderUp w = false.

(** *** The life of a client *)

Section Lifecycle.

Variable rangeOrder : nat → gmap string bool → list string.

(** What the owner of a client can do with it. *)
Inductive op : Type :=
| OConnect (reply : http_reply) (dialed : error + conn)
| ODisconnect
| OCall (c : call)
| OOnQuote (f : handler)
| OOnError (f : handler)
| ODebugMode (b : bool).

Definition run (o : op) : M unit :=
  match o with
  | OConnect reply dialed => Connect reply dialed ;; ret tt
  | ODisconnect => Disconnect ;; ret tt
  | OCall c => perform rangeOrder c
  | OOnQuote f => OnQuote f
  | OOnError f => OnError f
  | ODebugMode b => modify (set_DebugMode b)
  end.

Definition runAll (os : list op) : M unit := forEach os run.

(** The states of a client that was made by [New] and used since. *)
Inductive reachable : world → Prop :=
| reachable_New (username password : string) (p : provider) :
    reachable (boot (New username password p))
| reachable_run (o : op) (w w' : world) (tr : list event) :
    reachable w → run o w = (Ok tt, w', tr) → reachable w'.

(** Every channel of the desired set is a trimmed string. *)
Definition keysTrimmed (w : world) : Prop :=
  ∀ k, k ∈ dom (channels (self w)) → trimmed k.

(** Nothing is known of channel [k]: it is not desired, not joined. *)
Definition unknown (p : provider) (k : string) (w : world) : Prop :=
  (k ∉ dom (channels (self w))) ∧ (k ∉ dom (joinedChannels (self w)))
  ∧ provider_ (self w) = p.

Definition notLeave (p : provider) (k : string) (e : event) : Prop :=
  isLeave p k e = false.

(** The call asks to join channel [k]. *)
Definition joins (k : string) (o : op) : Prop :=
  match o with
  | OCall (CJoin chs) => k ∈ TrimSpace <$> chs
  | _ => False
  end.

End Lifecycle.

(** ** Connecting and disconnecting *)

(** What [cli.debug] adds to the events of a call. *)
Definition printed (w : world) (text : string) : list event :=
  if DebugMode (self w) then [EvPrint text] else [].

(** The client with the channels that [channelInitialize] makes. *)
Definition rearmed (c : Client) : Client :=
  mkClient (DebugMode c) (username c) (password c) (provider_ c) (token c) (ws c)
    (channels c) (joinedChannels c) (quoteHander c) (errorHandler c)
    ChOpen ChOpen ChOpen ChOpen false.

(** The client after the teardown of its connection. *)
Definition tornDown (c : Client) : Client :=
  mkClient (DebugMode c) (username c) (password c) (provider_ c) (token c) None
    (channels c) (joinedChannels c) (quoteHander c) (errorHandler c)
    ChClosed ChClosed ChClosed ChClosed false.

(** The state a successful [Connect] leaves: four open channels, a sender
    goroutine that serves them, no teardown under way. *)
Definition serving (w : world) : Prop :=
  breakHartbeat (self w) = ChOpen ∧ breakSender (self w) = ChOpen
  ∧ sended (self w) = ChOpen ∧ q (self w) = ChOpen
  ∧ closing (self w) = false ∧ senderUp w = true.

(** The credential exchange is refused with the error [e]: the request
    fails, the status is not 200, or the body cannot be read. *)
Inductive refused : http_reply → error → Prop :=
| refused_request (err : error) : refused (HttpFail err) err
| refused_status (status : Z) (body : error + string) :
    status ≠ 200%Z → refused (HttpReply status body) "Auth failed."
| refused_body (err : error) : refused (HttpReply 200 (inl err)) err.

(** *** Orderly use *)


Section OrderlyUse.

Variable rangeOrder : nat → gmap string bool → list string.


End OrderlyUse.


(** ** The heartbeat among the calls *)

(** What the owner and the heartbeat goroutine do to the queue, in the
    order in which it happens. *)
Inductive turn : Type :=
| TCall (c : call)
| TBeat (now : Z).

Definition callsOf (ts : list turn) : list call :=
  omap (λ t, match t with TCall c => Some c | TBeat _ => None end) ts.

Definition beatsOf (ts : list turn) : list Z :=
  omap (λ t, match t with TBeat now => Some now | TCall _ => None end) ts.

(** [e] is the send of a heartbeat message. *)
Definition isBeat (e : event) : bool :=
  match e with
  | EvSend m => bool_decide (m !! "event" = Some (VScalar (SStr "heartbeat")))
  | _ => false
  end.

Section Turns.

Variable rangeOrder : nat → gmap string bool → list string.

Definition takeTurn (t : turn) : M unit :=
  match t with
  | TCall c => perform rangeOrder c
  | TBeat now => heartbeatTick now
  end.

Definition takeTurns (ts : list turn) : M unit := forEach ts takeTurn.

End Turns.

(** The heartbeat message the adapter builds, when it builds one, and the
    clock value it carries. *)
Definition heartbeatMsg (p : provider) (now : Z) : message :=
  match makeHeartbeatMessage p now with Ok m => m | _ => ∅ end.

Definition heartbeatTicker (o : outcome message) : option scalar :=
  match o with
  | Ok m => match m !! "data" with
            | Some (VMap fields) => fields !! "ticker"
            | _ => None
            end
  | _ => None
  end.

(** ** The notices of the goroutines *)

(** The calls of the handlers and the writes among the notices. *)
Definition quoteCalls (ns : list notice) : list (handler * message) :=
  omap (λ n, match n with NQuote f a => Some (f, a) | _ => None end) ns.

Definition errorCalls (ns : list notice) : list (handler * failure) :=
  omap (λ n, match n with NError f err => Some (f, err) | _ => None end) ns.


(** The notices of the receiver on a client that holds a socket. *)
Definition received (cli : Client) (quotes : list message) (err : failure) :
    list notice :=
  concat (onQuote cli <$> quotes)
  ++ (if IsUnexpectedCloseError err [CloseGoingAway; CloseAbnormalClosure]
      then onError cli err else []).

(** ** The maps as sets *)

(** A Go map that is used as a set: every value it stores is [true]. *)
Definition allTrue (m : gmap string bool) : Prop :=
  ∀ k v, m !! k = Some v → v = true.

Definition setLike (w : world) : Prop :=
  allTrue (channels (self w)) ∧ allTrue (joinedChannels (self w)).

(** Another order for the [range] loops: the keys from the last to the
    first. *)
Definition revOrder : nat → gmap string bool → list string :=
  λ _ m, reverse (map_to_list m).*1.

(** ** Concrete runs *)

(** A client of IEX that has just connected. *)
Definition connectedIEX : world :=
  mkWorld
    (mkClient false "user" "secret" IEX "token" (Some 1%nat) ∅ ∅ None None
       ChOpen ChOpen ChOpen ChOpen false)
    0 true.

(** * The earlier revision of the client ([src/client.go])

    Its [Client] has no [closing] field, makes its channels once, in
    [New], and names [sending] the channel that the later revision names
    [sended]; [Disconnect] closes the socket itself, after the sender
    goroutine has acknowledged the break.  [refreshToken],
    [refreshChannels], [Join], [LeaveAll] and the provider adapter are the
    same text in both revisions; [Leave] differs by the prints it makes
    for each channel.  The revision is modelled on the
    same record: the field [sended] stands for [sending], the field
    [closing] is never read. *)
Module Legacy.

Definition New (username password : string) (p : provider) : Client :=
  mkClient false username password p "" None ∅ ∅ None None
    ChOpen ChOpen ChOpen ChOpen false.

Definition connected (cli : Client) : bool :=
  match ws cli with
  | Some _ => true
  | None => false
  end.

Definition onClosing : M unit := debug "Websocket closing".

Definition onCloseFailed : M unit := debug "Websocket failed close".

Definition onClosed : M unit := debug "Websocket closed".

(** The [breakSender] case of the sender goroutine.  [cli.q] is
    unbuffered, so the loop that waits for the queue does not run. *)
Definition senderBreak : M unit :=
  closeChan Sended ;;
  setSender false.

(** [<-cli.sending]: completes once the sender goroutine has closed the
    channel, which it does when it sees [cli.breakSender] closed. *)
Definition recvSending : M unit :=
  λ w, match sended (self w) with
       | ChClosed => (Ok tt, w, [])
       | ChOpen => if senderUp w then senderBreak w else (Block, w, [])
       | ChNil => (Block, w, [])
       end.

(** [closed] is what [cli.ws.Close()] returns to this call.  The sleep of
    one second before [onClosed] changes nothing. *)
Definition Disconnect (closed : option error) : M (option error) :=
  cli ← getCli;
  if negb (connected cli) then ret None else
  onClosing ;;
  closeChan BreakHartbeat ;;
  closeChan BreakSender ;;
  recvSending ;;
  wsClose ;;
  match closed with
  | Some err => onCloseFailed ;; ret (Some err)
  | None => modify (set_ws None) ;; onClosed ;; ret None
  end.

Definition onConnected : M unit :=
  debug "Websocket connected" ;;
  emit (EvGo "startReceiver") ;;
  emit (EvGo "startSender") ;;
  setSender true ;;
  emit (EvGo "heartbeat").

Definition refreshWebsocket (closed : option error) (dialed : error + conn) :
    M (option error) :=
  cli ← getCli;
  (if connected cli then Disconnect closed ;; ret tt else ret tt) ;;
  cli ← getCli;
  url ← lift (makeSoketURL (provider_ cli) (token cli));
  emit (EvDial url) ;;
  match dialed with
  | inl err => ret (Some err)
  | inr c => modify (set_ws (Some c)) ;; onConnected ;; ret None
  end.

Definition Connect (reply : http_reply) (closed : option error)
    (dialed : error + conn) : M (option error) :=
  debug "Websocket connecting..." ;;
  err ← refreshToken reply;
  match err with
  | Some e => ret (Some e)
  | None => refreshWebsocket closed dialed
  end.

(** A client of IEX that has just connected. *)
Definition connectedIEX : world :=
  mkWorld
    (mkClient false "user" "secret" IEX "token" (Some 1%nat) ∅ ∅ None None
       ChOpen ChOpen ChOpen ChOpen false)
    0 true.

(** The same client after a [Disconnect] during which the socket could
    not be closed. *)
Definition halfClosedIEX : world :=
  mkWorld
    (mkClient false "user" "secret" IEX "token" (Some 1%nat) ∅ ∅ None None
       ChClosed ChClosed ChClosed ChOpen false)
    0 false.

End Legacy.

(** The client of the earlier revision after its [Disconnect]: the three
    channels that the call and the sender goroutine close are closed, the
    queue is as it was; [socket] is the socket it holds then. *)
Definition legacyTornDown (socket : option conn) (c : Client) : Client :=
  mkClient (DebugMode c) (username c) (password c) (provider_ c) (token c) socket
    (channels c) (joinedChannels c) (quoteHander c) (errorHandler c)
    ChClosed ChClosed ChClosed (q c) (closing c).

(** * Properties *)

(** ** [TrimSpace] *)

(** The recursive calls are on a shorter string. *)
Ltac shorter IH s :=
  exact (IH (length s) ltac:(cbn; lia) s eq_refl).

Lemma trimLeft_lead (s : list ascii) : leadSpace (trimLeft s) = false.
Proof.
  remember (length s) as n eqn:Hn. revert s Hn.
  induction n as [n IH] using lt_wf_ind. intros s ->.
  destruct s as [|c1 [|c2 [|c3 s3]]]; cbn [trimLeft].
  - reflexivity.
  - destruct (asciiSpace c1) eqn:E1; cbn; rewrite ?E1; reflexivity.
  - destruct (asciiSpace c1) eqn:E1.
    { shorter IH [c2]. }
    destruct (space2 c1 c2) eqn:E2; [reflexivity|].
    cbn. rewrite E1, E2. reflexivity.
  - destruct (asciiSpace c1) eqn:E1.
    { shorter IH (c2 :: c3 :: s3). }
    destruct (space2 c1 c2) eqn:E2.
    { shorter IH (c3 :: s3). }
    destruct (space3 c1 c2 c3) eqn:E3.
    { shorter IH s3. }
    cbn. rewrite E1, E2, E3. reflexivity.
Qed.

Lemma trimLeft_fixed (s : list ascii) : leadSpace s = false → trimLeft s = s.
Proof.
  destruct s as [|c1 [|c2 [|c3 s3]]]; cbn [leadSpace trimLeft]; intros H;
    [reflexivity | ..];
    (destruct (asciiSpace c1); [discriminate H|]); cbn [orb] in H;
    [reflexivity | ..];
    (destruct (space2 c1 c2); [discriminate H|]); cbn [orb] in H;
    [reflexivity|].
  rewrite H. reflexivity.
Qed.

Lemma trimLeftRev_trail (r : list ascii) : trailSpace (trimLeftRev r) = false.
Proof.
  remember (length r) as n eqn:Hn. revert r Hn.
  induction n as [n IH] using lt_wf_ind. intros r ->.
  destruct r as [|c1 [|c2 [|c3 r3]]]; cbn [trimLeftRev].
  - reflexivity.
  - destruct (asciiSpace c1) eqn:E1; cbn; rewrite ?E1; reflexivity.
  - destruct (asciiSpace c1) eqn:E1.
    { shorter IH [c2]. }
    destruct (space2 c2 c1) eqn:E2; [reflexivity|].
    cbn. rewrite E1, E2. reflexivity.
  - destruct (asciiSpace c1) eqn:E1.
    { shorter IH (c2 :: c3 :: r3). }
    destruct (space2 c2 c1) eqn:E2.
    { shorter IH (c3 :: r3). }
    destruct (space3 c3 c2 c1) eqn:E3.
    { shorter IH r3. }
    cbn. rewrite E1, E2, E3. reflexivity.
Qed.

Lemma trimLeftRev_fixed (r : list ascii) : trailSpace r = false → trimLeftRev r = r.
Proof.
  destruct r as [|c1 [|c2 [|c3 r3]]]; cbn [trailSpace trimLeftRev]; intros H;
    [reflexivity | ..];
    (destruct (asciiSpace c1); [discriminate H|]); cbn [orb] in H;
    [reflexivity | ..];
    (destruct (space2 c2 c1); [discriminate H|]); cbn [orb] in H;
    [reflexivity|].
  rewrite H. reflexivity.
Qed.

(** What is left by the trimming from the right is a prefix. *)
Lemma trimLeftRev_suffix (r : list ascii) : ∃ p, r = p ++ trimLeftRev r.
Proof.
  remember (length r) as n eqn:Hn. revert r Hn.
  induction n as [n IH] using lt_wf_ind. intros r ->.
  assert (Hstep : ∀ pre r', r = pre ++ r' → length r' < length r →
                  ∃ p, r = p ++ trimLeftRev r').
  { intros pre r' -> Hlt. destruct (IH _ Hlt r' eq_refl) as [p Hp].
    exists (pre ++ p). rewrite <- app_assoc, <- Hp. reflexivity. }
  destruct r as [|c1 [|c2 [|c3 r3]]]; cbn [trimLeftRev].
  - by exists [].
  - destruct (asciiSpace c1); [by exists [c1] | by exists []].
  - destruct (asciiSpace c1).
    { exact (Hstep [c1] [c2] eq_refl ltac:(cbn; lia)). }
    destruct (space2 c2 c1); [by exists [c1; c2] | by exists []].
  - destruct (asciiSpace c1).
    { exact (Hstep [c1] (c2 :: c3 :: r3) eq_refl ltac:(cbn; lia)). }
    destruct (space2 c2 c1).
    { exact (Hstep [c1; c2] (c3 :: r3) eq_refl ltac:(cbn; lia)). }
    destruct (space3 c3 c2 c1).
    { exact (Hstep [c1; c2; c3] r3 eq_refl ltac:(cbn; lia)). }
    by exists [].
Qed.

(** A string that starts with a white-space rune still does when it is
    extended. *)
Lemma leadSpace_app (p x : list ascii) :
  leadSpace p = true → leadSpace (p ++ x) = true.
Proof.
  destruct p as [|c1 [|c2 [|c3 p3]]]; cbn [leadSpace app]; intros H.
  - discriminate.
  - rewrite orb_false_r in H. rewrite H. reflexivity.
  - rewrite orb_false_r in H.
    destruct (asciiSpace c1); [reflexivity|]. cbn [orb] in *.
    rewrite H. reflexivity.
  - exact H.
Qed.

Lemma trimRight_lead (s : list ascii) :
  leadSpace s = false → leadSpace (trimRight s) = false.
Proof.
  intros H. unfold trimRight.
  destruct (trimLeftRev_suffix (rev s)) as [p Hp].
  destruct (leadSpace (rev (trimLeftRev (rev s)))) eqn:E; [|reflexivity].
  apply (leadSpace_app _ (rev p)) in E.
  rewrite <- rev_app_distr, <- Hp, rev_involutive in E. congruence.
Qed.

Lemma TrimSpace_trimmed (s : string) : trimmed (TrimSpace s).
Proof.
  unfold trimmed, TrimSpace. rewrite list_ascii_of_string_of_list_ascii. split.
  - apply trimRight_lead, trimLeft_lead.
  - unfold trimRight. rewrite rev_involutive. apply trimLeftRev_trail.
Qed.

Lemma trimmed_fixed (s : string) : trimmed s → TrimSpace s = s.
Proof.
  intros [Hl Hr]. unfold TrimSpace, trimRight.
  rewrite (trimLeft_fixed _ Hl), (trimLeftRev_fixed _ Hr), rev_involutive.
  apply string_of_list_ascii_of_string.
Qed.

Lemma TrimSpace_idempotent (s : string) : TrimSpace (TrimSpace s) = TrimSpace s.
Proof. apply trimmed_fixed, TrimSpace_trimmed. Qed.

Lemma trimmed_iff (s : string) : trimmed s ↔ TrimSpace s = s.
Proof.
  split; [apply trimmed_fixed|]. intros <-. apply TrimSpace_trimmed.
Qed.

(** ** Provider adapter *)

Lemma makeJoinMessage_valid (p : provider) (k : string) :
  validProvider p → makeJoinMessage p k = Ok (joinMsg p k).
Proof. intros [-> | ->]; reflexivity. Qed.

Lemma makeLeaveMessage_valid (p : provider) (k : string) :
  validProvider p → makeLeaveMessage p k = Ok (leaveMsg p k).
Proof. intros [-> | ->]; reflexivity. Qed.

Lemma makeJoinMessage_invalid (p : provider) (k : string) :
  ¬ validProvider p → makeJoinMessage p k = Panic cPanicProvider.
Proof.
  intros H. unfold makeJoinMessage, validProvider in *.
  repeat case_decide; tauto.
Qed.

Lemma makeLeaveMessage_invalid (p : provider) (k : string) :
  ¬ validProvider p → makeLeaveMessage p k = Panic cPanicProvider.
Proof.
  intros H. unfold makeLeaveMessage, validProvider in *.
  repeat case_decide; tauto.
Qed.

Lemma makeHeartbeatMessage_invalid (p : provider) (now : Z) :
  ¬ validProvider p → makeHeartbeatMessage p now = Panic cPanicProvider.
Proof.
  intros H. unfold makeHeartbeatMessage, validProvider in *.
  repeat case_decide; tauto.
Qed.

Lemma makeAuthURL_invalid (p : provider) :
  ¬ validProvider p → makeAuthURL p = Panic cPanicProvider.
Proof.
  intros H. unfold makeAuthURL, validProvider in *.
  repeat case_decide; tauto.
Qed.

Lemma makeSoketURL_invalid (p : provider) (tok : string) :
  ¬ validProvider p → makeSoketURL p tok = Panic cPanicProvider.
Proof.
  intros H. unfold makeSoketURL, validProvider in *.
  repeat case_decide; tauto.
Qed.

(** The topic tells the channel. *)
Lemma parseTopic_cases (channel : string) :
  (channel = "$lobby" ∧ parseTopic channel = "iex:lobby")
  ∨ (channel = "$lobby_last_price" ∧ parseTopic channel = "iex:lobby:last_price")
  ∨ (channel ≠ "$lobby" ∧ channel ≠ "$lobby_last_price"
     ∧ parseTopic channel = "iex:securities:" +:+ channel).
Proof. unfold parseTopic. repeat case_decide; subst; auto. Qed.

Lemma parseTopic_inj : Inj (=) (=) parseTopic.
Proof.
  intros a b H.
  destruct (parseTopic_cases a) as [[-> Ha] | [[-> Ha] | (_ & _ & Ha)]];
  destruct (parseTopic_cases b) as [[-> Hb] | [[-> Hb] | (_ & _ & Hb)]];
    try reflexivity; rewrite Ha, Hb in H; try discriminate H.
  cbn in H. by simplify_eq.
Qed.

Lemma lookup_topic_join (k : string) :
  joinMsg IEX k !! "topic" = Some (VScalar (SStr (parseTopic k))).
Proof. reflexivity. Qed.

Lemma lookup_topic_leave (k : string) :
  leaveMsg IEX k !! "topic" = Some (VScalar (SStr (parseTopic k))).
Proof. reflexivity. Qed.

Lemma lookup_ticker_join (k : string) :
  joinMsg QUODD k !! "data"
  = Some (VMap (<["ticker" := SStr k]> (<["action" := SStr "subscribe"]> ∅))).
Proof. reflexivity. Qed.

Lemma lookup_ticker_leave (k : string) :
  leaveMsg QUODD k !! "data"
  = Some (VMap (<["ticker" := SStr k]> (<["action" := SStr "unsubscribe"]> ∅))).
Proof. reflexivity. Qed.

Lemma ticker_inj (a b : string) (act : string) :
  <["ticker" := SStr a]> (<["action" := SStr act]> (∅ : gmap string scalar))
  = <["ticker" := SStr b]> (<["action" := SStr act]> ∅) → a = b.
Proof.
  intros H. apply (f_equal (λ m, m !! "ticker")) in H.
  rewrite !lookup_insert_eq in H. by simplify_eq.
Qed.

(** Different channels have different join messages, different leave
    messages, and no join message is a leave message. *)
Lemma joinMsg_inj (p : provider) : validProvider p → Inj (=) (=) (joinMsg p).
Proof.
  intros [-> | ->] a b H.
  - apply parseTopic_inj.
    pose proof (lookup_topic_join a) as Ha. rewrite H, lookup_topic_join in Ha.
    congruence.
  - pose proof (lookup_ticker_join a) as Ha. rewrite H, lookup_ticker_join in Ha.
    apply (ticker_inj _ _ "subscribe"). congruence.
Qed.

Lemma leaveMsg_inj (p : provider) : validProvider p → Inj (=) (=) (leaveMsg p).
Proof.
  intros [-> | ->] a b H.
  - apply parseTopic_inj.
    pose proof (lookup_topic_leave a) as Ha. rewrite H, lookup_topic_leave in Ha.
    congruence.
  - pose proof (lookup_ticker_leave a) as Ha. rewrite H, lookup_ticker_leave in Ha.
    apply (ticker_inj _ _ "unsubscribe"). congruence.
Qed.

Lemma lookup_event_join (p : provider) (k : string) :
  validProvider p → joinMsg p k !! "event" = Some (VScalar (SStr (joinEvent p))).
Proof. intros [-> | ->]; reflexivity. Qed.

Lemma lookup_event_leave (p : provider) (k : string) :
  validProvider p → leaveMsg p k !! "event" = Some (VScalar (SStr (leaveEvent p))).
Proof. intros [-> | ->]; reflexivity. Qed.

Lemma joinMsg_leaveMsg (p : provider) (a b : string) :
  validProvider p → joinMsg p a ≠ leaveMsg p b.
Proof.
  intros Hp H. apply (f_equal (λ m, m !! "event")) in H.
  rewrite lookup_event_join, lookup_event_leave in H by done.
  destruct Hp as [-> | ->]; discriminate H.
Qed.

(** ** Running calls *)

Lemma bind_Ok {A B : Type} (m : M A) (f : A → M B) (w w1 : world) (a : A)
    (e1 : list event) :
  m w = (Ok a, w1, e1) →
  (m ≫= f) w = (let '(r, w2, e2) := f a w1 in (r, w2, e1 ++ e2)).
Proof.
  intros H. unfold mbind, M_bind, bind. rewrite H.
  destruct (f a w1) as [[r w2] e2]. reflexivity.
Qed.

Lemma bind_getCli {B : Type} (f : Client → M B) (w : world) :
  (getCli ≫= f) w = f (self w) w.
Proof.
  unfold mbind, M_bind, bind, getCli. by destruct (f (self w) w) as [[r w2] e2].
Qed.

Lemma bind_modify {B : Type} (g : Client → Client) (f : unit → M B) (w : world) :
  (modify g ≫= f) w = f tt (mkWorld (g (self w)) (ranges w) (senderUp w)).
Proof.
  unfold mbind, M_bind, bind, modify.
  by destruct (f tt _) as [[r w2] e2].
Qed.

Lemma bind_setSender {B : Type} (b : bool) (f : unit → M B) (w : world) :
  (setSender b ≫= f) w = f tt (mkWorld (self w) (ranges w) b).
Proof.
  unfold mbind, M_bind, bind, setSender.
  by destruct (f tt _) as [[r w2] e2].
Qed.

Lemma bind_lift_Ok {A B : Type} (a : A) (f : A → M B) (w : world) :
  (lift (Ok a) ≫= f) w = f a w.
Proof.
  unfold mbind, M_bind, bind, lift. by destruct (f a w) as [[r w2] e2].
Qed.

Lemma bind_lift_Panic {A B : Type} (msg : string) (f : A → M B) (w : world) :
  (lift (Panic msg) ≫= f) w = (Panic msg, w, []).
Proof. reflexivity. Qed.

Lemma bind_ret {A B : Type} (a : A) (f : A → M B) (w : world) :
  (ret a ≫= f) w = f a w.
Proof.
  unfold mbind, M_bind, bind, ret. by destruct (f a w) as [[r w2] e2].
Qed.

Lemma bind_emit {B : Type} (e : event) (f : unit → M B) (w : world) :
  (emit e ≫= f) w = (let '(r, w2, e2) := f tt w in (r, w2, e :: e2)).
Proof. reflexivity. Qed.

Lemma bind_debug_quiet {B : Type} (text : string) (f : unit → M B) (w : world) :
  DebugMode (self w) = false → (debug text ≫= f) w = f tt w.
Proof.
  intros H. unfold debug. unfold mbind at 1, M_bind at 1, bind at 1.
  rewrite bind_getCli, H. cbn. by destruct (f tt w) as [[r w2] e2].
Qed.

(** A loop whose body leaves the state as it is: the events of the
    iterations, in order. *)
Lemma forEach_events {A : Type} (l : list A) (body : A → M unit)
    (f : A → list event) (w : world) :
  (∀ x, body x w = (Ok tt, w, f x)) →
  forEach l body w = (Ok tt, w, concat (map f l)).
Proof.
  intros Hbody. induction l as [|x l IH]; [reflexivity|].
  cbn [forEach]. rewrite (bind_Ok _ _ _ _ _ _ (Hbody x)), IH. reflexivity.
Qed.

(** A loop whose body only updates the client. *)
Lemma forEach_modify {A : Type} (l : list A) (body : A → M unit)
    (g : A → Client → Client) (w : world) :
  (∀ x w', body x w' = (Ok tt, mkWorld (g x (self w')) (ranges w') (senderUp w'), [])) →
  forEach l body w
  = (Ok tt, mkWorld (foldl (λ c x, g x c) (self w) l) (ranges w) (senderUp w), []).
Proof.
  intros Hbody. revert w. induction l as [|x l IH]; intros w.
  - by destruct w.
  - cbn [forEach]. rewrite (bind_Ok _ _ _ _ _ _ (Hbody x w)), IH. reflexivity.
Qed.

Lemma concat_map_if {A B : Type} (P : A → Prop) `{!∀ x, Decision (P x)}
    (g : A → B) (l : list A) :
  concat (map (λ k, if decide (P k) then [g k] else []) l) = g <$> filter P l.
Proof.
  induction l as [|x l IH]; [reflexivity|].
  cbn [map concat]. rewrite IH, filter_cons. by destruct (decide (P x)).
Qed.

Section PassFacts.

Variable rangeOrder : nat → gmap string bool → list string.

Lemma refreshChannels_offline (w : world) :
  Connected (self w) = false →
  refreshChannels rangeOrder w = (Ok tt, w, []).
Proof.
  intros H. unfold refreshChannels, mbind, M_bind, bind, getCli.
  rewrite H. reflexivity.
Qed.

Lemma bind_rangeKeys {B : Type} (m : gmap string bool)
    (f : list string → M B) (w : world) :
  (rangeKeys rangeOrder m ≫= f) w
  = f (rangeOrder (ranges w) m) (mkWorld (self w) (S (ranges w)) (senderUp w)).
Proof.
  unfold mbind, M_bind, bind, rangeKeys. by destruct (f _ _) as [[r w2] e2].
Qed.

Lemma markAll_loop (ks : list string) (w : world) :
  forEach ks (λ k,
    modify (λ c, set_joinedChannels (<[k := true]> (joinedChannels c)) c)) w
  = (Ok tt,
     mkWorld (set_joinedChannels (markAll ks (joinedChannels (self w))) (self w))
       (ranges w) (senderUp w), []).
Proof.
  revert w. induction ks as [|k ks IH]; intros [c n up].
  - by destruct c.
  - cbn [forEach]. rewrite bind_modify, IH. reflexivity.
Qed.

Lemma refreshChannels_online (w : world) :
  online w → validProvider (provider_ (self w)) →
  refreshChannels rangeOrder w = (Ok tt, passState rangeOrder w, passEvents rangeOrder w).
Proof.
  intros (Hc & Hq & Hs) Hp. destruct w as [c n up]. cbn in Hc, Hq, Hs, Hp.
  unfold refreshChannels.
  rewrite bind_getCli. cbn [self]. rewrite Hc. cbn [negb].
  rewrite bind_rangeKeys. cbn [self ranges senderUp].
  erewrite (bind_Ok (forEach _ _)); cycle 1.
  { apply forEach_events with
      (f := λ k, if decide (absent (joinedChannels c) k)
                 then [EvSend (joinMsg (provider_ c) k)] else []).
    intros k. rewrite bind_getCli. cbn [self].
    destruct (joinedChannels c !! k) eqn:E;
      [rewrite decide_False by (unfold absent; congruence); reflexivity|].
    rewrite decide_True by done.
    rewrite makeJoinMessage_valid, bind_lift_Ok by done.
    unfold sendQ. cbn [self senderUp]. rewrite Hq, Hs. reflexivity. }
  rewrite bind_getCli, bind_rangeKeys. cbn [self ranges senderUp].
  erewrite (bind_Ok (forEach _ _)); cycle 1.
  { apply forEach_events with
      (f := λ k, if decide (absent (channels c) k)
                 then [EvSend (leaveMsg (provider_ c) k)] else []).
    intros k. rewrite bind_getCli. cbn [self].
    destruct (channels c !! k) eqn:E;
      [rewrite decide_False by (unfold absent; congruence); reflexivity|].
    rewrite decide_True by done.
    rewrite makeLeaveMessage_valid, bind_lift_Ok by done.
    unfold sendQ. cbn [self senderUp]. rewrite Hq, Hs. reflexivity. }
  rewrite bind_modify, bind_getCli, bind_rangeKeys, markAll_loop.
  rewrite !concat_map_if. cbn [app self ranges senderUp].
  rewrite !app_nil_r. reflexivity.
Qed.

(** [Join], [Leave] and [LeaveAll] update the desired set and run one
    pass. *)
Lemma Join_unfold (chs : list string) (w : world) :
  Join rangeOrder chs w
  = refreshChannels rangeOrder
      (mkWorld (set_channels (joinAll chs (channels (self w))) (self w))
         (ranges w) (senderUp w)).
Proof.
  unfold Join.
  pose (g := λ (channel : string) (cl : Client),
          match channels cl !! TrimSpace channel with
          | None => set_channels (<[TrimSpace channel := true]> (channels cl)) cl
          | Some _ => cl
          end).
  assert (Hfold : ∀ c, foldl (λ c x, g x c) c chs
                       = set_channels (joinAll chs (channels c)) c).
  { unfold joinAll. induction chs as [|ch chs IH]; intros c; cbn [foldl].
    - by destruct c.
    - rewrite IH. unfold g.
      destruct (channels c !! TrimSpace ch); [reflexivity | by destruct c]. }
  erewrite bind_Ok; cycle 1.
  { apply forEach_modify with (g := g). intros ch [c n up]. cbv zeta.
    rewrite bind_getCli. cbn [self]. unfold g.
    by destruct (channels c !! TrimSpace ch). }
  rewrite Hfold. by destruct (refreshChannels _ _) as [[r w2] e2].
Qed.

Lemma Leave_unfold (chs : list string) (w : world) :
  Leave rangeOrder chs w
  = refreshChannels rangeOrder
      (mkWorld (set_channels (leaveEach chs (channels (self w))) (self w))
         (ranges w) (senderUp w)).
Proof.
  unfold Leave.
  pose (g := λ (channel : string) (cl : Client),
          set_channels (delete (TrimSpace channel) (channels cl)) cl).
  assert (Hfold : ∀ c, foldl (λ c x, g x c) c chs
                       = set_channels (leaveEach chs (channels c)) c).
  { unfold leaveEach. induction chs as [|ch chs IH]; intros c; cbn [foldl].
    - by destruct c.
    - rewrite IH. by destruct c. }
  erewrite bind_Ok; cycle 1.
  { apply forEach_modify with (g := g). reflexivity. }
  rewrite Hfold. by destruct (refreshChannels _ _) as [[r w2] e2].
Qed.

Lemma LeaveAll_unfold (w : world) :
  LeaveAll rangeOrder w
  = refreshChannels rangeOrder
      (mkWorld (set_channels ∅ (self w)) (ranges w) (senderUp w)).
Proof. unfold LeaveAll. by rewrite bind_modify. Qed.

(** *** What the order of a [range] loop cannot change *)

Hypothesis rangeOrder_perm :
  ∀ n (m : gmap string bool), rangeOrder n m ≡ₚ (map_to_list m).*1.

Lemma rangeOrder_NoDup (n : nat) (m : gmap string bool) : NoDup (rangeOrder n m).
Proof. rewrite rangeOrder_perm. apply NoDup_fst_map_to_list. Qed.

Lemma rangeOrder_elem (n : nat) (m : gmap string bool) (k : string) :
  k ∈ rangeOrder n m ↔ k ∈ dom m.
Proof.
  rewrite rangeOrder_perm, elem_of_dom, list_elem_of_fmap. split.
  - intros [[k' v] [-> H]]. apply elem_of_map_to_list in H. by exists v.
  - intros [v H]. exists (k, v). split; [done|]. by apply elem_of_map_to_list.
Qed.

Lemma filter_absent_elem (n : nat) (m m' : gmap string bool) (k : string) :
  k ∈ filter (absent m') (rangeOrder n m) ↔ k ∈ dom m ∖ dom m'.
Proof.
  rewrite list_elem_of_filter, rangeOrder_elem, elem_of_difference,
    not_elem_of_dom. unfold absent. tauto.
Qed.

Lemma filter_absent_perm (n : nat) (m m' : gmap string bool) :
  filter (absent m') (rangeOrder n m) ≡ₚ elements (dom m ∖ dom m').
Proof.
  apply NoDup_Permutation.
  - apply NoDup_filter, rangeOrder_NoDup.
  - apply NoDup_elements.
  - intros k. rewrite filter_absent_elem. by rewrite elem_of_elements.
Qed.

Lemma markAll_lookup (ks : list string) (J : gmap string bool) (k : string) :
  markAll ks J !! k = if decide (k ∈ ks) then Some true else J !! k.
Proof.
  unfold markAll. revert J. induction ks as [|k0 ks IH]; intros J; cbn [foldl].
  - reflexivity.
  - rewrite IH. destruct (decide (k = k0)) as [->|Hne].
    + rewrite lookup_insert_eq.
      rewrite (decide_True (P := k0 ∈ k0 :: ks)) by apply list_elem_of_here.
      by case_decide.
    + rewrite lookup_insert_ne by done.
      destruct (decide (k ∈ ks)).
      * by rewrite decide_True by (by apply list_elem_of_further).
      * rewrite decide_False; [done|]. rewrite elem_of_cons. tauto.
Qed.

Lemma markAll_range (n : nat) (D : gmap string bool) :
  markAll (rangeOrder n D) ∅ = (λ _, true) <$> D.
Proof.
  apply map_eq. intros k. rewrite markAll_lookup, lookup_fmap, lookup_empty.
  case_decide as H; rewrite rangeOrder_elem, elem_of_dom in H.
  - destruct H as [v ->]. reflexivity.
  - destruct (D !! k) eqn:E; [|reflexivity]. destruct H. by eexists.
Qed.

Lemma passState_joined (w : world) :
  joinedChannels (self (passState rangeOrder w)) = (λ _, true) <$> channels (self w).
Proof. unfold passState. cbn. apply markAll_range. Qed.

Lemma passState_dom (w : world) :
  dom (joinedChannels (self (passState rangeOrder w))) = dom (channels (self w)).
Proof. rewrite passState_joined. apply dom_fmap_L. Qed.

End PassFacts.

Section Reconciliation.

Variable rangeOrder : nat → gmap string bool → list string.

Hypothesis rangeOrder_perm :
  ∀ n (m : gmap string bool), rangeOrder n m ≡ₚ (map_to_list m).*1.

Lemma Forall2_sends_join (p : provider) (ks : list string) :
  validProvider p →
  Forall2 (sends (makeJoinMessage p)) ks ((λ k, EvSend (joinMsg p k)) <$> ks).
Proof.
  intros Hp. induction ks as [|k ks IH]; constructor; [|done].
  exists (joinMsg p k). by rewrite makeJoinMessage_valid.
Qed.

Lemma Forall2_sends_leave (p : provider) (ks : list string) :
  validProvider p →
  Forall2 (sends (makeLeaveMessage p)) ks ((λ k, EvSend (leaveMsg p k)) <$> ks).
Proof.
  intros Hp. induction ks as [|k ks IH]; constructor; [|done].
  exists (leaveMsg p k). by rewrite makeLeaveMessage_valid.
Qed.

(** C1.  One pass of [refreshChannels] on a working connection, with
    desired set [D] and joined set [J]: the events are the sends of the
    join messages of the channels [js], then the sends of the leave
    messages of the channels [ls], where [js] lists each channel of
    [D ∖ J] once and [ls] each channel of [J ∖ D] once; afterwards the
    joined set is [D] and nothing else of the client has changed. *)
Theorem refreshChannels_reconciles (w : world) :
  online w → validProvider (provider_ (self w)) →
  ∃ js ls evJ evL w',
    refreshChannels rangeOrder w = (Ok tt, w', evJ ++ evL)
    ∧ js ≡ₚ elements (dom (channels (self w)) ∖ dom (joinedChannels (self w)))
    ∧ Forall2 (sends (makeJoinMessage (provider_ (self w)))) js evJ
    ∧ ls ≡ₚ elements (dom (joinedChannels (self w)) ∖ dom (channels (self w)))
    ∧ Forall2 (sends (makeLeaveMessage (provider_ (self w)))) ls evL
    ∧ dom (joinedChannels (self w')) = dom (channels (self w))
    ∧ self w' = set_joinedChannels ((λ _, true) <$> channels (self w)) (self w).
Proof.
  intros Hon Hp.
  exists (passJoins rangeOrder w), (passLeaves rangeOrder w),
    ((λ k, EvSend (joinMsg (provider_ (self w)) k)) <$> passJoins rangeOrder w),
    ((λ k, EvSend (leaveMsg (provider_ (self w)) k)) <$> passLeaves rangeOrder w),
    (passState rangeOrder w).
  split; [by apply refreshChannels_online|].
  split; [by apply filter_absent_perm|].
  split; [by apply Forall2_sends_join|].
  split; [by apply filter_absent_perm|].
  split; [by apply Forall2_sends_leave|].
  split; [by apply passState_dom|].
  unfold passState. cbn [self]. by rewrite markAll_range.
Qed.

End Reconciliation.

(** ** One pass on a concrete client *)

Lemma keyOrder_perm (n : nat) (m : gmap string bool) :
  keyOrder n m ≡ₚ (map_to_list m).*1.
Proof. reflexivity. Qed.

Lemma refreshChannels_reconciles_witness :
  online demoWorld ∧ validProvider (provider_ (self demoWorld))
  ∧ ∃ w' evs,
      refreshChannels keyOrder demoWorld = (Ok tt, w', evs)
      ∧ dom (joinedChannels (self w')) = dom (channels (self demoWorld)).
Proof.
  assert (Hon : online demoWorld) by (repeat split; reflexivity).
  assert (Hp : validProvider (provider_ (self demoWorld))) by (left; reflexivity).
  split; [exact Hon|]. split; [exact Hp|].
  destruct (refreshChannels_reconciles keyOrder keyOrder_perm demoWorld Hon Hp)
    as (js & ls & evJ & evL & w' & Hrun & _ & _ & _ & _ & Hdom & _).
  exists w', (evJ ++ evL). split; [exact Hrun | exact Hdom].
Defined.

(** ** Sequences of calls *)

Lemma joinAll_dom (chs : list string) (D : gmap string bool) :
  dom (joinAll chs D) = list_to_set (TrimSpace <$> chs) ∪ dom D.
Proof.
  unfold joinAll. revert D. induction chs as [|ch chs IH]; intros D; cbn [foldl].
  - cbn. by rewrite (left_id_L ∅ (∪)).
  - rewrite IH. cbn [fmap list_fmap list_to_set foldr].
    destruct (D !! TrimSpace ch) eqn:E.
    + assert (TrimSpace ch ∈ dom D) by (apply elem_of_dom; by eexists).
      apply set_eq. intros x. rewrite !elem_of_union, elem_of_singleton.
      split; [tauto|]. intros [[->|?]|?]; tauto.
    + rewrite dom_insert_L.
      apply set_eq. intros x. rewrite !elem_of_union, elem_of_singleton. tauto.
Qed.

Lemma leaveEach_dom (chs : list string) (D : gmap string bool) :
  dom (leaveEach chs D) = dom D ∖ list_to_set (TrimSpace <$> chs).
Proof.
  unfold leaveEach. revert D. induction chs as [|ch chs IH]; intros D; cbn [foldl].
  - cbn. apply set_eq. intros x. rewrite elem_of_difference, elem_of_empty. tauto.
  - rewrite IH, dom_delete_L. cbn [fmap list_fmap list_to_set foldr].
    apply set_eq. intros x.
    rewrite !elem_of_difference, elem_of_union, elem_of_singleton. tauto.
Qed.

Section CallFacts.

Variable rangeOrder : nat → gmap string bool → list string.

Lemma perform_unfold (k : call) (w : world) :
  perform rangeOrder k w = refreshChannels rangeOrder (intended k w).
Proof.
  destruct k; [apply Join_unfold | apply Leave_unfold | apply LeaveAll_unfold].
Qed.

Lemma intended_online (k : call) (w : world) : online w → online (intended k w).
Proof. by destruct w as [[] ? ?]. Qed.

Lemma passState_online (w : world) : online w → online (passState rangeOrder w).
Proof. by destruct w as [[] ? ?]. Qed.

Lemma perform_online (k : call) (w : world) :
  online w → validProvider (provider_ (self w)) →
  perform rangeOrder k w
  = (Ok tt, passState rangeOrder (intended k w), passEvents rangeOrder (intended k w)).
Proof.
  intros Hon Hp. rewrite perform_unfold.
  apply refreshChannels_online; [by apply intended_online|].
  by destruct w as [[] ? ?].
Qed.

Lemma perform_offline (k : call) (w : world) :
  Connected (self w) = false → perform rangeOrder k w = (Ok tt, intended k w, []).
Proof.
  intros H. rewrite perform_unfold. apply refreshChannels_offline.
  by destruct w as [[] ? ?].
Qed.

Lemma isJoin_join (p : provider) (k k' : string) :
  validProvider p → isJoin p k (EvSend (joinMsg p k')) = bool_decide (k = k').
Proof.
  intros Hp. unfold isJoin, isSend. rewrite makeJoinMessage_valid by done.
  apply bool_decide_ext. split; [|by intros ->].
  intros H. symmetry. apply (joinMsg_inj p Hp). congruence.
Qed.

Lemma isJoin_leave (p : provider) (k k' : string) :
  validProvider p → isJoin p k (EvSend (leaveMsg p k')) = false.
Proof.
  intros Hp. unfold isJoin, isSend. rewrite makeJoinMessage_valid by done.
  apply bool_decide_eq_false. intros H.
  apply (joinMsg_leaveMsg p k k' Hp). congruence.
Qed.

Lemma isLeave_leave (p : provider) (k k' : string) :
  validProvider p → isLeave p k (EvSend (leaveMsg p k')) = bool_decide (k = k').
Proof.
  intros Hp. unfold isLeave, isSend. rewrite makeLeaveMessage_valid by done.
  apply bool_decide_ext. split; [|by intros ->].
  intros H. symmetry. apply (leaveMsg_inj p Hp). congruence.
Qed.

Lemma isLeave_join (p : provider) (k k' : string) :
  validProvider p → isLeave p k (EvSend (joinMsg p k')) = false.
Proof.
  intros Hp. unfold isLeave, isSend. rewrite makeLeaveMessage_valid by done.
  apply bool_decide_eq_false. intros H.
  apply (joinMsg_leaveMsg p k' k Hp). congruence.
Qed.

Lemma outstanding_app (p : provider) (k : string) (b : bool) (t1 t2 : list event) :
  outstanding p k b (t1 ++ t2) = outstanding p k (outstanding p k b t1) t2.
Proof. apply foldl_app. Qed.

Lemma outstanding_joins (p : provider) (k : string) (b : bool) (js : list string) :
  validProvider p →
  outstanding p k b ((λ k', EvSend (joinMsg p k')) <$> js)
  = b || bool_decide (k ∈ js).
Proof.
  intros Hp. unfold outstanding. revert b.
  induction js as [|j js IH]; intros b; cbn [fmap list_fmap foldl].
  - rewrite bool_decide_eq_false_2 by apply not_elem_of_nil. by destruct b.
  - rewrite IH, isJoin_join, isLeave_join by done.
    destruct (decide (k = j)) as [->|Hne].
    + rewrite (bool_decide_eq_true_2 (j = j)) by done.
      rewrite (bool_decide_eq_true_2 (j ∈ j :: js)) by apply list_elem_of_here.
      by destruct b.
    + rewrite (bool_decide_eq_false_2 (k = j)) by done.
      f_equal. apply bool_decide_ext. rewrite elem_of_cons. tauto.
Qed.

Lemma outstanding_leaves (p : provider) (k : string) (b : bool) (ls : list string) :
  validProvider p →
  outstanding p k b ((λ k', EvSend (leaveMsg p k')) <$> ls)
  = b && negb (bool_decide (k ∈ ls)).
Proof.
  intros Hp. unfold outstanding. revert b.
  induction ls as [|l ls IH]; intros b; cbn [fmap list_fmap foldl].
  - rewrite bool_decide_eq_false_2 by apply not_elem_of_nil. by destruct b.
  - rewrite IH, isJoin_leave, isLeave_leave by done.
    destruct (decide (k = l)) as [->|Hne].
    + rewrite (bool_decide_eq_true_2 (l = l)) by done.
      rewrite (bool_decide_eq_true_2 (l ∈ l :: ls)) by apply list_elem_of_here.
      cbn. by rewrite andb_false_r.
    + rewrite (bool_decide_eq_false_2 (k = l)) by done.
      f_equal. f_equal. apply bool_decide_ext. rewrite elem_of_cons. tauto.
Qed.

Hypothesis rangeOrder_perm :
  ∀ n (m : gmap string bool), rangeOrder n m ≡ₚ (map_to_list m).*1.

Lemma bool_decide_difference (X Y : gset string) (k : string) :
  bool_decide (k ∈ X ∖ Y) = bool_decide (k ∈ X) && negb (bool_decide (k ∈ Y)).
Proof.
  rewrite <- bool_decide_not, <- bool_decide_and.
  apply bool_decide_ext, elem_of_difference.
Qed.

(** After one pass the channels with an outstanding join are the desired
    ones. *)
Lemma outstanding_pass (w : world) (k : string) :
  validProvider (provider_ (self w)) →
  outstanding (provider_ (self w)) k
    (bool_decide (k ∈ dom (joinedChannels (self w)))) (passEvents rangeOrder w)
  = bool_decide (k ∈ dom (channels (self w))).
Proof.
  intros Hp. unfold passEvents, passJoins, passLeaves.
  rewrite outstanding_app, outstanding_joins, outstanding_leaves by done.
  rewrite (bool_decide_ext _ _ (filter_absent_elem rangeOrder rangeOrder_perm _ _ _ k)).
  rewrite (bool_decide_ext _ _ (filter_absent_elem rangeOrder rangeOrder_perm _ _ _ k)).
  rewrite !bool_decide_difference.
  by destruct (bool_decide (k ∈ dom (channels (self w)))),
              (bool_decide (k ∈ dom (joinedChannels (self w)))).
Qed.

Lemma performAll_nil (w : world) : performAll rangeOrder [] w = (Ok tt, w, []).
Proof. reflexivity. Qed.

Lemma performAll_cons (k : call) (ks : list call) (w w1 : world) (e1 : list event) :
  perform rangeOrder k w = (Ok tt, w1, e1) →
  performAll rangeOrder (k :: ks) w
  = (let '(r, w2, e2) := performAll rangeOrder ks w1 in (r, w2, e1 ++ e2)).
Proof.
  intros H.
  exact (bind_Ok (perform rangeOrder k) (λ _, forEach ks (perform rangeOrder))
           w w1 tt e1 H).
Qed.

(** A sequence of calls on a working connection runs to its end; the
    joined set follows the outstanding joins, and after the first call it
    is the desired set. *)
Lemma performAll_online (ks : list call) (w : world) :
  online w → validProvider (provider_ (self w)) →
  ∃ w' tr,
    performAll rangeOrder ks w = (Ok tt, w', tr)
    ∧ online w'
    ∧ provider_ (self w') = provider_ (self w)
    ∧ channels (self w') = foldl (λ D k, intend k D) (channels (self w)) ks
    ∧ (ks ≠ [] → dom (joinedChannels (self w')) = dom (channels (self w')))
    ∧ ∀ k, outstanding (provider_ (self w)) k
             (bool_decide (k ∈ dom (joinedChannels (self w)))) tr
           = bool_decide (k ∈ dom (joinedChannels (self w'))).
Proof.
  revert w. induction ks as [|c ks IH]; intros w Hon Hp.
  - exists w, []. split; [reflexivity|]. split; [exact Hon|].
    split; [reflexivity|]. split; [reflexivity|].
    split; [intros H; by destruct H | reflexivity].
  - pose proof (perform_online c w Hon Hp) as Hc.
    set (w0 := intended c w) in *.
    assert (Hp0 : provider_ (self w0) = provider_ (self w))
      by (by destruct w as [[] ? ?]).
    assert (HJ0 : joinedChannels (self w0) = joinedChannels (self w))
      by (by destruct w as [[] ? ?]).
    assert (HD0 : channels (self w0) = intend c (channels (self w)))
      by (by destruct w as [[] ? ?]).
    set (w1 := passState rangeOrder w0) in *.
    assert (Hp1 : provider_ (self w1) = provider_ (self w))
      by (by destruct w as [[] ? ?]).
    assert (HD1 : channels (self w1) = intend c (channels (self w)))
      by (by destruct w as [[] ? ?]).
    assert (HJ1 : dom (joinedChannels (self w1)) = dom (channels (self w1))).
    { rewrite HD1, <- HD0. by apply passState_dom. }
    destruct (IH w1) as (w' & tr & Hrun & Hon' & Hp' & HD' & HJ' & Hout).
    { by apply passState_online, intended_online. }
    { by rewrite Hp1. }
    exists w', (passEvents rangeOrder w0 ++ tr).
    split; [by rewrite (performAll_cons _ _ _ _ _ Hc), Hrun|].
    split; [done|]. split; [congruence|].
    split; [by rewrite HD', HD1|].
    split.
    { intros _. destruct ks as [|c' ks]; [|by apply HJ'].
      assert (w' = w1) as -> by (rewrite performAll_nil in Hrun; congruence).
      exact HJ1. }
    intros k. rewrite outstanding_app, <- Hp0, <- HJ0.
    rewrite outstanding_pass by (by rewrite Hp0).
    rewrite Hp0, <- Hp1, <- (passState_dom rangeOrder rangeOrder_perm w0).
    apply Hout.
Qed.

(** C2.  On a working connection, after any sequence of [Join], [Leave]
    and [LeaveAll] calls, each of which runs its reconciliation pass, the
    channels with an outstanding join message (a join sent and no leave
    sent after it) are the channels of the final desired set.  The joins
    outstanding before the sequence are those of the joined set; when no
    call is made, the two sets have to agree from the start. *)
Theorem performAll_converges (ks : list call) (w : world) :
  online w → validProvider (provider_ (self w)) →
  ks ≠ [] ∨ dom (joinedChannels (self w)) = dom (channels (self w)) →
  ∃ w' tr,
    performAll rangeOrder ks w = (Ok tt, w', tr)
    ∧ channels (self w') = foldl (λ D k, intend k D) (channels (self w)) ks
    ∧ ∀ k, outstanding (provider_ (self w)) k
             (bool_decide (k ∈ dom (joinedChannels (self w)))) tr
           = bool_decide (k ∈ dom (channels (self w'))).
Proof.
  intros Hon Hp Hstart.
  destruct (performAll_online ks w Hon Hp)
    as (w' & tr & Hrun & _ & _ & HD & HJ & Hout).
  exists w', tr. split; [done|]. split; [done|].
  intros k. rewrite Hout.
  destruct ks as [|c ks].
  - destruct Hstart as [[] | Hstart]; [done|].
    assert (w' = w) as -> by (rewrite performAll_nil in Hrun; congruence).
    by rewrite Hstart.
  - by rewrite HJ.
Qed.

(** *** Counting the messages of one channel *)

Lemma countJoins_app (p : provider) (k : string) (t1 t2 : list event) :
  countJoins p k (t1 ++ t2) = countJoins p k t1 + countJoins p k t2.
Proof. unfold countJoins. by rewrite filter_app, length_app. Qed.

Lemma countLeaves_app (p : provider) (k : string) (t1 t2 : list event) :
  countLeaves p k (t1 ++ t2) = countLeaves p k t1 + countLeaves p k t2.
Proof. unfold countLeaves. by rewrite filter_app, length_app. Qed.

Lemma countJoins_joins (p : provider) (k : string) (js : list string) :
  validProvider p → NoDup js →
  countJoins p k ((λ k', EvSend (joinMsg p k')) <$> js)
  = if decide (k ∈ js) then 1 else 0.
Proof.
  intros Hp Hnd. unfold countJoins.
  induction Hnd as [|j js Hj Hnd IH]; [reflexivity|].
  cbn [fmap list_fmap]. rewrite filter_cons, isJoin_join by done.
  destruct (decide (k = j)) as [->|Hne].
  - rewrite bool_decide_eq_true_2 by done.
    rewrite decide_True by done. cbn [length]. rewrite IH.
    rewrite decide_False by done.
    by rewrite decide_True by apply list_elem_of_here.
  - rewrite bool_decide_eq_false_2 by done.
    rewrite decide_False by done. rewrite IH.
    destruct (decide (k ∈ js)).
    + by rewrite decide_True by (by apply list_elem_of_further).
    + rewrite decide_False; [done|]. rewrite elem_of_cons. tauto.
Qed.

Lemma countJoins_leaves (p : provider) (k : string) (ls : list string) :
  validProvider p →
  countJoins p k ((λ k', EvSend (leaveMsg p k')) <$> ls) = 0.
Proof.
  intros Hp. unfold countJoins. induction ls as [|l ls IH]; [reflexivity|].
  cbn [fmap list_fmap]. rewrite filter_cons, isJoin_leave by done.
  by rewrite decide_False by done.
Qed.

Lemma countLeaves_leaves (p : provider) (k : string) (ls : list string) :
  validProvider p → NoDup ls →
  countLeaves p k ((λ k', EvSend (leaveMsg p k')) <$> ls)
  = if decide (k ∈ ls) then 1 else 0.
Proof.
  intros Hp Hnd. unfold countLeaves.
  induction Hnd as [|l ls Hl Hnd IH]; [reflexivity|].
  cbn [fmap list_fmap]. rewrite filter_cons, isLeave_leave by done.
  destruct (decide (k = l)) as [->|Hne].
  - rewrite bool_decide_eq_true_2 by done.
    rewrite decide_True by done. cbn [length]. rewrite IH.
    rewrite decide_False by done.
    by rewrite decide_True by apply list_elem_of_here.
  - rewrite bool_decide_eq_false_2 by done.
    rewrite decide_False by done. rewrite IH.
    destruct (decide (k ∈ ls)).
    + by rewrite decide_True by (by apply list_elem_of_further).
    + rewrite decide_False; [done|]. rewrite elem_of_cons. tauto.
Qed.

Lemma countLeaves_joins (p : provider) (k : string) (js : list string) :
  validProvider p →
  countLeaves p k ((λ k', EvSend (joinMsg p k')) <$> js) = 0.
Proof.
  intros Hp. unfold countLeaves. induction js as [|j js IH]; [reflexivity|].
  cbn [fmap list_fmap]. rewrite filter_cons, isLeave_join by done.
  by rewrite decide_False by done.
Qed.

(** One pass sends a join message for [k] once when [k] is desired and
    not joined, and a leave message once when it is joined and not
    desired; otherwise none. *)
Lemma countJoins_pass (w : world) (k : string) :
  validProvider (provider_ (self w)) →
  countJoins (provider_ (self w)) k (passEvents rangeOrder w)
  = if decide (k ∈ dom (channels (self w)) ∖ dom (joinedChannels (self w)))
    then 1 else 0.
Proof.
  intros Hp. unfold passEvents.
  rewrite countJoins_app, countJoins_joins, countJoins_leaves;
    [|done|done|by apply NoDup_filter, rangeOrder_NoDup].
  rewrite Nat.add_0_r. apply decide_ext. by apply filter_absent_elem.
Qed.

Lemma countLeaves_pass (w : world) (k : string) :
  validProvider (provider_ (self w)) →
  countLeaves (provider_ (self w)) k (passEvents rangeOrder w)
  = if decide (k ∈ dom (joinedChannels (self w)) ∖ dom (channels (self w)))
    then 1 else 0.
Proof.
  intros Hp. unfold passEvents.
  rewrite countLeaves_app, countLeaves_joins, countLeaves_leaves;
    [|done|by apply NoDup_filter, rangeOrder_NoDup|done].
  cbn [Nat.add]. apply decide_ext. by apply filter_absent_elem.
Qed.

(** *** Repeated [Join] *)

Lemma joinAll_one_elem (c : string) (D : gmap string bool) :
  TrimSpace c ∈ dom (joinAll [c] D).
Proof.
  rewrite joinAll_dom. cbn. rewrite !elem_of_union, elem_of_singleton. tauto.
Qed.

Lemma leaveEach_one_elem (c : string) (D : gmap string bool) :
  TrimSpace c ∉ dom (leaveEach [c] D).
Proof.
  rewrite leaveEach_dom. cbn.
  rewrite elem_of_difference, elem_of_union, elem_of_singleton. tauto.
Qed.

(** One call on a working connection, seen from one channel. *)
Lemma perform_counts (c : call) (w : world) (k : string) :
  online w → validProvider (provider_ (self w)) →
  ∃ w' tr,
    perform rangeOrder c w = (Ok tt, w', tr)
    ∧ online w'
    ∧ provider_ (self w') = provider_ (self w)
    ∧ channels (self w') = intend c (channels (self w))
    ∧ dom (joinedChannels (self w')) = dom (intend c (channels (self w)))
    ∧ countJoins (provider_ (self w)) k tr
      = (if decide (k ∈ dom (intend c (channels (self w)))
                      ∖ dom (joinedChannels (self w))) then 1 else 0)
    ∧ countLeaves (provider_ (self w)) k tr
      = (if decide (k ∈ dom (joinedChannels (self w))
                      ∖ dom (intend c (channels (self w)))) then 1 else 0).
Proof.
  intros Hon Hp.
  exists (passState rangeOrder (intended c w)), (passEvents rangeOrder (intended c w)).
  assert (Hp0 : provider_ (self (intended c w)) = provider_ (self w))
    by (by destruct w as [[] ? ?]).
  assert (HJ0 : joinedChannels (self (intended c w)) = joinedChannels (self w))
    by (by destruct w as [[] ? ?]).
  assert (HD0 : channels (self (intended c w)) = intend c (channels (self w)))
    by (by destruct w as [[] ? ?]).
  split; [by apply perform_online|].
  split; [by apply passState_online, intended_online|].
  split; [by destruct w as [[] ? ?]|].
  split; [by destruct w as [[] ? ?]|].
  split; [by rewrite passState_dom, HD0|].
  split.
  - rewrite <- Hp0, countJoins_pass by (by rewrite Hp0). by rewrite HD0, HJ0.
  - rewrite <- Hp0, countLeaves_pass by (by rewrite Hp0). by rewrite HD0, HJ0.
Qed.

Lemma Join_again (c : string) (n : nat) (w : world) :
  online w → validProvider (provider_ (self w)) →
  TrimSpace c ∈ dom (joinedChannels (self w)) →
  ∃ w' tr,
    performAll rangeOrder (replicate n (CJoin [c])) w = (Ok tt, w', tr)
    ∧ online w'
    ∧ provider_ (self w') = provider_ (self w)
    ∧ TrimSpace c ∈ dom (joinedChannels (self w'))
    ∧ countJoins (provider_ (self w)) (TrimSpace c) tr = 0
    ∧ countLeaves (provider_ (self w)) (TrimSpace c) tr = 0.
Proof.
  revert w. induction n as [|n IH]; intros w Hon Hp HJ.
  - exists w, []. by rewrite performAll_nil.
  - destruct (perform_counts (CJoin [c]) w (TrimSpace c) Hon Hp)
      as (w1 & t1 & Hrun1 & Hon1 & Hp1 & HD1 & HJ1 & Hcj & Hcl).
    destruct (IH w1) as (w' & tr & Hrun & Hon' & Hp' & HJ' & Hcj' & Hcl').
    { done. } { by rewrite Hp1. }
    { rewrite HJ1. apply joinAll_one_elem. }
    exists w', (t1 ++ tr). cbn [replicate].
    rewrite (performAll_cons _ _ _ _ _ Hrun1), Hrun.
    split; [done|]. split; [done|]. split; [congruence|]. split; [done|].
    rewrite countJoins_app, countLeaves_app, Hcj, Hcl, <- Hp1, Hcj', Hcl'.
    rewrite !decide_False; [done| |].
    + rewrite elem_of_difference. intros [_ H]. apply H, joinAll_one_elem.
    + rewrite elem_of_difference. tauto.
Qed.

(** C3.  On a working connection, [Join(c)] called [n ≥ 1] times in a row
    sends no join message for [c] when [c] is already joined and exactly
    one when it is not, whatever [n], and no leave message; the [Leave(c)]
    that follows sends exactly one leave message for [c] and no join
    message.  The channel is [c] as trimmed by [Join]. *)
Theorem Join_repeated_once (c : string) (n : nat) (w : world) :
  online w → validProvider (provider_ (self w)) → (1 ≤ n)%nat →
  ∃ w1 tr1 w2 tr2,
    performAll rangeOrder (replicate n (CJoin [c])) w = (Ok tt, w1, tr1)
    ∧ Leave rangeOrder [c] w1 = (Ok tt, w2, tr2)
    ∧ countJoins (provider_ (self w)) (TrimSpace c) tr1
      = (if decide (TrimSpace c ∈ dom (joinedChannels (self w))) then 0 else 1)
    ∧ countLeaves (provider_ (self w)) (TrimSpace c) tr1 = 0
    ∧ countJoins (provider_ (self w)) (TrimSpace c) tr2 = 0
    ∧ countLeaves (provider_ (self w)) (TrimSpace c) tr2 = 1
    ∧ TrimSpace c ∈ dom (channels (self w1))
    ∧ TrimSpace c ∉ dom (channels (self w2)).
Proof.
  intros Hon Hp Hn. destruct n as [|n]; [lia|].
  destruct (perform_counts (CJoin [c]) w (TrimSpace c) Hon Hp)
    as (wa & ta & Hruna & Hona & Hpa & HDa & HJa & Hcja & Hcla).
  destruct (Join_again c n wa) as (w1 & tb & Hrunb & Hon1 & Hp1 & HJ1 & Hcjb & Hclb).
  { done. } { by rewrite Hpa. }
  { rewrite HJa. apply joinAll_one_elem. }
  rewrite Hpa in Hp1, Hcjb, Hclb.
  destruct (perform_counts (CLeave [c]) w1 (TrimSpace c) Hon1)
    as (w2 & tr2 & Hrun2 & _ & _ & HD2 & _ & Hcj2 & Hcl2).
  { by rewrite Hp1. }
  rewrite Hp1 in Hcj2, Hcl2.
  assert (HD1 : TrimSpace c ∈ dom (channels (self w1))).
  { destruct (performAll_online (replicate n (CJoin [c])) wa Hona)
      as (w1' & tb' & Hrunb' & _ & _ & HD1 & _ & _); [by rewrite Hpa|].
    assert (w1' = w1) as -> by congruence. rewrite HD1, HDa.
    clear. cbn [intend]. generalize (joinAll_one_elem c (channels (self w))).
    generalize (joinAll [c] (channels (self w))). intros D HD.
    induction n as [|n IH] in D, HD |- *; [exact HD|].
    cbn [replicate foldl]. apply IH. cbn [intend]. apply joinAll_one_elem. }
  exists w1, (ta ++ tb), w2, tr2. cbn [replicate].
  rewrite (performAll_cons _ _ _ _ _ Hruna), Hrunb.
  split; [done|]. split; [exact Hrun2|].
  rewrite countJoins_app, countLeaves_app, Hcja, Hcla, Hcjb, Hclb, Hcj2, Hcl2.
  pose proof (joinAll_one_elem c (channels (self w))) as Hin.
  pose proof (leaveEach_one_elem c (channels (self w1))) as Hout.
  cbn [intend] in *.
  split.
  { destruct (decide (TrimSpace c ∈ dom (joinedChannels (self w)))).
    - rewrite decide_False; [done|]. rewrite elem_of_difference. tauto.
    - rewrite decide_True; [done|]. by rewrite elem_of_difference. }
  split.
  { rewrite decide_False; [done|]. rewrite elem_of_difference. tauto. }
  split.
  { rewrite decide_False; [done|]. rewrite elem_of_difference. tauto. }
  split.
  { rewrite decide_True; [done|]. by rewrite elem_of_difference. }
  split; [done|]. by rewrite HD2.
Qed.

End CallFacts.

(** ** Reasoning about calls that may panic or block *)

Lemma triple_weaken {A : Type} (P P' : world → Prop) (m : M A)
    (Q Q' : A → world → Prop) (E : event → Prop) :
  triple P' m Q' E → (∀ w, P w → P' w) → (∀ a w, Q' a w → Q a w) →
  triple P m Q E.
Proof.
  intros H HP HQ w Hw. specialize (H w (HP w Hw)).
  destruct (m w) as [[[a| |] w'] tr]; [|done..].
  destruct H. split; [by apply HQ | done].
Qed.

Lemma triple_ret {A : Type} (P : world → Prop) (a : A) (Q : A → world → Prop)
    (E : event → Prop) :
  (∀ w, P w → Q a w) → triple P (ret a) Q E.
Proof. intros H w Hw. cbn. split; [by apply H | constructor]. Qed.

Lemma triple_bind {A B : Type} (P : world → Prop) (m : M A) (R : A → world → Prop)
    (f : A → M B) (Q : B → world → Prop) (E : event → Prop) :
  triple P m R E → (∀ a, triple (R a) (f a) Q E) → triple P (m ≫= f) Q E.
Proof.
  intros Hm Hf w Hw. specialize (Hm w Hw).
  unfold mbind, M_bind, bind.
  destruct (m w) as [[[a| |] w1] e1]; [|done..].
  destruct Hm as [HR He1]. specialize (Hf a w1 HR).
  destruct (f a w1) as [[[b| |] w2] e2].
  - destruct Hf. split; [done | by apply Forall_app].
  - by apply Forall_app.
  - by apply Forall_app.
Qed.

Lemma triple_getCli (P : world → Prop) (Q : Client → world → Prop)
    (E : event → Prop) :
  (∀ w, P w → Q (self w) w) → triple P getCli Q E.
Proof. intros H w Hw. cbn. split; [by apply H | constructor]. Qed.

Lemma triple_modify (P : world → Prop) (g : Client → Client)
    (Q : unit → world → Prop) (E : event → Prop) :
  (∀ w, P w → Q tt (mkWorld (g (self w)) (ranges w) (senderUp w))) →
  triple P (modify g) Q E.
Proof. intros H w Hw. cbn. split; [by apply H | constructor]. Qed.

Lemma triple_setSender (P : world → Prop) (b : bool)
    (Q : unit → world → Prop) (E : event → Prop) :
  (∀ w, P w → Q tt (mkWorld (self w) (ranges w) b)) →
  triple P (setSender b) Q E.
Proof. intros H w Hw. cbn. split; [by apply H | constructor]. Qed.

Lemma triple_emit (P : world → Prop) (e : event) (Q : unit → world → Prop)
    (E : event → Prop) :
  E e → (∀ w, P w → Q tt w) → triple P (emit e) Q E.
Proof. intros He H w Hw. cbn. split; [by apply H | by repeat constructor]. Qed.

Lemma triple_lift {A : Type} (P : world → Prop) (o : outcome A)
    (Q : A → world → Prop) (E : event → Prop) :
  (∀ a w, o = Ok a → P w → Q a w) → triple P (lift o) Q E.
Proof.
  intros H w Hw. unfold lift. destruct o as [a| |]; [|constructor..].
  split; [by apply H | constructor].
Qed.

Lemma triple_sendQ (P : world → Prop) (m : message) (Q : unit → world → Prop)
    (E : event → Prop) :
  E (EvSend m) → (∀ w, P w → Q tt w) → triple P (sendQ m) Q E.
Proof.
  intros He H w Hw. unfold sendQ.
  destruct (q (self w)); [constructor| |constructor].
  destruct (senderUp w); [|constructor].
  split; [by apply H | by repeat constructor].
Qed.

Lemma triple_debug (P : world → Prop) (text : string) (Q : unit → world → Prop)
    (E : event → Prop) :
  E (EvPrint text) → (∀ w, P w → Q tt w) → triple P (debug text) Q E.
Proof.
  intros He H. unfold debug.
  apply triple_bind with (R := λ c w, P w); [by apply triple_getCli|].
  intros c. destruct (DebugMode c); [by apply triple_emit | by apply triple_ret].
Qed.

(** A loop keeps what each of its iterations keeps. *)
Lemma triple_forEach {A : Type} (I : world → Prop) (l : list A)
    (body : A → M unit) (E : event → Prop) :
  (∀ x, x ∈ l → triple I (body x) (λ _, I) E) →
  triple I (forEach l body) (λ _, I) E.
Proof.
  induction l as [|x l IH]; intros Hbody.
  - by apply triple_ret.
  - cbn [forEach]. apply triple_bind with (R := λ _, I).
    + apply Hbody, list_elem_of_here.
    + intros _. apply IH. intros y Hy. by apply Hbody, list_elem_of_further.
Qed.

Lemma triple_events {A : Type} (P : world → Prop) (m : M A)
    (Q : A → world → Prop) (E : event → Prop) (w : world) :
  triple P m Q E → P w → Forall E (eventsOf m w).
Proof.
  intros H Hw. specialize (H w Hw). unfold eventsOf.
  destruct (m w) as [[[a| |] w'] tr]; cbn; tauto.
Qed.

Lemma triple_returns {A : Type} (P : world → Prop) (m : M A)
    (Q : A → world → Prop) (E : event → Prop) (w w' : world) (a : A)
    (tr : list event) :
  triple P m Q E → P w → m w = (Ok a, w', tr) → Q a w'.
Proof. intros H Hw Hrun. specialize (H w Hw). rewrite Hrun in H. tauto. Qed.

Lemma keeps_ret {A : Type} (I : world → Prop) (E : event → Prop) (a : A) :
  keeps I E (ret a).
Proof. by apply triple_ret. Qed.

Lemma keeps_bind {A B : Type} (I : world → Prop) (E : event → Prop)
    (m : M A) (f : A → M B) :
  keeps I E m → (∀ a, keeps I E (f a)) → keeps I E (m ≫= f).
Proof. intros Hm Hf. by apply triple_bind with (R := λ _, I). Qed.

Lemma keeps_getCli (I : world → Prop) (E : event → Prop) : keeps I E getCli.
Proof. by apply triple_getCli. Qed.

Lemma keeps_modify (I : world → Prop) (E : event → Prop) (g : Client → Client) :
  (∀ w, I w → I (mkWorld (g (self w)) (ranges w) (senderUp w))) →
  keeps I E (modify g).
Proof. intros H. by apply (triple_modify I g (λ _, I)). Qed.

Lemma keeps_setSender (I : world → Prop) (E : event → Prop) (b : bool) :
  (∀ w, I w → I (mkWorld (self w) (ranges w) b)) → keeps I E (setSender b).
Proof. intros H. by apply (triple_setSender I b (λ _, I)). Qed.

Lemma keeps_emit (I : world → Prop) (E : event → Prop) (e : event) :
  E e → keeps I E (emit e).
Proof. intros. by apply triple_emit. Qed.

Lemma keeps_lift {A : Type} (I : world → Prop) (E : event → Prop) (o : outcome A) :
  keeps I E (lift o).
Proof. by apply triple_lift. Qed.

Lemma keeps_sendQ (I : world → Prop) (E : event → Prop) (m : message) :
  E (EvSend m) → keeps I E (sendQ m).
Proof. intros. by apply triple_sendQ. Qed.

Lemma keeps_debug (I : world → Prop) (E : event → Prop) (text : string) :
  E (EvPrint text) → keeps I E (debug text).
Proof. intros. by apply triple_debug. Qed.

Lemma keeps_forEach {A : Type} (I : world → Prop) (E : event → Prop)
    (l : list A) (body : A → M unit) :
  (∀ x, x ∈ l → keeps I E (body x)) → keeps I E (forEach l body).
Proof. apply triple_forEach. Qed.

Lemma keeps_closeChan (I : world → Prop) (E : event → Prop) (n : chan_name) :
  E (EvClose n) →
  (∀ w, I w → I (mkWorld (set_chan n ChClosed (self w)) (ranges w) (senderUp w))) →
  keeps I E (closeChan n).
Proof.
  intros He H. unfold closeChan. apply keeps_bind; [apply keeps_getCli|].
  intros c. destruct (chanOf n c); [apply keeps_lift| |apply keeps_lift].
  apply keeps_bind; [by apply keeps_modify | intros _; by apply keeps_emit].
Qed.

Lemma keeps_wsClose (I : world → Prop) (E : event → Prop) :
  (∀ c, E (EvWsClose c)) → keeps I E wsClose.
Proof.
  intros He. unfold wsClose. apply keeps_bind; [apply keeps_getCli|].
  intros c. destruct (ws c); [by apply keeps_emit | apply keeps_lift].
Qed.

(** Steps that leave the subscriptions alone. *)
Ltac same_subscriptions :=
  idtac;
  match goal with
  | HI : onSubscriptions _ |- ∀ w, _ → _ =>
      let w := fresh "w" in let H := fresh "H" in
      intros w H; apply (HI w); [by destruct w as [[] ? ?] | exact H]
  end.

(** One step through the structure of a call; [side] proves that a state
    update keeps the invariant. *)
Ltac keeps_step side :=
  lazymatch goal with
  | |- keeps _ _ (_ ≫= _) => apply keeps_bind; [|intros ?]
  | |- keeps _ _ (debug _) => by apply keeps_debug
  | |- keeps _ _ (emit _) => by apply keeps_emit
  | |- keeps _ _ (sendQ _) => by apply keeps_sendQ
  | |- keeps _ _ (closeChan _) => apply keeps_closeChan; [done | side]
  | |- keeps _ _ wsClose => by apply keeps_wsClose
  | |- keeps _ _ (modify _) => apply keeps_modify; side
  | |- keeps _ _ (setSender _) => apply keeps_setSender; side
  | |- keeps _ _ getCli => apply keeps_getCli
  | |- keeps _ _ (lift _) => apply keeps_lift
  | |- keeps _ _ (ret _) => apply keeps_ret
  | |- keeps _ _ (forEach _ _) => apply keeps_forEach; intros ? ?
  | |- keeps _ _ (match ?x with _ => _ end) => destruct x
  end.

Ltac frame_step := keeps_step ltac:(same_subscriptions).

Lemma senderDeferred_frame (I : world → Prop) :
  onSubscriptions I → keeps I notSend senderDeferred.
Proof. intros HI. unfold senderDeferred. repeat frame_step. Qed.

Lemma recvSended_frame (I : world → Prop) :
  onSubscriptions I → keeps I notSend recvSended.
Proof.
  intros HI w Hw. unfold recvSended.
  destruct (sended (self w)); [constructor| |by split].
  destruct (senderUp w); [|constructor].
  by apply senderDeferred_frame.
Qed.

Lemma Disconnect_frame (I : world → Prop) :
  onSubscriptions I → keeps I notSend Disconnect.
Proof.
  intros HI. unfold Disconnect, onClosing, onClosed.
  repeat first [ by apply recvSended_frame | frame_step ].
Qed.

Lemma Connect_frame (I : world → Prop) (reply : http_reply) (dialed : error + conn) :
  onSubscriptions I → keeps I notSend (Connect reply dialed).
Proof.
  intros HI.
  unfold Connect, channelInitialize, refreshToken, refreshWebsocket, onConnected.
  repeat first [ by apply Disconnect_frame | frame_step ].
Qed.

Lemma triple_events_weaken {A : Type} (P : world → Prop) (m : M A)
    (Q : A → world → Prop) (E E' : event → Prop) :
  (∀ e, E e → E' e) → triple P m Q E → triple P m Q E'.
Proof.
  intros HE H w Hw. specialize (H w Hw).
  destruct (m w) as [[[a| |] w'] tr];
    [destruct H; split; [done|] | ..]; by eapply Forall_impl.
Qed.

Lemma triple_assume {A : Type} (φ : Prop) (P : world → Prop) (m : M A)
    (Q : A → world → Prop) (E : event → Prop) :
  (φ → triple P m Q E) → triple (λ w, P w ∧ φ) m Q E.
Proof. intros H w [Hw Hφ]. by apply H. Qed.

(** ** Disconnecting *)

Lemma Disconnect_offline (w : world) :
  Connected (self w) = false → Disconnect w = (Ok None, w, []).
Proof. intros H. unfold Disconnect. rewrite bind_getCli, H. reflexivity. Qed.

Lemma Disconnect_closing (w : world) :
  closing (self w) = true → Disconnect w = (Ok None, w, []).
Proof.
  intros H. unfold Disconnect. rewrite bind_getCli, H.
  by destruct (negb (Connected (self w))).
Qed.

Ltac field_kept := idtac; by intros [[] ? ?].

(** A triple with the same condition before and after is an invariant. *)
Ltac as_keeps :=
  lazymatch goal with
  | |- triple ?P ?m _ ?E => change (keeps P E m)
  end.

Lemma senderDeferred_ws :
  triple (λ _, True) senderDeferred (λ _ w, ws (self w) = None) anyEvent.
Proof.
  unfold senderDeferred.
  apply triple_bind with (R := λ _ _, True); [by apply triple_debug|]. intros _.
  apply triple_bind with (R := λ _ _, True);
    [apply keeps_closeChan; done|]. intros _.
  apply triple_bind with (R := λ _ _, True); [by apply keeps_wsClose|]. intros _.
  apply triple_bind with (R := λ _ w, ws (self w) = None);
    [by apply triple_modify|]. intros _.
  change (keeps (λ w, ws (self w) = None) anyEvent
            (closeChan Sended ≫= λ _, setSender false)).
  repeat keeps_step ltac:(field_kept).
Qed.

Lemma recvSended_ws :
  triple (λ w, sended (self w) = ChOpen) recvSended
    (λ _ w, ws (self w) = None) anyEvent.
Proof.
  intros w Hw. unfold recvSended. rewrite Hw.
  destruct (senderUp w); [by apply senderDeferred_ws | constructor].
Qed.

Lemma Disconnect_disconnects :
  triple sendedOpen Disconnect
    (λ e w, e = None ∧ disconnected w ∧ sendedOpen w) anyEvent.
Proof.
  unfold Disconnect.
  apply triple_bind with (R := λ c w, sendedOpen w ∧ c = self w);
    [by apply triple_getCli|].
  intros c. destruct (Connected c) eqn:Hc; cbn [negb].
  2: { apply triple_ret. intros w [Hw ->]. split; [done|]. split; [by left | done]. }
  destruct (closing c) eqn:Hcl.
  { apply triple_ret. intros w [Hw ->]. split; [done|]. split; [by right | done]. }
  apply triple_weaken with (P' := λ w, sended (self w) = ChOpen)
                           (Q' := λ e w, e = None ∧ ws (self w) = None).
  2: { intros w [Hw ->]. by apply Hw. }
  2: { intros e w [-> Hw]. split; [done|].
       assert (Connected (self w) = false) by (unfold Connected; by rewrite Hw).
       split; [by left|]. intros ?. congruence. }
  unfold onClosing, onClosed.
  apply triple_bind with (R := λ _ w, sended (self w) = ChOpen).
  { change (keeps (λ w, sended (self w) = ChOpen) anyEvent
              (modify (set_closing true) ≫= λ _, debug "Websocket closing")).
    repeat keeps_step ltac:(field_kept). }
  intros _. apply triple_bind with (R := λ _ w, sended (self w) = ChOpen).
  { apply keeps_closeChan; [done | field_kept]. }
  intros _. apply triple_bind with (R := λ _ w, sended (self w) = ChOpen).
  { apply keeps_closeChan; [done | field_kept]. }
  intros _. apply triple_bind with (R := λ _ w, ws (self w) = None);
    [apply recvSended_ws|].
  intros _. apply triple_bind with (R := λ _ w, ws (self w) = None).
  { change (keeps (λ w, ws (self w) = None) anyEvent
              (modify (set_closing false) ≫= λ _, debug "Websocket closed")).
    repeat keeps_step ltac:(field_kept). }
  intros _. by apply triple_ret.
Qed.

Lemma disconnected_Disconnect (w : world) :
  disconnected w → Disconnect w = (Ok None, w, []).
Proof. intros [H | H]; [by apply Disconnect_offline | by apply Disconnect_closing]. Qed.

(** ** Connecting *)

Lemma channelInitialize_run (w : world) :
  channelInitialize w
  = (Ok tt,
     mkWorld
       (mkClient (DebugMode (self w)) (username (self w)) (password (self w))
          (provider_ (self w)) (token (self w)) (ws (self w))
          (channels (self w)) (joinedChannels (self w))
          (quoteHander (self w)) (errorHandler (self w))
          ChOpen ChOpen ChOpen ChOpen false)
       (ranges w) false, []).
Proof. by destruct w as [[] ? ?]. Qed.

(** [Connect] on a client that is still connected: the [Disconnect] in
    [refreshWebsocket] closes the fresh channels and then waits for a
    sender goroutine that is not listening to them. *)
Lemma Disconnect_stuck (w : world) :
  initialized w → Connected (self w) = true →
  ∃ w' tr, Disconnect w = (Block, w', tr).
Proof.
  destruct w as [[dbg u pw p tok [cn|] D J qh eh bh bs sd qq cl] n up];
    unfold initialized; cbn; intros (-> & -> & -> & -> & -> & ->) Hc; [|done].
  destruct dbg; eexists _, _; reflexivity.
Qed.

Lemma Connect_sendedOpen (reply : http_reply) (dialed : error + conn) :
  triple (λ _, True) (Connect reply dialed) (λ _ w, sendedOpen w) anyEvent.
Proof.
  unfold Connect.
  apply triple_bind with (R := λ _ _, True); [by apply triple_debug|]. intros _.
  apply triple_bind with (R := λ _, initialized).
  { intros w _. rewrite channelInitialize_run. by repeat split. }
  intros _. apply triple_bind with (R := λ _, initialized).
  { change (keeps initialized anyEvent (refreshToken reply)).
    unfold refreshToken. repeat keeps_step ltac:(field_kept). }
  intros [e|].
  { apply triple_ret. intros w Hw _. apply Hw. }
  unfold refreshWebsocket.
  apply triple_bind with (R := λ c w, initialized w ∧ c = self w);
    [by apply triple_getCli|].
  intros c.
  apply triple_bind with (R := λ _ w, sended (self w) = ChOpen).
  { destruct (Connected c) eqn:Hc.
    - intros w [Hw ->]. destruct (Disconnect_stuck w Hw Hc) as (w' & tr & Hrun).
      unfold mbind, M_bind, bind. rewrite Hrun.
      apply Forall_forall. by intros.
    - apply triple_ret. intros w [Hw _]. apply Hw. }
  intros _.
  apply triple_weaken with (P' := λ w, sended (self w) = ChOpen)
                           (Q' := λ _ w, sended (self w) = ChOpen);
    [|done|by intros _ w Hw _].
  as_keeps.
  unfold onConnected. repeat keeps_step ltac:(field_kept).
Qed.

Section LifecycleFacts.

Variable rangeOrder : nat → gmap string bool → list string.

Lemma keeps_rangeKeys (I : world → Prop) (E : event → Prop) (m : gmap string bool) :
  (∀ w, I w → I (mkWorld (self w) (S (ranges w)) (senderUp w))) →
  keeps I E (rangeKeys rangeOrder m).
Proof. intros H w Hw. cbn. split; [by apply H | constructor]. Qed.

(** [refreshChannels] changes the joined set and nothing else of the
    client. *)
Lemma refreshChannels_keeps (I : world → Prop) (E : event → Prop) :
  (∀ w J n, I w → I (mkWorld (set_joinedChannels J (self w)) n (senderUp w))) →
  (∀ m, E (EvSend m)) →
  keeps I E (refreshChannels rangeOrder).
Proof.
  intros HI HE.
  assert (Hsame : ∀ w n, I w → I (mkWorld (self w) n (senderUp w))).
  { intros w n Hw. specialize (HI w (joinedChannels (self w)) n Hw).
    by destruct w as [[] ? ?]. }
  unfold refreshChannels.
  repeat first
    [ apply keeps_rangeKeys; intros w Hw; by apply Hsame
    | keeps_step ltac:(intros w Hw; by apply (HI w _ (ranges w))) ].
Qed.

Lemma perform_keeps (I : world → Prop) (E : event → Prop) (c : call) :
  (∀ w D J n, I w →
     I (mkWorld (set_channels D (set_joinedChannels J (self w))) n (senderUp w))) →
  (∀ m, E (EvSend m)) →
  keeps I E (perform rangeOrder c).
Proof.
  intros HI HE.
  assert (HD : ∀ w D, I w → I (mkWorld (set_channels D (self w)) (ranges w) (senderUp w))).
  { intros w D Hw. specialize (HI w D (joinedChannels (self w)) (ranges w) Hw).
    by destruct w as [[] ? ?]. }
  assert (HJ : ∀ w J n, I w → I (mkWorld (set_joinedChannels J (self w)) n (senderUp w))).
  { intros w J n Hw. specialize (HI w (channels (self w)) J n Hw).
    by destruct w as [[] ? ?]. }
  destruct c; unfold perform, Join, Leave, LeaveAll; cbv zeta;
    repeat first
      [ by apply refreshChannels_keeps
      | keeps_step ltac:(intros w Hw; by apply HD) ].
Qed.

Lemma run_sendedOpen (o : op) : keeps sendedOpen anyEvent (run rangeOrder o).
Proof.
  destruct o; unfold run, OnQuote, OnError.
  - apply triple_bind with (R := λ _, sendedOpen); [|intros _; apply keeps_ret].
    apply triple_weaken with (P' := λ _, True) (Q' := λ _ w, sendedOpen w);
      [apply Connect_sendedOpen | done | done].
  - apply triple_bind with (R := λ _, sendedOpen); [|intros _; apply keeps_ret].
    apply triple_weaken
      with (P' := sendedOpen) (Q' := λ e w, e = None ∧ disconnected w ∧ sendedOpen w);
      [apply Disconnect_disconnects | done | by intros e w (_ & _ & Hw)].
  - apply perform_keeps; [by intros [[] ? ?] | done].
  - apply keeps_modify. by intros [[] ? ?].
  - apply keeps_modify. by intros [[] ? ?].
  - apply keeps_modify. by intros [[] ? ?].
Qed.

Lemma reachable_sendedOpen (w : world) : reachable rangeOrder w → sendedOpen w.
Proof.
  induction 1 as [u pw p | o w w' tr _ IH Hrun]; [done|].
  exact (triple_returns _ _ _ _ _ _ _ _ (run_sendedOpen o) IH Hrun).
Qed.

Lemma keysTrimmed_onSubscriptions : onSubscriptions keysTrimmed.
Proof.
  intros w w' Heq H k Hk. apply (H k). unfold subscriptions in Heq.
  by replace (channels (self w)) with (channels (self w')) by congruence.
Qed.

Lemma joinAll_trimmed (chs : list string) (D : gmap string bool) :
  (∀ k, k ∈ dom D → trimmed k) → ∀ k, k ∈ dom (joinAll chs D) → trimmed k.
Proof.
  intros HD k. rewrite joinAll_dom, elem_of_union, elem_of_list_to_set,
    list_elem_of_fmap.
  intros [(ch & -> & _) | Hk]; [apply TrimSpace_trimmed | by apply HD].
Qed.

Lemma leaveEach_trimmed (chs : list string) (D : gmap string bool) :
  (∀ k, k ∈ dom D → trimmed k) → ∀ k, k ∈ dom (leaveEach chs D) → trimmed k.
Proof.
  intros HD k. rewrite leaveEach_dom, elem_of_difference. intros [Hk _]. by apply HD.
Qed.

Lemma run_keysTrimmed (o : op) : keeps keysTrimmed anyEvent (run rangeOrder o).
Proof.
  destruct o; unfold run, OnQuote, OnError.
  - apply keeps_bind; [|intros _; apply keeps_ret].
    apply triple_events_weaken with (E := notSend); [done|].
    apply Connect_frame, keysTrimmed_onSubscriptions.
  - apply keeps_bind; [|intros _; apply keeps_ret].
    apply triple_events_weaken with (E := notSend); [done|].
    apply Disconnect_frame, keysTrimmed_onSubscriptions.
  - intros w Hw. rewrite perform_unfold.
    assert (Hw' : keysTrimmed (intended c w)).
    { unfold keysTrimmed. replace (channels (self (intended c w)))
        with (intend c (channels (self w))) by (by destruct w as [[] ? ?]).
      destruct c; cbn [intend];
        [by apply joinAll_trimmed | by apply leaveEach_trimmed |].
      intros k. by rewrite dom_empty_L. }
    revert Hw'. generalize (intended c w). clear w Hw.
    change (keeps keysTrimmed anyEvent (refreshChannels rangeOrder)).
    apply refreshChannels_keeps; [|done].
    intros w J n Hw. by destruct w as [[] ? ?].
  - apply keeps_modify. by intros [[] ? ?].
  - apply keeps_modify. by intros [[] ? ?].
  - apply keeps_modify. by intros [[] ? ?].
Qed.

Lemma reachable_keysTrimmed (w : world) : reachable rangeOrder w → keysTrimmed w.
Proof.
  induction 1 as [u pw p | o w w' tr _ IH Hrun].
  - intros k. cbn. by rewrite dom_empty_L.
  - exact (triple_returns _ _ _ _ _ _ _ _ (run_keysTrimmed o) IH Hrun).
Qed.

(** *** A channel that is neither desired nor joined *)

Hypothesis rangeOrder_perm :
  ∀ n (m : gmap string bool), rangeOrder n m ≡ₚ (map_to_list m).*1.

Lemma triple_rangeKeys (P : world → Prop) (m : gmap string bool)
    (E : event → Prop) :
  (∀ w, P w → P (mkWorld (self w) (S (ranges w)) (senderUp w))) →
  triple P (rangeKeys rangeOrder m)
    (λ ks w, P w ∧ ∀ x, x ∈ ks → x ∈ dom m) E.
Proof.
  intros HP w Hw. cbn. split; [|constructor].
  split; [by apply HP|]. intros x. by rewrite rangeOrder_elem.
Qed.

Lemma notSend_notLeave (p : provider) (k : string) (e : event) :
  notSend e → notLeave p k e.
Proof.
  unfold notLeave, isLeave, isSend. destruct (makeLeaveMessage p k); [|done..].
  by destruct e.
Qed.

Lemma unknown_onSubscriptions (p : provider) (k : string) :
  onSubscriptions (unknown p k).
Proof.
  intros w w' Heq (HD & HJ & Hp). unfold subscriptions in Heq. unfold unknown.
  replace (channels (self w')) with (channels (self w)) by congruence.
  replace (joinedChannels (self w')) with (joinedChannels (self w)) by congruence.
  replace (provider_ (self w')) with (provider_ (self w)) by congruence.
  done.
Qed.

Lemma refreshChannels_unknown (p : provider) (k : string) :
  validProvider p →
  keeps (unknown p k) (notLeave p k) (refreshChannels rangeOrder).
Proof.
  intros Hp. unfold refreshChannels.
  assert (Hranges : ∀ w, unknown p k w →
            unknown p k (mkWorld (self w) (S (ranges w)) (senderUp w))).
  { by intros [[] ? ?]. }
  apply keeps_bind; [apply keeps_getCli|]. intros c0.
  destruct (negb (Connected c0)); [apply keeps_ret|].
  apply keeps_bind; [by apply keeps_rangeKeys|]. intros ks1.
  apply keeps_bind.
  { (* the join messages are no leave messages *)
    apply keeps_forEach. intros x _.
    apply triple_bind with (R := λ c w, unknown p k w ∧ provider_ c = p).
    { apply triple_getCli. intros w Hw. split; [done | apply Hw]. }
    intros c. apply triple_assume. intros Hc.
    destruct (joinedChannels c !! x); [apply keeps_ret|].
    rewrite Hc, makeJoinMessage_valid by done.
    apply triple_bind
      with (R := λ m w, unknown p k w ∧ m = joinMsg p x).
    { apply triple_lift. intros a w [= <-] Hw. done. }
    intros m. apply triple_assume. intros ->.
    apply keeps_sendQ. unfold notLeave. by apply isLeave_join. }
  intros _.
  apply triple_bind
    with (R := λ c w, unknown p k w
                      ∧ (provider_ c = p ∧ k ∉ dom (joinedChannels c))).
  { apply triple_getCli. intros w Hw. split; [done|]. split; apply Hw. }
  intros c. apply triple_assume. intros [Hc HJ].
  apply triple_bind
    with (R := λ ks w, unknown p k w ∧ ∀ x, x ∈ ks → x ∈ dom (joinedChannels c)).
  { by apply triple_rangeKeys. }
  intros ks2. apply triple_assume. intros Hks2.
  apply keeps_bind.
  { (* the leave messages are for joined channels, and [k] is none *)
    apply keeps_forEach. intros x Hx.
    assert (Hne : k ≠ x) by (intros ->; by apply HJ, Hks2).
    apply triple_bind with (R := λ c w, unknown p k w ∧ provider_ c = p).
    { apply triple_getCli. intros w Hw. split; [done | apply Hw]. }
    intros c'. apply triple_assume. intros Hc'.
    destruct (channels c' !! x); [apply keeps_ret|].
    rewrite Hc', makeLeaveMessage_valid by done.
    apply triple_bind
      with (R := λ m w, unknown p k w ∧ m = leaveMsg p x).
    { apply triple_lift. intros a w [= <-] Hw. done. }
    intros m. apply triple_assume. intros ->.
    apply keeps_sendQ. unfold notLeave.
    rewrite isLeave_leave by done. by apply bool_decide_eq_false. }
  intros _.
  apply keeps_bind.
  { apply keeps_modify. intros [[] ? ?] (HD & _ & Hpw).
    split; [exact HD|]. split; [|exact Hpw]. cbn. by rewrite dom_empty_L. }
  intros _.
  apply triple_bind
    with (R := λ c w, unknown p k w ∧ k ∉ dom (channels c)).
  { apply triple_getCli. intros w Hw. split; [done | apply Hw]. }
  intros c3. apply triple_assume. intros HD3.
  apply triple_bind
    with (R := λ ks w, unknown p k w ∧ ∀ x, x ∈ ks → x ∈ dom (channels c3)).
  { by apply triple_rangeKeys. }
  intros ks3. apply triple_assume. intros Hks3.
  apply keeps_forEach. intros x Hx.
  assert (Hne : k ≠ x) by (intros ->; by apply HD3, Hks3).
  apply keeps_modify. intros [[] ? ?] (HD & HJw & Hpw).
  split; [exact HD|]. split; [|exact Hpw]. cbn in *.
  rewrite dom_insert_L, elem_of_union, elem_of_singleton. tauto.
Qed.

Lemma intend_unknown (k : string) (c : call) (D : gmap string bool) :
  ¬ joins k (OCall c) → k ∉ dom D → k ∉ dom (intend c D).
Proof.
  intros Hc HD. destruct c as [chs|chs|]; cbn [intend joins] in *.
  - rewrite joinAll_dom, elem_of_union, elem_of_list_to_set. tauto.
  - rewrite leaveEach_dom, elem_of_difference. tauto.
  - by rewrite dom_empty_L.
Qed.

Lemma run_unknown (p : provider) (k : string) (o : op) :
  validProvider p → ¬ joins k o →
  keeps (unknown p k) (notLeave p k) (run rangeOrder o).
Proof.
  intros Hp Ho. destruct o; unfold run, OnQuote, OnError.
  - apply keeps_bind; [|intros _; apply keeps_ret].
    apply triple_events_weaken with (E := notSend); [apply notSend_notLeave|].
    apply Connect_frame, unknown_onSubscriptions.
  - apply keeps_bind; [|intros _; apply keeps_ret].
    apply triple_events_weaken with (E := notSend); [apply notSend_notLeave|].
    apply Disconnect_frame, unknown_onSubscriptions.
  - intros w Hw. rewrite perform_unfold.
    apply refreshChannels_unknown; [done|].
    destruct Hw as (HD & HJ & Hpw). destruct w as [[] ? ?]. cbn in *.
    split; [by apply intend_unknown | done].
  - apply keeps_modify. by intros [[] ? ?].
  - apply keeps_modify. by intros [[] ? ?].
  - apply keeps_modify. by intros [[] ? ?].
Qed.

Lemma runAll_unknown (p : provider) (k : string) (os : list op) :
  validProvider p → Forall (λ o, ¬ joins k o) os →
  keeps (unknown p k) (notLeave p k) (runAll rangeOrder os).
Proof.
  intros Hp Hos. apply keeps_forEach. intros o Ho.
  apply run_unknown; [done|]. by apply (proj1 (Forall_forall _ _) Hos).
Qed.

Lemma countLeaves_notLeave (p : provider) (k : string) (tr : list event) :
  Forall (notLeave p k) tr → countLeaves p k tr = 0.
Proof.
  unfold countLeaves, notLeave. induction 1 as [|e tr He _ IH]; [reflexivity|].
  rewrite filter_cons. rewrite decide_False by congruence. exact IH.
Qed.

Lemma leaveEach_absent (c : string) (D : gmap string bool) :
  TrimSpace c ∉ dom D → leaveEach [c] D = D.
Proof. intros H. cbn. apply delete_id. by apply not_elem_of_dom. Qed.

(** C9.  [Leave(c)] for a channel that is neither desired nor joined
    leaves the desired set as it is: the call is a bare reconciliation
    pass.  No leave message for the channel is sent by it, nor by anything
    the client is asked to do afterwards (connecting, disconnecting,
    joining or leaving other channels), as long as nobody joins the
    channel.  The channel is [c] as trimmed by [Leave]. *)
Theorem Leave_unknown_noop (c : string) (rest : list op) (w : world) :
  validProvider (provider_ (self w)) →
  TrimSpace c ∉ dom (channels (self w)) →
  TrimSpace c ∉ dom (joinedChannels (self w)) →
  Forall (λ o, ¬ joins (TrimSpace c) o) rest →
  Leave rangeOrder [c] w = refreshChannels rangeOrder w
  ∧ (∀ w' tr, Leave rangeOrder [c] w = (Ok tt, w', tr) →
       channels (self w') = channels (self w))
  ∧ countLeaves (provider_ (self w)) (TrimSpace c)
      (eventsOf (Leave rangeOrder [c] ;; runAll rangeOrder rest) w) = 0.
Proof.
  intros Hp HD HJ Hrest.
  assert (Hrun : Leave rangeOrder [c] w = refreshChannels rangeOrder w).
  { rewrite Leave_unfold, leaveEach_absent by done. by destruct w as [[] ? ?]. }
  split; [exact Hrun|]. split.
  - intros w' tr Hw'. rewrite Hrun in Hw'.
    assert (Hk : keeps (λ w0, channels (self w0) = channels (self w)) anyEvent
                   (refreshChannels rangeOrder)).
    { apply refreshChannels_keeps; [|done].
      intros w0 J n Hw0. by destruct w0 as [[] ? ?]. }
    exact (triple_returns _ _ _ _ _ _ _ _ Hk eq_refl Hw').
  - apply countLeaves_notLeave.
    apply (triple_events (unknown (provider_ (self w)) (TrimSpace c)) _
             (λ _, unknown (provider_ (self w)) (TrimSpace c))); [|done].
    apply keeps_bind.
    + change (keeps (unknown (provider_ (self w)) (TrimSpace c))
                (notLeave (provider_ (self w)) (TrimSpace c))
                (run rangeOrder (OCall (CLeave [c])))).
      apply run_unknown; [done | intros H; exact H].
    + intros _. by apply runAll_unknown.
Qed.

(** *** Disconnecting twice *)

(** X15.  The later revision is idempotent.  [Disconnect] on a client
    that is not connected, also one that was never connected, returns
    [nil], causes no event and changes nothing; and whenever a
    [Disconnect] has returned, the next one returns [nil], causes no event
    and changes nothing. *)
Lemma Disconnect_idempotent (w : world) :
  reachable rangeOrder w →
  (Connected (self w) = false → Disconnect w = (Ok None, w, []))
  ∧ (∀ username password p,
       Disconnect (boot (New username password p))
       = (Ok None, boot (New username password p), []))
  ∧ (∀ e w' tr,
       Disconnect w = (Ok e, w', tr) →
       e = None ∧ Disconnect w' = (Ok None, w', [])).
Proof.
  intros Hw. split; [apply Disconnect_offline|].
  split; [intros; by apply Disconnect_offline|].
  intros e w' tr Hrun.
  destruct (triple_returns _ _ _ _ _ _ _ _ Disconnect_disconnects
              (reachable_sendedOpen w Hw) Hrun) as (-> & Hd & _).
  split; [done | by apply disconnected_Disconnect].
Qed.

(** *** The desired set holds trimmed strings *)

Lemma Join_channels (chs : list string) (w w' : world) (tr : list event) :
  Join rangeOrder chs w = (Ok tt, w', tr) →
  channels (self w') = joinAll chs (channels (self w)).
Proof.
  rewrite Join_unfold. intros Hrun.
  assert (Hk : keeps (λ w0, channels (self w0) = joinAll chs (channels (self w)))
                 anyEvent (refreshChannels rangeOrder)).
  { apply refreshChannels_keeps; [|done].
    intros w0 J n Hw0. by destruct w0 as [[] ? ?]. }
  refine (triple_returns _ _ _ _ _ _ _ _ Hk _ Hrun). by destruct w as [[] ? ?].
Qed.

Lemma Leave_channels (chs : list string) (w w' : world) (tr : list event) :
  Leave rangeOrder chs w = (Ok tt, w', tr) →
  channels (self w') = leaveEach chs (channels (self w)).
Proof.
  rewrite Leave_unfold. intros Hrun.
  assert (Hk : keeps (λ w0, channels (self w0) = leaveEach chs (channels (self w)))
                 anyEvent (refreshChannels rangeOrder)).
  { apply refreshChannels_keeps; [|done].
    intros w0 J n Hw0. by destruct w0 as [[] ? ?]. }
  refine (triple_returns _ _ _ _ _ _ _ _ Hk _ Hrun). by destruct w as [[] ? ?].
Qed.

(** C7, as the code has it.  Whatever was done with a client since [New],
    every channel of its desired set is a trimmed string, one that
    [TrimSpace] leaves as it is; it may be the empty string.  [Join] adds
    the trimmed arguments to the desired set, [Leave] removes the trimmed
    arguments from it. *)
Theorem desired_channels_trimmed (w : world) :
  reachable rangeOrder w →
  (∀ k, k ∈ dom (channels (self w)) → trimmed k ∧ TrimSpace k = k)
  ∧ (∀ chs w' tr,
       Join rangeOrder chs w = (Ok tt, w', tr) →
       dom (channels (self w'))
       = list_to_set (TrimSpace <$> chs) ∪ dom (channels (self w)))
  ∧ (∀ chs w' tr,
       Leave rangeOrder chs w = (Ok tt, w', tr) →
       dom (channels (self w'))
       = dom (channels (self w)) ∖ list_to_set (TrimSpace <$> chs)).
Proof.
  intros Hw. split; [|split].
  - intros k Hk. pose proof (reachable_keysTrimmed w Hw k Hk) as Ht.
    split; [exact Ht | by apply trimmed_fixed].
  - intros chs w' tr Hrun. rewrite (Join_channels _ _ _ _ Hrun). apply joinAll_dom.
  - intros chs w' tr Hrun. rewrite (Leave_channels _ _ _ _ Hrun). apply leaveEach_dom.
Qed.

(** *** Calls on a client that is not connected *)

Lemma Connect_success (tok : string) (cn : conn) (w : world) :
  Connected (self w) = false → validProvider (provider_ (self w)) →
  ∃ tr,
    Connect (HttpReply 200 (inr tok)) (inr cn) w
    = (Ok None,
       mkWorld
         (mkClient (DebugMode (self w)) (username (self w)) (password (self w))
            (provider_ (self w)) tok (Some cn)
            (channels (self w)) (joinedChannels (self w))
            (quoteHander (self w)) (errorHandler (self w))
            ChOpen ChOpen ChOpen ChOpen false)
         (ranges w) true, tr).
Proof.
  destruct w as [[dbg u pw p tok0 [cn0|] D J qh eh bh bs sd qq cl] n up];
    cbn; intros Hc Hp; [done|].
  destruct Hp as [-> | ->]; destruct dbg; eexists; vm_compute; reflexivity.
Qed.

(** C8.  A [Join], [Leave] or [LeaveAll] on a client that is not
    connected returns, sends nothing and changes the desired set only.
    When the client then connects, the connection works, and the next
    pass sends one join message for each desired channel that is not in
    the joined set and makes the joined set the desired set. *)
Theorem offline_call_desired_only (c : call) (w : world) :
  Connected (self w) = false →
  perform rangeOrder c w
  = (Ok tt,
     mkWorld (set_channels (intend c (channels (self w))) (self w))
       (ranges w) (senderUp w), [])
  ∧ (validProvider (provider_ (self w)) →
     ∀ tok cn, ∃ w1 tr1 w2 tr2,
       Connect (HttpReply 200 (inr tok)) (inr cn) (intended c w) = (Ok None, w1, tr1)
       ∧ online w1
       ∧ Forall notSend tr1
       ∧ channels (self w1) = intend c (channels (self w))
       ∧ joinedChannels (self w1) = joinedChannels (self w)
       ∧ refreshChannels rangeOrder w1 = (Ok tt, w2, tr2)
       ∧ dom (joinedChannels (self w2)) = dom (intend c (channels (self w)))
       ∧ ∀ k, countJoins (provider_ (self w)) k tr2
              = if decide (k ∈ dom (intend c (channels (self w)))
                             ∖ dom (joinedChannels (self w)))
                then 1 else 0).
Proof.
  intros Hc. split; [by apply perform_offline|].
  intros Hp tok cn.
  assert (Hc0 : Connected (self (intended c w)) = false)
    by (by destruct w as [[] ? ?]).
  assert (Hp0 : validProvider (provider_ (self (intended c w))))
    by (by destruct w as [[] ? ?]).
  destruct (Connect_success tok cn _ Hc0 Hp0) as [tr1 Hrun1].
  set (w1 := mkWorld _ _ _) in Hrun1.
  assert (Hon : online w1) by (by repeat split).
  assert (Hp1 : provider_ (self w1) = provider_ (self w))
    by (by destruct w as [[] ? ?]).
  assert (HD1 : channels (self w1) = intend c (channels (self w)))
    by (by destruct w as [[] ? ?]).
  assert (HJ1 : joinedChannels (self w1) = joinedChannels (self w))
    by (by destruct w as [[] ? ?]).
  exists w1, tr1, (passState rangeOrder w1), (passEvents rangeOrder w1).
  split; [exact Hrun1|]. split; [exact Hon|]. split.
  { pose proof (Connect_frame (λ _, True) (HttpReply 200 (inr tok)) (inr cn)
                  ltac:(done) (intended c w) I) as H.
    rewrite Hrun1 in H. apply H. }
  split; [exact HD1|]. split; [exact HJ1|]. split.
  { apply refreshChannels_online; [exact Hon | exact Hp0]. }
  split; [by rewrite passState_dom, HD1|].
  intros k. rewrite <- Hp1.
  rewrite (countJoins_pass rangeOrder rangeOrder_perm) by exact Hp0.
  by rewrite HD1, HJ1.
Qed.

End LifecycleFacts.

(** ** The constructor and the provider *)

(** C10.  For every user name, password and provider, also a provider
    that is neither IEX nor QUODD, [New] returns a client (it has no way
    to fail and looks at the provider in no way) with an empty desired
    set, an empty joined set and no socket: [Connected] is false. *)
Theorem New_fresh (username password : string) (p : provider) :
  channels (New username password p) = ∅
  ∧ joinedChannels (New username password p) = ∅
  ∧ Connected (New username password p) = false
  ∧ ws (New username password p) = None
  ∧ provider_ (New username password p) = p.
Proof. by repeat split. Qed.

Lemma Connect_invalid_provider (user pass : string) (p : provider)
    (reply : http_reply) (dialed : error + conn) :
  ¬ validProvider p →
  ∃ w, Connect reply dialed (boot (New user pass p))
       = (Panic cPanicProvider, w, []).
Proof.
  intros Hp. unfold Connect.
  rewrite bind_debug_quiet by reflexivity.
  rewrite (bind_Ok _ _ _ _ _ _ (channelInitialize_run _)).
  cbn [app self ranges senderUp boot New DebugMode username password
       provider_ token ws channels joinedChannels quoteHander errorHandler].
  unfold refreshToken.
  unfold mbind at 1, M_bind at 1, bind at 1.
  rewrite bind_getCli. cbn [self provider_].
  rewrite makeAuthURL_invalid by done. rewrite bind_lift_Panic.
  eexists. reflexivity.
Qed.

(** C5, as the code has it.  A provider that is neither IEX nor QUODD is
    accepted by [New]; it is refused when a URL or a message is built for
    it, by a panic, which [Connect] meets first, before it talks to the
    network. *)
Theorem invalid_provider_panics_late (username password : string) (p : provider) :
  ¬ validProvider p →
  provider_ (New username password p) = p
  ∧ makeAuthURL p = Panic cPanicProvider
  ∧ (∀ tok, makeSoketURL p tok = Panic cPanicProvider)
  ∧ (∀ channel, makeJoinMessage p channel = Panic cPanicProvider)
  ∧ (∀ channel, makeLeaveMessage p channel = Panic cPanicProvider)
  ∧ (∀ now, makeHeartbeatMessage p now = Panic cPanicProvider)
  ∧ (∀ reply dialed, ∃ w,
       Connect reply dialed (boot (New username password p))
       = (Panic cPanicProvider, w, [])).
Proof.
  intros Hp. split; [reflexivity|].
  split; [by apply makeAuthURL_invalid|].
  split; [intros; by apply makeSoketURL_invalid|].
  split; [intros; by apply makeJoinMessage_invalid|].
  split; [intros; by apply makeLeaveMessage_invalid|].
  split; [intros; by apply makeHeartbeatMessage_invalid|].
  intros. by apply Connect_invalid_provider.
Qed.

Lemma invalid_provider_panics_late_witness :
  ¬ validProvider "nyse"
  ∧ makeJoinMessage (provider_ (New "user" "secret" "nyse")) "AAPL"
    = Panic cPanicProvider.
Proof.
  assert (H : ¬ validProvider "nyse") by (intros [H | H]; discriminate H).
  split; [exact H|].
  destruct (invalid_provider_panics_late "user" "secret" "nyse" H)
    as (-> & _ & _ & Hj & _).
  apply Hj.
Defined.

(** The claim fails for the provider "nyse": the client is constructed,
    and the join message for AAPL, like the connection, panics. *)
Lemma invalid_provider_counterexample :
  provider_ (New "user" "secret" "nyse") = "nyse"
  ∧ Connected (New "user" "secret" "nyse") = false
  ∧ makeJoinMessage (provider_ (New "user" "secret" "nyse")) "AAPL"
    = Panic "A value that does not exist was specified."
  ∧ (Connect (HttpReply 200 (inr "token")) (inr 1%nat)
       (boot (New "user" "secret" "nyse"))).1.1
    = Panic "A value that does not exist was specified.".
Proof. repeat split. Qed.

(** C6, as the code has it.  For IEX the join and the leave message of a
    channel have the four fields topic, event, payload and ref: the topic
    derived from the channel, the event [phx_join] or [phx_leave], an
    empty payload and a nil ref; the heartbeat message has the same
    fields, with topic [phoenix] and event [heartbeat].  The topic of
    [$lobby] is [iex:lobby], the topic of [$lobby_last_price] is
    [iex:lobby:last_price], the topic of any other channel is
    [iex:securities:] followed by the channel. *)
Theorem IEX_message_shape (channel : string) (now : Z) :
  ∃ mj ml mh,
    makeJoinMessage IEX channel = Ok mj
    ∧ makeLeaveMessage IEX channel = Ok ml
    ∧ makeHeartbeatMessage IEX now = Ok mh
    ∧ dom mj = list_to_set ["topic"; "event"; "payload"; "ref"]
    ∧ dom ml = list_to_set ["topic"; "event"; "payload"; "ref"]
    ∧ dom mh = list_to_set ["topic"; "event"; "payload"; "ref"]
    ∧ mj !! "topic" = Some (VScalar (SStr (parseTopic channel)))
    ∧ ml !! "topic" = Some (VScalar (SStr (parseTopic channel)))
    ∧ mh !! "topic" = Some (VScalar (SStr "phoenix"))
    ∧ mj !! "event" = Some (VScalar (SStr "phx_join"))
    ∧ ml !! "event" = Some (VScalar (SStr "phx_leave"))
    ∧ mh !! "event" = Some (VScalar (SStr "heartbeat"))
    ∧ mj !! "payload" = Some (VMap ∅) ∧ mj !! "ref" = Some (VScalar SNil)
    ∧ ml !! "payload" = Some (VMap ∅) ∧ ml !! "ref" = Some (VScalar SNil)
    ∧ mh !! "payload" = Some (VMap ∅) ∧ mh !! "ref" = Some (VScalar SNil)
    ∧ ((channel = "$lobby" ∧ parseTopic channel = "iex:lobby")
       ∨ (channel = "$lobby_last_price"
          ∧ parseTopic channel = "iex:lobby:last_price")
       ∨ (channel ≠ "$lobby" ∧ channel ≠ "$lobby_last_price"
          ∧ parseTopic channel = "iex:securities:" +:+ channel)).
Proof.
  eexists _, _, _.
  split; [reflexivity|]. split; [reflexivity|]. split; [reflexivity|].
  split; [by rewrite !dom_insert_L, dom_empty_L|].
  split; [by rewrite !dom_insert_L, dom_empty_L|].
  split; [by rewrite !dom_insert_L, dom_empty_L|].
  do 12 (split; [reflexivity|]).
  apply parseTopic_cases.
Qed.

(** The claim fails for the channel AAPL: the event of its join message
    is [phx_join], which is none of [join], [leave], [heartbeat]. *)
Lemma IEX_event_counterexample :
  ∃ m, makeJoinMessage IEX "AAPL" = Ok m
       ∧ m !! "event" = Some (VScalar (SStr "phx_join"))
       ∧ m !! "event" ≠ Some (VScalar (SStr "join"))
       ∧ m !! "event" ≠ Some (VScalar (SStr "leave"))
       ∧ m !! "event" ≠ Some (VScalar (SStr "heartbeat")).
Proof. eexists. split; [reflexivity|]. by repeat split. Qed.

(** ** Concrete runs *)

Lemma connectedIEX_run :
  run keyOrder (OConnect (HttpReply 200 (inr "token")) (inr 1%nat))
    (boot (New "user" "secret" IEX))
  = (Ok tt, connectedIEX,
     [EvHttpGet "https://realtime.intrinio.com/auth" "user" "secret";
      EvDial "wss://realtime.intrinio.com/socket/websocket?vsn=1.0.0&token=token";
      EvGo "startReceiver"; EvGo "startSender"; EvGo "heartbeat"]).
Proof. reflexivity. Qed.

Lemma connectedIEX_reachable : reachable keyOrder connectedIEX.
Proof.
  eapply reachable_run; [apply reachable_New | apply connectedIEX_run].
Qed.

Lemma connectedIEX_online : online connectedIEX.
Proof. by repeat split. Qed.

Lemma performAll_converges_witness :
  online connectedIEX ∧ validProvider (provider_ (self connectedIEX))
  ∧ ∃ w' tr,
      performAll keyOrder [CJoin ["AAPL"; "MSFT"; "GE"]; CLeave ["AAPL"]] connectedIEX
      = (Ok tt, w', tr)
      ∧ ∀ k, outstanding (provider_ (self connectedIEX)) k
               (bool_decide (k ∈ dom (joinedChannels (self connectedIEX)))) tr
             = bool_decide (k ∈ dom (channels (self w'))).
Proof.
  assert (Hp : validProvider (provider_ (self connectedIEX))) by (by left).
  assert (Hne : [CJoin ["AAPL"; "MSFT"; "GE"]; CLeave ["AAPL"]] ≠ [])
    by discriminate.
  split; [exact connectedIEX_online|]. split; [exact Hp|].
  destruct (performAll_converges keyOrder keyOrder_perm
              [CJoin ["AAPL"; "MSFT"; "GE"]; CLeave ["AAPL"]] connectedIEX
              connectedIEX_online Hp (or_introl Hne))
    as (w' & tr & Hrun & HD & Hout).
  exists w', tr. split; [exact Hrun | exact Hout].
Defined.

Lemma Join_repeated_once_witness :
  online connectedIEX ∧ validProvider (provider_ (self connectedIEX))
  ∧ (1 ≤ 3)%nat
  ∧ ∃ w1 tr1 w2 tr2,
      performAll keyOrder (replicate 3 (CJoin [" AAPL "])) connectedIEX
      = (Ok tt, w1, tr1)
      ∧ Leave keyOrder [" AAPL "] w1 = (Ok tt, w2, tr2)
      ∧ countLeaves (provider_ (self connectedIEX)) (TrimSpace " AAPL ") tr1 = 0
      ∧ countLeaves (provider_ (self connectedIEX)) (TrimSpace " AAPL ") tr2 = 1.
Proof.
  assert (Hp : validProvider (provider_ (self connectedIEX))) by (by left).
  assert (Hn : (1 ≤ 3)%nat) by lia.
  split; [exact connectedIEX_online|]. split; [exact Hp|]. split; [exact Hn|].
  destruct (Join_repeated_once keyOrder keyOrder_perm " AAPL " 3 connectedIEX
              connectedIEX_online Hp Hn)
    as (w1 & tr1 & w2 & tr2 & Hrun1 & Hrun2 & _ & Hl1 & _ & Hl2 & _).
  exists w1, tr1, w2, tr2.
  split; [exact Hrun1|]. split; [exact Hrun2|]. split; [exact Hl1 | exact Hl2].
Defined.

Lemma desired_channels_trimmed_witness :
  reachable keyOrder connectedIEX
  ∧ ∀ w' tr,
      Join keyOrder [" MSFT"] connectedIEX = (Ok tt, w', tr) →
      dom (channels (self w'))
      = list_to_set (TrimSpace <$> [" MSFT"]) ∪ dom (channels (self connectedIEX)).
Proof.
  split; [exact connectedIEX_reachable|].
  destruct (desired_channels_trimmed keyOrder connectedIEX connectedIEX_reachable)
    as (_ & HJ & _).
  intros w' tr Hrun. exact (HJ [" MSFT"] w' tr Hrun).
Defined.

(** The claim fails for [Join("  ")] on a client that has just connected:
    the empty string enters the desired set and a join message is sent
    for it. *)
Lemma blank_channel_counterexample :
  ∃ w' m,
    Join keyOrder ["  "] connectedIEX = (Ok tt, w', [EvSend m])
    ∧ makeJoinMessage IEX "" = Ok m
    ∧ m !! "topic" = Some (VScalar (SStr "iex:securities:"))
    ∧ channels (self w') !! "" = Some true
    ∧ reachable keyOrder w'.
Proof.
  exists (mkWorld
            (set_joinedChannels (<["" := true]> ∅)
               (set_channels (<["" := true]> ∅) (self connectedIEX))) 3 true),
    (joinMsg IEX "").
  assert (Hrun : Join keyOrder ["  "] connectedIEX
                 = (Ok tt,
                    mkWorld
                      (set_joinedChannels (<["" := true]> ∅)
                         (set_channels (<["" := true]> ∅) (self connectedIEX))) 3 true,
                    [EvSend (joinMsg IEX "")])).
  { vm_compute. reflexivity. }
  split; [exact Hrun|]. split; [reflexivity|]. split; [reflexivity|].
  split; [apply lookup_insert_eq|].
  eapply (reachable_run keyOrder (OCall (CJoin ["  "])));
    [apply connectedIEX_reachable | exact Hrun].
Qed.

Lemma offline_call_desired_only_witness :
  Connected (self (boot (New "user" "secret" IEX))) = false
  ∧ perform keyOrder (CJoin ["AAPL"]) (boot (New "user" "secret" IEX))
    = (Ok tt,
       mkWorld (set_channels (intend (CJoin ["AAPL"]) ∅) (New "user" "secret" IEX))
         0 false,
       []).
Proof.
  split; [reflexivity|].
  exact (proj1 (offline_call_desired_only keyOrder keyOrder_perm (CJoin ["AAPL"])
                  (boot (New "user" "secret" IEX)) eq_refl)).
Defined.

Lemma Leave_unknown_noop_witness :
  validProvider (provider_ (self connectedIEX))
  ∧ countLeaves (provider_ (self connectedIEX)) (TrimSpace "GE")
      (eventsOf (Leave keyOrder ["GE"] ;;
                 runAll keyOrder [OCall (CJoin ["AAPL"]); ODisconnect;
                                  OCall (CLeave ["AAPL"])])
         connectedIEX) = 0.
Proof.
  assert (Hp : validProvider (provider_ (self connectedIEX))) by (by left).
  assert (Hk : TrimSpace "GE" ∉ dom (∅ : gmap string bool))
    by (rewrite dom_empty_L; apply not_elem_of_empty).
  assert (Hrest : Forall (λ o, ¬ joins (TrimSpace "GE") o)
                    [OCall (CJoin ["AAPL"]); ODisconnect; OCall (CLeave ["AAPL"])]).
  { repeat constructor; cbn; try tauto.
    rewrite list_elem_of_singleton. vm_compute. discriminate. }
  split; [exact Hp|].
  exact (proj2 (proj2 (Leave_unknown_noop keyOrder keyOrder_perm "GE" _ connectedIEX
                         Hp Hk Hk Hrest))).
Defined.

(** ** What a message on the wire tells *)

Lemma makeHeartbeatMessage_valid (p : provider) (now : Z) :
  validProvider p → makeHeartbeatMessage p now = Ok (heartbeatMsg p now).
Proof.
  unfold heartbeatMsg, makeHeartbeatMessage. intros [-> | ->].
  - by rewrite decide_True.
  - by rewrite decide_False, decide_True.
Qed.

Lemma lookup_event_beat (p : provider) (now : Z) :
  validProvider p →
  heartbeatMsg p now !! "event" = Some (VScalar (SStr "heartbeat")).
Proof.
  unfold heartbeatMsg, makeHeartbeatMessage. intros [-> | ->].
  - by rewrite decide_True.
  - by rewrite decide_False, decide_True.
Qed.

Lemma heartbeatMsg_joinMsg (p : provider) (now : Z) (k : string) :
  validProvider p → heartbeatMsg p now ≠ joinMsg p k.
Proof.
  intros Hp H. apply (f_equal (λ m : message, m !! "event")) in H.
  rewrite lookup_event_beat, lookup_event_join in H by done.
  unfold joinEvent in H. by case_decide.
Qed.

Lemma heartbeatMsg_leaveMsg (p : provider) (now : Z) (k : string) :
  validProvider p → heartbeatMsg p now ≠ leaveMsg p k.
Proof.
  intros Hp H. apply (f_equal (λ m : message, m !! "event")) in H.
  rewrite lookup_event_beat, lookup_event_leave in H by done.
  unfold leaveEvent in H. by case_decide.
Qed.

Lemma heartbeatTicker_QUODD (now : Z) :
  heartbeatTicker (makeHeartbeatMessage QUODD now) = Some (SInt now).
Proof. vm_compute. reflexivity. Qed.

(** X1.  For IEX and for QUODD a request on the wire tells its channel and
    its kind: the join messages of two different channels differ, so do
    their leave messages, and no join message is a leave message. *)
Theorem request_identifies_channel (p : provider) :
  validProvider p →
  (∀ a b, makeJoinMessage p a = makeJoinMessage p b → a = b)
  ∧ (∀ a b, makeLeaveMessage p a = makeLeaveMessage p b → a = b)
  ∧ (∀ a b, makeJoinMessage p a ≠ makeLeaveMessage p b).
Proof.
  intros Hp. split; [|split].
  - intros a b. rewrite !makeJoinMessage_valid by done.
    intros [= H]. by apply (joinMsg_inj p Hp).
  - intros a b. rewrite !makeLeaveMessage_valid by done.
    intros [= H]. by apply (leaveMsg_inj p Hp).
  - intros a b. rewrite makeJoinMessage_valid, makeLeaveMessage_valid by done.
    intros [= H]. by apply (joinMsg_leaveMsg p a b Hp).
Qed.

Lemma request_identifies_channel_witness :
  validProvider QUODD
  ∧ (∀ a b, makeJoinMessage QUODD a = makeJoinMessage QUODD b → a = b).
Proof.
  assert (Hp : validProvider QUODD) by (by right).
  split; [exact Hp|]. exact (proj1 (request_identifies_channel QUODD Hp)).
Defined.

(** X2.  For IEX and for QUODD the heartbeat message is built, and it is
    neither the join nor the leave message of any channel.  The heartbeat
    of IEX is the same at every tick; the heartbeat of QUODD carries the
    clock of its tick. *)
Theorem heartbeat_is_no_request (p : provider) (now : Z) :
  validProvider p →
  (∃ m, makeHeartbeatMessage p now = Ok m)
  ∧ (∀ k, makeHeartbeatMessage p now ≠ makeJoinMessage p k)
  ∧ (∀ k, makeHeartbeatMessage p now ≠ makeLeaveMessage p k)
  ∧ (∀ now', p = IEX → makeHeartbeatMessage p now' = makeHeartbeatMessage p now)
  ∧ (∀ now', p = QUODD →
       makeHeartbeatMessage p now' = makeHeartbeatMessage p now → now' = now).
Proof.
  intros Hp. split; [|split; [|split; [|split]]].
  - eexists. by apply makeHeartbeatMessage_valid.
  - intros k. rewrite makeHeartbeatMessage_valid, makeJoinMessage_valid by done.
    intros [= H]. by apply (heartbeatMsg_joinMsg p now k).
  - intros k. rewrite makeHeartbeatMessage_valid, makeLeaveMessage_valid by done.
    intros [= H]. by apply (heartbeatMsg_leaveMsg p now k).
  - by intros now' ->.
  - intros now' -> H.
    apply (f_equal heartbeatTicker) in H.
    rewrite !heartbeatTicker_QUODD in H. congruence.
Qed.

Lemma heartbeat_is_no_request_witness :
  validProvider IEX
  ∧ ∀ k, makeHeartbeatMessage IEX 0 ≠ makeJoinMessage IEX k.
Proof.
  assert (Hp : validProvider IEX) by (by left).
  split; [exact Hp|].
  exact (proj1 (proj2 (heartbeat_is_no_request IEX 0 Hp))).
Defined.

Lemma append_inj_r (s a b : string) : s +:+ a = s +:+ b → a = b.
Proof. induction s as [|c s IH]; cbn; [done|]. intros [= H]. by apply IH. Qed.

(** X3.  For IEX and for QUODD the URL of the credential exchange tells
    the provider, and the URL of the socket tells the provider and the
    token: two tokens never give the same socket URL. *)
Theorem socket_URL_identifies (p p' : provider) (tok tok' : string) :
  validProvider p → validProvider p' →
  (makeAuthURL p = makeAuthURL p' → p = p')
  ∧ (makeSoketURL p tok = makeSoketURL p' tok' → p = p' ∧ tok = tok').
Proof.
  intros [-> | ->] [-> | ->]; (split; [try done|]); try (intros H; discriminate H).
  - intros H. split; [done|]. unfold makeSoketURL in H.
    rewrite !decide_True in H by done.
    assert (H' : cIEXWebsocketURL +:+ "?vsn=1.0.0&token=" +:+ tok
                 = cIEXWebsocketURL +:+ "?vsn=1.0.0&token=" +:+ tok')
      by congruence.
    by do 2 apply append_inj_r in H'.
  - intros H. split; [done|]. unfold makeSoketURL in H.
    rewrite !(decide_False (P := QUODD = IEX)), !decide_True in H by done.
    assert (H' : cQUODDWebsocketURL +:+ "/" +:+ tok
                 = cQUODDWebsocketURL +:+ "/" +:+ tok')
      by congruence.
    by do 2 apply append_inj_r in H'.
Qed.

Lemma socket_URL_identifies_witness :
  validProvider IEX ∧ validProvider QUODD
  ∧ (makeSoketURL IEX "a" = makeSoketURL QUODD "b" → IEX = QUODD ∧ "a" = "b").
Proof.
  assert (Hi : validProvider IEX) by (by left).
  assert (Hq : validProvider QUODD) by (by right).
  split; [exact Hi|]. split; [exact Hq|].
  exact (proj2 (socket_URL_identifies IEX QUODD "a" "b" Hi Hq)).
Defined.

(** X27.  For QUODD the join, the leave and the heartbeat message have
    the two fields event and data.  The event is [subscribe],
    [unsubscribe] or [heartbeat]; the data of a join or a leave holds the
    channel as it is given, as ticker, and the event again, as action;
    the data of a heartbeat holds the action [heartbeat] and the clock of
    the tick, as ticker. *)
Theorem QUODD_message_shape (channel : string) (now : Z) :
  ∃ mj ml mh,
    makeJoinMessage QUODD channel = Ok mj
    ∧ makeLeaveMessage QUODD channel = Ok ml
    ∧ makeHeartbeatMessage QUODD now = Ok mh
    ∧ dom mj = list_to_set ["event"; "data"]
    ∧ dom ml = list_to_set ["event"; "data"]
    ∧ dom mh = list_to_set ["event"; "data"]
    ∧ mj !! "event" = Some (VScalar (SStr "subscribe"))
    ∧ ml !! "event" = Some (VScalar (SStr "unsubscribe"))
    ∧ mh !! "event" = Some (VScalar (SStr "heartbeat"))
    ∧ mj !! "data"
      = Some (VMap (<["ticker" := SStr channel]> (<["action" := SStr "subscribe"]> ∅)))
    ∧ ml !! "data"
      = Some (VMap (<["ticker" := SStr channel]> (<["action" := SStr "unsubscribe"]> ∅)))
    ∧ mh !! "data"
      = Some (VMap (<["action" := SStr "heartbeat"]> (<["ticker" := SInt now]> ∅))).
Proof.
  eexists _, _, _.
  split; [reflexivity|]. split; [reflexivity|]. split; [reflexivity|].
  split; [by rewrite !dom_insert_L, dom_empty_L|].
  split; [by rewrite !dom_insert_L, dom_empty_L|].
  split; [by rewrite !dom_insert_L, dom_empty_L|].
  by repeat split.
Qed.

(** ** Calls that change nothing, calls that undo each other *)

Lemma joinAll_padding (chs : list string) (D : gmap string bool) :
  joinAll (TrimSpace <$> chs) D = joinAll chs D.
Proof.
  unfold joinAll. revert D. induction chs as [|c chs IH]; intros D; [done|].
  cbn [fmap list_fmap foldl]. by rewrite TrimSpace_idempotent, IH.
Qed.

Lemma leaveEach_padding (chs : list string) (D : gmap string bool) :
  leaveEach (TrimSpace <$> chs) D = leaveEach chs D.
Proof.
  unfold leaveEach. revert D. induction chs as [|c chs IH]; intros D; [done|].
  cbn [fmap list_fmap foldl]. by rewrite TrimSpace_idempotent, IH.
Qed.

Lemma joinAll_present (chs : list string) (D : gmap string bool) :
  (∀ c, c ∈ chs → TrimSpace c ∈ dom D) → joinAll chs D = D.
Proof.
  unfold joinAll. induction chs as [|c chs IH]; intros H; [done|].
  cbn [foldl].
  destruct (D !! TrimSpace c) eqn:E.
  - apply IH. intros c' Hc'. by apply H, list_elem_of_further.
  - exfalso. apply not_elem_of_dom in E. apply E, H, list_elem_of_here.
Qed.

Lemma joinAll_idempotent (chs : list string) (D : gmap string bool) :
  joinAll chs (joinAll chs D) = joinAll chs D.
Proof.
  apply joinAll_present. intros c Hc.
  rewrite joinAll_dom, elem_of_union, elem_of_list_to_set, list_elem_of_fmap.
  left. by exists c.
Qed.

Lemma leaveEach_gone (chs : list string) (D : gmap string bool) :
  (∀ c, c ∈ chs → TrimSpace c ∉ dom D) → leaveEach chs D = D.
Proof.
  unfold leaveEach. induction chs as [|c chs IH]; intros H; [done|].
  cbn [foldl]. rewrite delete_id.
  - apply IH. intros c' Hc'. by apply H, list_elem_of_further.
  - apply not_elem_of_dom, H, list_elem_of_here.
Qed.

Lemma leaveEach_idempotent (chs : list string) (D : gmap string bool) :
  leaveEach chs (leaveEach chs D) = leaveEach chs D.
Proof.
  apply leaveEach_gone. intros c Hc.
  rewrite leaveEach_dom, elem_of_difference, elem_of_list_to_set, list_elem_of_fmap.
  intros [_ H]. apply H. by exists c.
Qed.

Lemma intend_idempotent (c : call) (D : gmap string bool) :
  intend c (intend c D) = intend c D.
Proof.
  destruct c; cbn [intend];
    [apply joinAll_idempotent | apply leaveEach_idempotent | done].
Qed.

Lemma leaveEach_joinAll (chs : list string) (D : gmap string bool) :
  (∀ c, c ∈ chs → TrimSpace c ∉ dom D) → leaveEach chs (joinAll chs D) = D.
Proof.
  intros H. apply map_eq. intros k.
  destruct (decide (k ∈ (list_to_set (TrimSpace <$> chs) : gset string))) as [Hk|Hk].
  - transitivity (@None bool).
    + apply not_elem_of_dom. rewrite leaveEach_dom, elem_of_difference. tauto.
    + symmetry. apply not_elem_of_dom.
      rewrite elem_of_list_to_set, list_elem_of_fmap in Hk.
      destruct Hk as (c & -> & Hc). by apply H.
  - assert (Hl : ∀ l E, k ∉ (list_to_set (TrimSpace <$> l) : gset string) →
                        leaveEach l E !! k = E !! k).
    { unfold leaveEach. induction l as [|c l IH]; intros E Hl; [done|].
      cbn [foldl]. cbn [fmap list_fmap list_to_set] in Hl.
      rewrite elem_of_union, elem_of_singleton in Hl.
      rewrite IH by tauto. apply lookup_delete_ne.
      intros Heq. symmetry in Heq. tauto. }
    assert (Hj : ∀ l E, k ∉ (list_to_set (TrimSpace <$> l) : gset string) →
                        joinAll l E !! k = E !! k).
    { unfold joinAll. induction l as [|c l IH]; intros E Hj; [done|].
      cbn [foldl]. cbn [fmap list_fmap list_to_set] in Hj.
      rewrite elem_of_union, elem_of_singleton in Hj.
      rewrite IH by tauto.
      destruct (E !! TrimSpace c); [done|].
      apply lookup_insert_ne. intros Heq. symmetry in Heq. tauto. }
    by rewrite Hl, Hj.
Qed.

Section CallsTwice.

Variable rangeOrder : nat → gmap string bool → list string.

(** X4.  White space around a channel name does not matter: [Join] and
    [Leave] with the trimmed names are the calls with the names as
    given, in every state. *)
Theorem padding_ignored (chs : list string) (w : world) :
  Join rangeOrder (TrimSpace <$> chs) w = Join rangeOrder chs w
  ∧ Leave rangeOrder (TrimSpace <$> chs) w = Leave rangeOrder chs w.
Proof.
  by rewrite !Join_unfold, !Leave_unfold, joinAll_padding, leaveEach_padding.
Qed.

Hypothesis rangeOrder_perm :
  ∀ n (m : gmap string bool), rangeOrder n m ≡ₚ (map_to_list m).*1.

Lemma filter_absent_nil (n : nat) (m m' : gmap string bool) :
  dom m ⊆ dom m' → filter (absent m') (rangeOrder n m) = [].
Proof.
  intros Hsub. apply elem_of_nil_inv. intros k.
  rewrite (filter_absent_elem rangeOrder rangeOrder_perm), elem_of_difference.
  intros [Hk Hk']. by apply Hk', Hsub.
Qed.

(** A pass when the joined set is the desired set sends nothing. *)
Lemma passEvents_settled (w : world) :
  dom (joinedChannels (self w)) = dom (channels (self w)) →
  passEvents rangeOrder w = [].
Proof.
  intros H. unfold passEvents, passJoins, passLeaves.
  by rewrite !filter_absent_nil by (by rewrite H).
Qed.

(** X5.  On a working connection every call is idempotent: the same
    [Join], [Leave] or [LeaveAll] made again right after itself returns,
    sends nothing and leaves the client as it is. *)
Theorem perform_idempotent (c : call) (w : world) :
  online w → validProvider (provider_ (self w)) →
  ∃ w1 tr w2,
    perform rangeOrder c w = (Ok tt, w1, tr)
    ∧ perform rangeOrder c w1 = (Ok tt, w2, [])
    ∧ self w2 = self w1.
Proof.
  intros Hon Hp.
  pose proof (perform_online rangeOrder c w Hon Hp) as H1.
  set (w1 := passState rangeOrder (intended c w)) in *.
  assert (Hon1 : online w1) by (by apply passState_online, intended_online).
  assert (Hp1 : validProvider (provider_ (self w1))) by (by destruct w as [[] ? ?]).
  assert (HD1 : channels (self w1) = intend c (channels (self w)))
    by (by destruct w as [[] ? ?]).
  assert (HJ1 : joinedChannels (self w1) = (λ _, true) <$> intend c (channels (self w))).
  { unfold w1. rewrite (passState_joined rangeOrder rangeOrder_perm).
    by destruct w as [[] ? ?]. }
  assert (Hsame : self (intended c w1) = self w1).
  { unfold intended. cbn [self]. rewrite HD1, intend_idempotent, <- HD1.
    by destruct (self w1). }
  exists w1, (passEvents rangeOrder (intended c w)), (passState rangeOrder (intended c w1)).
  split; [exact H1|].
  rewrite (perform_online rangeOrder c w1 Hon1 Hp1).
  split.
  - f_equal. apply passEvents_settled. rewrite Hsame, HJ1, HD1. apply dom_fmap_L.
  - unfold passState. cbn [self]. rewrite markAll_range by done.
    rewrite Hsame. rewrite HD1 at 1. rewrite <- HJ1. by destruct (self w1).
Qed.

(** X6.  [LeaveAll] on a working connection returns with both sets
    empty; it sends exactly one leave message for each channel of the
    joined set, and no join message. *)
Theorem LeaveAll_leaves_all (w : world) :
  online w → validProvider (provider_ (self w)) →
  ∃ w' tr,
    LeaveAll rangeOrder w = (Ok tt, w', tr)
    ∧ channels (self w') = ∅
    ∧ joinedChannels (self w') = ∅
    ∧ ∀ k, countJoins (provider_ (self w)) k tr = 0
           ∧ countLeaves (provider_ (self w)) k tr
             = if decide (k ∈ dom (joinedChannels (self w))) then 1 else 0.
Proof.
  intros Hon Hp.
  pose proof (perform_online rangeOrder CLeaveAll w Hon Hp) as H1.
  set (w0 := intended CLeaveAll w) in *.
  assert (Hp0 : provider_ (self w0) = provider_ (self w)) by (by destruct w as [[] ? ?]).
  assert (HJ0 : joinedChannels (self w0) = joinedChannels (self w))
    by (by destruct w as [[] ? ?]).
  assert (HD0 : channels (self w0) = ∅) by (by destruct w as [[] ? ?]).
  exists (passState rangeOrder w0), (passEvents rangeOrder w0).
  split; [exact H1|].
  split; [by destruct w as [[] ? ?]|].
  split.
  { rewrite (passState_joined rangeOrder rangeOrder_perm), HD0. apply fmap_empty. }
  intros k. rewrite <- Hp0.
  rewrite (countJoins_pass rangeOrder rangeOrder_perm),
          (countLeaves_pass rangeOrder rangeOrder_perm) by (by rewrite Hp0).
  rewrite HD0, HJ0, dom_empty_L. split.
  - rewrite decide_False; [done|]. rewrite elem_of_difference, elem_of_empty. tauto.
  - apply decide_ext. rewrite elem_of_difference, elem_of_empty. tauto.
Qed.

(** X7.  [Leave] undoes [Join].  On a working connection, for channels
    none of which is desired, [Join] followed by [Leave] of the same
    channels gives back the desired set, which is then also the joined
    set; over the two calls each of the channels gets exactly one leave
    message, and one join message unless it was joined before. *)
Theorem Leave_undoes_Join (chs : list string) (w : world) :
  online w → validProvider (provider_ (self w)) →
  (∀ c, c ∈ chs → TrimSpace c ∉ dom (channels (self w))) →
  ∃ w1 tr1 w2 tr2,
    Join rangeOrder chs w = (Ok tt, w1, tr1)
    ∧ Leave rangeOrder chs w1 = (Ok tt, w2, tr2)
    ∧ channels (self w2) = channels (self w)
    ∧ dom (joinedChannels (self w2)) = dom (channels (self w))
    ∧ ∀ k, k ∈ TrimSpace <$> chs →
           countLeaves (provider_ (self w)) k (tr1 ++ tr2) = 1
           ∧ countJoins (provider_ (self w)) k (tr1 ++ tr2)
             = if decide (k ∈ dom (joinedChannels (self w))) then 0 else 1.
Proof.
  intros Hon Hp Hnew.
  destruct (perform_counts rangeOrder rangeOrder_perm (CJoin chs) w "" Hon Hp)
    as (w1 & tr1 & Hrun1 & Hon1 & Hp1 & HD1 & HJ1 & _ & _).
  assert (Hp1' : validProvider (provider_ (self w1))) by (by rewrite Hp1).
  destruct (perform_counts rangeOrder rangeOrder_perm (CLeave chs) w1 "" Hon1 Hp1')
    as (w2 & tr2 & Hrun2 & Hon2 & Hp2 & HD2 & HJ2 & _ & _).
  cbn [intend] in *.
  assert (Hback : leaveEach chs (channels (self w1)) = channels (self w))
    by (rewrite HD1; by apply leaveEach_joinAll).
  exists w1, tr1, w2, tr2.
  split; [exact Hrun1|]. split; [exact Hrun2|].
  split; [by rewrite HD2|]. split; [by rewrite HJ2, Hback|].
  intros k Hk.
  destruct (perform_counts rangeOrder rangeOrder_perm (CJoin chs) w k Hon Hp)
    as (w1' & tr1' & Hrun1' & _ & _ & _ & _ & Hcj1 & Hcl1).
  destruct (perform_counts rangeOrder rangeOrder_perm (CLeave chs) w1 k Hon1 Hp1')
    as (w2' & tr2' & Hrun2' & _ & _ & _ & _ & Hcj2 & Hcl2).
  cbn [perform] in *.
  assert (tr1' = tr1) as -> by congruence.
  assert (tr2' = tr2) as -> by congruence.
  rewrite Hp1 in Hcj2, Hcl2. cbn [intend] in *.
  rewrite countJoins_app, countLeaves_app, Hcj1, Hcl1, Hcj2, Hcl2.
  rewrite Hback, HJ1.
  assert (HkD : k ∉ dom (channels (self w))).
  { apply list_elem_of_fmap in Hk. destruct Hk as (c & -> & Hc). by apply Hnew. }
  assert (HkJ : k ∈ dom (joinAll chs (channels (self w)))).
  { rewrite joinAll_dom, elem_of_union, elem_of_list_to_set. by left. }
  split.
  - rewrite (decide_False (P := k ∈ dom (joinedChannels (self w)) ∖ _)),
            (decide_True (P := k ∈ dom (joinAll chs _) ∖ _)); [done| |];
      rewrite elem_of_difference; tauto.
  - rewrite (decide_False (P := k ∈ dom (channels (self w)) ∖ _))
      by (rewrite elem_of_difference; tauto).
    rewrite Nat.add_0_r.
    destruct (decide (k ∈ dom (joinedChannels (self w)))).
    + rewrite decide_False; [done|]. rewrite elem_of_difference. tauto.
    + rewrite decide_True; [done|]. by rewrite elem_of_difference.
Qed.

End CallsTwice.

Lemma perform_idempotent_witness :
  online connectedIEX ∧ validProvider (provider_ (self connectedIEX))
  ∧ ∃ w1 tr w2,
      perform keyOrder (CJoin ["AAPL"; "MSFT"]) connectedIEX = (Ok tt, w1, tr)
      ∧ perform keyOrder (CJoin ["AAPL"; "MSFT"]) w1 = (Ok tt, w2, [])
      ∧ self w2 = self w1.
Proof.
  assert (Hp : validProvider (provider_ (self connectedIEX))) by (by left).
  split; [exact connectedIEX_online|]. split; [exact Hp|].
  exact (perform_idempotent keyOrder keyOrder_perm (CJoin ["AAPL"; "MSFT"])
           connectedIEX connectedIEX_online Hp).
Defined.

Lemma demoWorld_online : online demoWorld.
Proof. by repeat split. Qed.

Lemma LeaveAll_leaves_all_witness :
  online demoWorld ∧ validProvider (provider_ (self demoWorld))
  ∧ ∃ w' tr,
      LeaveAll keyOrder demoWorld = (Ok tt, w', tr)
      ∧ channels (self w') = ∅
      ∧ joinedChannels (self w') = ∅.
Proof.
  assert (Hp : validProvider (provider_ (self demoWorld))) by (by left).
  split; [exact demoWorld_online|]. split; [exact Hp|].
  destruct (LeaveAll_leaves_all keyOrder keyOrder_perm demoWorld demoWorld_online Hp)
    as (w' & tr & Hrun & HD & HJ & _).
  exists w', tr. split; [exact Hrun|]. split; [exact HD | exact HJ].
Defined.

Lemma Leave_undoes_Join_witness :
  online connectedIEX ∧ validProvider (provider_ (self connectedIEX))
  ∧ ∃ w1 tr1 w2 tr2,
      Join keyOrder [" AAPL"; "MSFT "] connectedIEX = (Ok tt, w1, tr1)
      ∧ Leave keyOrder [" AAPL"; "MSFT "] w1 = (Ok tt, w2, tr2)
      ∧ channels (self w2) = channels (self connectedIEX).
Proof.
  assert (Hp : validProvider (provider_ (self connectedIEX))) by (by left).
  assert (Hnew : ∀ c, c ∈ [" AAPL"; "MSFT "] →
                      TrimSpace c ∉ dom (channels (self connectedIEX))).
  { intros c _. cbn. rewrite dom_empty_L. apply not_elem_of_empty. }
  split; [exact connectedIEX_online|]. split; [exact Hp|].
  destruct (Leave_undoes_Join keyOrder keyOrder_perm [" AAPL"; "MSFT "] connectedIEX
              connectedIEX_online Hp Hnew)
    as (w1 & tr1 & w2 & tr2 & Hrun1 & Hrun2 & HD & _).
  exists w1, tr1, w2, tr2. split; [exact Hrun1|]. split; [exact Hrun2 | exact HD].
Defined.

(** *** The order of the [range] loops *)

Lemma revOrder_perm (n : nat) (m : gmap string bool) :
  revOrder n m ≡ₚ (map_to_list m).*1.
Proof. apply reverse_Permutation. Qed.

(** X8.  The order in which Go ranges over the two maps changes the order
    of the messages of a pass and nothing else: on a working connection,
    two passes from the same state, with whatever orders, leave the same
    client and send the same messages, each as often. *)
Theorem range_order_irrelevant (order1 order2 : nat → gmap string bool → list string)
    (w : world) :
  (∀ n (m : gmap string bool), order1 n m ≡ₚ (map_to_list m).*1) →
  (∀ n (m : gmap string bool), order2 n m ≡ₚ (map_to_list m).*1) →
  online w → validProvider (provider_ (self w)) →
  ∃ w1 tr1 w2 tr2,
    refreshChannels order1 w = (Ok tt, w1, tr1)
    ∧ refreshChannels order2 w = (Ok tt, w2, tr2)
    ∧ self w1 = self w2
    ∧ tr1 ≡ₚ tr2.
Proof.
  intros H1 H2 Hon Hp.
  exists (passState order1 w), (passEvents order1 w),
    (passState order2 w), (passEvents order2 w).
  split; [by apply refreshChannels_online|].
  split; [by apply refreshChannels_online|].
  split.
  - unfold passState. cbn [self]. by rewrite !markAll_range.
  - unfold passEvents, passJoins, passLeaves.
    rewrite (filter_absent_perm order1 H1), (filter_absent_perm order2 H2).
    rewrite (filter_absent_perm order1 H1), (filter_absent_perm order2 H2).
    done.
Qed.

Lemma range_order_irrelevant_witness :
  online demoWorld ∧ validProvider (provider_ (self demoWorld))
  ∧ ∃ w1 tr1 w2 tr2,
      refreshChannels keyOrder demoWorld = (Ok tt, w1, tr1)
      ∧ refreshChannels revOrder demoWorld = (Ok tt, w2, tr2)
      ∧ self w1 = self w2
      ∧ tr1 ≡ₚ tr2.
Proof.
  assert (Hp : validProvider (provider_ (self demoWorld))) by (by left).
  split; [exact demoWorld_online|]. split; [exact Hp|].
  exact (range_order_irrelevant keyOrder revOrder demoWorld keyOrder_perm
           revOrder_perm demoWorld_online Hp).
Defined.

(** ** [Connect], case by case *)

Lemma bind_debug {B : Type} (text : string) (f : unit → M B) (w : world) :
  (debug text ≫= f) w
  = (let '(r, w2, e2) := f tt w in (r, w2, printed w text ++ e2)).
Proof.
  unfold debug, printed. unfold mbind at 1, M_bind at 1, bind at 1.
  rewrite bind_getCli. destruct (DebugMode (self w)); cbn;
    by destruct (f tt w) as [[r w2] e2].
Qed.


Lemma refreshToken_refused (reply : http_reply) (e : error) (url : string) (w : world) :
  makeAuthURL (provider_ (self w)) = Ok url → refused reply e →
  refreshToken reply w
  = (Ok (Some e), w, [EvHttpGet url (username (self w)) (password (self w))]).
Proof.
  intros Hurl Hr. unfold refreshToken.
  rewrite bind_getCli, Hurl, bind_lift_Ok, bind_emit.
  destruct Hr as [err | status body Hs | err].
  - reflexivity.
  - by rewrite decide_True.
  - reflexivity.
Qed.

Lemma refreshToken_granted (tok : string) (url : string) (w : world) :
  makeAuthURL (provider_ (self w)) = Ok url →
  refreshToken (HttpReply 200 (inr tok)) w
  = (Ok None, mkWorld (set_token tok (self w)) (ranges w) (senderUp w),
     [EvHttpGet url (username (self w)) (password (self w))]).
Proof.
  intros Hurl. unfold refreshToken.
  by rewrite bind_getCli, Hurl, bind_lift_Ok, bind_emit.
Qed.

Lemma Connect_unfold (reply : http_reply) (dialed : error + conn) (w : world) :
  Connect reply dialed w
  = (let '(r, w2, e2) :=
       (refreshToken reply ≫= λ err,
          match err with
          | Some e => ret (Some e)
          | None => refreshWebsocket dialed
          end) (mkWorld (rearmed (self w)) (ranges w) false) in
     (r, w2, printed w "Websocket connecting..." ++ e2)).
Proof.
  unfold Connect. rewrite bind_debug. cbv beta.
  rewrite (bind_Ok _ _ _ _ _ _ (channelInitialize_run _)).
  fold (rearmed (self w)).
  by destruct ((refreshToken reply ≫= _ : M (option error))
                (mkWorld (rearmed (self w)) (ranges w) false)) as [[r w2] e2].
Qed.

Lemma refreshWebsocket_offline (dialed : error + conn) (url : string) (w : world) :
  Connected (self w) = false →
  makeSoketURL (provider_ (self w)) (token (self w)) = Ok url →
  refreshWebsocket dialed w
  = match dialed with
    | inl err => (Ok (Some err), w, [EvDial url])
    | inr c =>
        (Ok None, mkWorld (set_ws (Some c) (self w)) (ranges w) true,
         [EvDial url] ++ printed w "Websocket connected"
         ++ [EvGo "startReceiver"; EvGo "startSender"; EvGo "heartbeat"])
    end.
Proof.
  intros Hc Hurl. unfold refreshWebsocket.
  rewrite bind_getCli, Hc, bind_ret, bind_getCli, Hurl, bind_lift_Ok, bind_emit.
  destruct dialed as [err | c]; [reflexivity|].
  rewrite bind_modify. unfold onConnected.
  unfold mbind at 1, M_bind at 1, bind at 1.
  rewrite bind_debug, !bind_emit, bind_setSender. unfold printed.
  destruct w as [[dbg u pw p tok0 ws0 D J qh eh bh bs sd qq cl] n up].
  by destruct dbg.
Qed.

Lemma makeAuthURL_valid (p : provider) :
  validProvider p → ∃ url, makeAuthURL p = Ok url.
Proof. intros [-> | ->]; by eexists. Qed.

Lemma makeSoketURL_valid (p : provider) (tok : string) :
  validProvider p → ∃ url, makeSoketURL p tok = Ok url.
Proof. intros [-> | ->]; by eexists. Qed.

(** X9.  [Connect] on a client of IEX or QUODD that is not connected,
    when the credential exchange is refused (the request fails, the
    status is not 200, or the body cannot be read): the call returns the
    error, which is "Auth failed." for a status other than 200.  It has
    made the four channels anew and sent one request, to the provider's
    URL and with the client's credentials; it has not dialled, started no
    goroutine, and the token and the socket are as before. *)
Theorem Connect_auth_refused (reply : http_reply) (dialed : error + conn)
    (e : error) (w : world) :
  validProvider (provider_ (self w)) → Connected (self w) = false →
  refused reply e →
  ∃ url,
    makeAuthURL (provider_ (self w)) = Ok url
    ∧ Connect reply dialed w
      = (Ok (Some e), mkWorld (rearmed (self w)) (ranges w) false,
         printed w "Websocket connecting..."
         ++ [EvHttpGet url (username (self w)) (password (self w))]).
Proof.
  intros Hp Hc Hr. destruct (makeAuthURL_valid _ Hp) as [url Hurl].
  exists url. split; [exact Hurl|].
  rewrite Connect_unfold.
  erewrite bind_Ok; [|apply refreshToken_refused with (e := e) (url := url); done].
  reflexivity.
Qed.

Lemma Connect_auth_refused_witness :
  validProvider (provider_ (self (boot (New "user" "secret" IEX))))
  ∧ Connected (self (boot (New "user" "secret" IEX))) = false
  ∧ refused (HttpReply 401 (inr "denied")) "Auth failed."
  ∧ ∃ url,
      makeAuthURL (provider_ (self (boot (New "user" "secret" IEX)))) = Ok url
      ∧ Connect (HttpReply 401 (inr "denied")) (inr 1%nat)
          (boot (New "user" "secret" IEX))
        = (Ok (Some "Auth failed."),
           mkWorld (rearmed (self (boot (New "user" "secret" IEX))))
             (ranges (boot (New "user" "secret" IEX))) false,
           printed (boot (New "user" "secret" IEX)) "Websocket connecting..."
           ++ [EvHttpGet url (username (self (boot (New "user" "secret" IEX))))
                 (password (self (boot (New "user" "secret" IEX))))]).
Proof.
  assert (Hp : validProvider (provider_ (self (boot (New "user" "secret" IEX)))))
    by (by left).
  assert (Hs : (401 ≠ 200)%Z) by lia.
  assert (Hr : refused (HttpReply 401 (inr "denied")) "Auth failed.")
    by exact (refused_status 401 (inr "denied") Hs).
  split; [exact Hp|]. split; [reflexivity|]. split; [exact Hr|].
  exact (Connect_auth_refused (HttpReply 401 (inr "denied")) (inr 1%nat)
           "Auth failed." (boot (New "user" "secret" IEX)) Hp eq_refl Hr).
Defined.

(** X10.  [Connect] on a client of IEX or QUODD that is not connected,
    when the token is granted and the dial fails: the call returns the
    error of the dial.  It has stored the token and dialled the socket
    URL made from that token, after the request for it; no goroutine is
    started and the client is not connected. *)
Theorem Connect_dial_refused (tok : string) (err : error) (w : world) :
  validProvider (provider_ (self w)) → Connected (self w) = false →
  ∃ authURL socketURL,
    makeAuthURL (provider_ (self w)) = Ok authURL
    ∧ makeSoketURL (provider_ (self w)) tok = Ok socketURL
    ∧ Connect (HttpReply 200 (inr tok)) (inl err) w
      = (Ok (Some err),
         mkWorld (set_token tok (rearmed (self w))) (ranges w) false,
         printed w "Websocket connecting..."
         ++ [EvHttpGet authURL (username (self w)) (password (self w));
             EvDial socketURL]).
Proof.
  intros Hp Hc. destruct (makeAuthURL_valid _ Hp) as [authURL Ha].
  destruct (makeSoketURL_valid _ tok Hp) as [socketURL Hs].
  exists authURL, socketURL. split; [exact Ha|]. split; [exact Hs|].
  rewrite Connect_unfold.
  erewrite bind_Ok; [|by apply refreshToken_granted with (url := authURL)].
  cbv beta iota. cbn [self ranges senderUp].
  rewrite (refreshWebsocket_offline _ socketURL); [reflexivity|done..].
Qed.

Lemma Connect_dial_refused_witness :
  validProvider (provider_ (self (boot (New "user" "secret" QUODD))))
  ∧ Connected (self (boot (New "user" "secret" QUODD))) = false
  ∧ ∃ w' tr,
      Connect (HttpReply 200 (inr "token")) (inl "bad handshake")
        (boot (New "user" "secret" QUODD))
      = (Ok (Some "bad handshake"), w', tr)
      ∧ token (self w') = "token" ∧ Connected (self w') = false.
Proof.
  assert (Hp : validProvider (provider_ (self (boot (New "user" "secret" QUODD)))))
    by (by right).
  split; [exact Hp|]. split; [reflexivity|].
  destruct (Connect_dial_refused "token" "bad handshake"
              (boot (New "user" "secret" QUODD)) Hp eq_refl)
    as (authURL & socketURL & _ & _ & Hrun).
  eexists _, _. split; [exact Hrun|]. split; reflexivity.
Defined.

(** X11.  [Connect] on a client of IEX or QUODD that is not connected,
    when the token is granted and the dial succeeds: the call returns
    [nil].  It has made the four channels anew, requested the token,
    dialled the socket URL made from it and started the receiver, the
    sender and the heartbeat, in this order; the client holds the token
    and the socket, and the connection works. *)
Theorem Connect_connects (tok : string) (cn : conn) (w : world) :
  validProvider (provider_ (self w)) → Connected (self w) = false →
  ∃ authURL socketURL w',
    makeAuthURL (provider_ (self w)) = Ok authURL
    ∧ makeSoketURL (provider_ (self w)) tok = Ok socketURL
    ∧ Connect (HttpReply 200 (inr tok)) (inr cn) w
      = (Ok None, w',
         printed w "Websocket connecting..."
         ++ [EvHttpGet authURL (username (self w)) (password (self w));
             EvDial socketURL]
         ++ printed w "Websocket connected"
         ++ [EvGo "startReceiver"; EvGo "startSender"; EvGo "heartbeat"])
    ∧ self w' = set_ws (Some cn) (set_token tok (rearmed (self w)))
    ∧ ranges w' = ranges w
    ∧ serving w' ∧ online w'.
Proof.
  intros Hp Hc. destruct (makeAuthURL_valid _ Hp) as [authURL Ha].
  destruct (makeSoketURL_valid _ tok Hp) as [socketURL Hs].
  exists authURL, socketURL,
    (mkWorld (set_ws (Some cn) (set_token tok (rearmed (self w)))) (ranges w) true).
  split; [exact Ha|]. split; [exact Hs|]. split.
  - rewrite Connect_unfold.
    erewrite bind_Ok; [|by apply refreshToken_granted with (url := authURL)].
    cbv beta iota. cbn [self ranges senderUp].
    rewrite (refreshWebsocket_offline _ socketURL); [reflexivity|done..].
  - by repeat split.
Qed.

Lemma Connect_connects_witness :
  validProvider (provider_ (self (boot (New "user" "secret" IEX))))
  ∧ Connected (self (boot (New "user" "secret" IEX))) = false
  ∧ ∃ w' tr,
      Connect (HttpReply 200 (inr "token")) (inr 1%nat)
        (boot (New "user" "secret" IEX))
      = (Ok None, w', tr)
      ∧ online w'.
Proof.
  assert (Hp : validProvider (provider_ (self (boot (New "user" "secret" IEX)))))
    by (by left).
  split; [exact Hp|]. split; [reflexivity|].
  destruct (Connect_connects "token" 1%nat (boot (New "user" "secret" IEX)) Hp eq_refl)
    as (authURL & socketURL & w' & _ & _ & Hrun & _ & _ & _ & Hon).
  eexists _, _. split; [exact Hrun | exact Hon].
Defined.

(** *** Connecting and disconnecting leave the subscriptions alone *)

Lemma same_subscriptions_onSubscriptions (w : world) :
  onSubscriptions (λ w0, subscriptions w0 = subscriptions w).
Proof. intros w1 w2 Heq H. congruence. Qed.

(** X12.  [Connect] sends no message on the queue, whatever the state and
    whatever the network answers, also when it panics or blocks; when it
    returns, the desired set, the joined set and the provider are as
    before.  It joins no channel. *)
Theorem Connect_keeps_subscriptions (reply : http_reply) (dialed : error + conn)
    (w : world) :
  Forall notSend (eventsOf (Connect reply dialed) w)
  ∧ ∀ e w' tr, Connect reply dialed w = (Ok e, w', tr) →
      channels (self w') = channels (self w)
      ∧ joinedChannels (self w') = joinedChannels (self w)
      ∧ provider_ (self w') = provider_ (self w).
Proof.
  pose proof (Connect_frame _ reply dialed (same_subscriptions_onSubscriptions w)) as H.
  split.
  - exact (triple_events _ _ _ _ w H eq_refl).
  - intros e w' tr Hrun.
    pose proof (triple_returns _ _ _ _ _ _ _ _ H eq_refl Hrun) as Hs.
    unfold subscriptions in Hs. by simplify_eq.
Qed.

(** ** [Disconnect], step by step *)


Lemma connectedIEX_serving : serving connectedIEX.
Proof. by repeat split. Qed.


(** X14.  [Disconnect] sends no message on the queue, whatever the state,
    also when it panics or blocks: no channel is left on the way out.
    When it returns, the desired set, the joined set and the provider are
    as before. *)
Theorem Disconnect_keeps_subscriptions (w : world) :
  Forall notSend (eventsOf Disconnect w)
  ∧ ∀ e w' tr, Disconnect w = (Ok e, w', tr) →
      channels (self w') = channels (self w)
      ∧ joinedChannels (self w') = joinedChannels (self w)
      ∧ provider_ (self w') = provider_ (self w).
Proof.
  pose proof (Disconnect_frame _ (same_subscriptions_onSubscriptions w)) as H.
  split.
  - exact (triple_events _ _ _ _ w H eq_refl).
  - intros e w' tr Hrun.
    pose proof (triple_returns _ _ _ _ _ _ _ _ H eq_refl Hrun) as Hs.
    unfold subscriptions in Hs. by simplify_eq.
Qed.

Lemma Disconnect_idempotent_witness :
  reachable keyOrder connectedIEX
  ∧ ∀ e w' tr,
      Disconnect connectedIEX = (Ok e, w', tr) →
      e = None ∧ Disconnect w' = (Ok None, w', []).
Proof.
  split; [exact connectedIEX_reachable|].
  exact (proj2 (proj2 (Disconnect_idempotent keyOrder connectedIEX
                         connectedIEX_reachable))).
Defined.

(** *** Connecting again *)

Lemma Disconnect_serving (cn : conn) (w : world) :
  ws (self w) = Some cn → serving w →
  ∃ tr, Disconnect w = (Ok None, mkWorld (tornDown (self w)) (ranges w) false, tr).
Proof.
  destruct w as [[dbg u pw p tok0 ws0 D J qh eh bh bs sd qq cl] n up].
  unfold serving. cbn. intros -> (-> & -> & -> & -> & -> & ->).
  destruct dbg; eexists; reflexivity.
Qed.

Lemma countJoins_notSend (p : provider) (k : string) (tr : list event) :
  Forall notSend tr → countJoins p k tr = 0.
Proof.
  unfold countJoins. induction 1 as [|e tr He _ IH]; [reflexivity|].
  rewrite filter_cons, decide_False; [exact IH|].
  unfold isJoin, isSend. destruct (makeJoinMessage p k); [|done..].
  by destruct e.
Qed.

Lemma countLeaves_notSend (p : provider) (k : string) (tr : list event) :
  Forall notSend tr → countLeaves p k tr = 0.
Proof.
  intros H. apply countLeaves_notLeave.
  eapply Forall_impl; [exact H|]. intros e. apply notSend_notLeave.
Qed.

Section Reconnecting.

Variable rangeOrder : nat → gmap string bool → list string.

Hypothesis rangeOrder_perm :
  ∀ n (m : gmap string bool), rangeOrder n m ≡ₚ (map_to_list m).*1.

(** X16.  The joined set outlives the connection.  When a served
    connection is closed by [Disconnect], a new one is made by [Connect]
    and a call follows, the three return, and the messages over all of
    them are those of the call alone: a join for each channel that is
    then desired and was not joined before, a leave for each channel that
    was joined and is not desired.  A channel that was joined on the old
    socket and is still desired gets no join message on the new one. *)
Theorem reconnect_keeps_joined (tok : string) (cn cn' : conn) (c : call) (w : world) :
  validProvider (provider_ (self w)) → ws (self w) = Some cn → serving w →
  ∃ w' tr,
    (Disconnect ;; Connect (HttpReply 200 (inr tok)) (inr cn') ;;
     perform rangeOrder c) w = (Ok tt, w', tr)
    ∧ ws (self w') = Some cn'
    ∧ channels (self w') = intend c (channels (self w))
    ∧ ∀ k,
        countJoins (provider_ (self w)) k tr
        = (if decide (k ∈ dom (intend c (channels (self w)))
                        ∖ dom (joinedChannels (self w))) then 1 else 0)
        ∧ countLeaves (provider_ (self w)) k tr
          = (if decide (k ∈ dom (joinedChannels (self w))
                          ∖ dom (intend c (channels (self w)))) then 1 else 0).
Proof.
  intros Hp Hws Hserv.
  destruct (Disconnect_serving cn w Hws Hserv) as [tr1 H1].
  set (w1 := mkWorld (tornDown (self w)) (ranges w) false) in *.
  assert (Hp1 : validProvider (provider_ (self w1))) by done.
  destruct (Connect_success tok cn' w1 eq_refl Hp1) as [tr2 H2].
  match type of H2 with _ = (_, ?s, _) => set (w2 := s) in * end.
  assert (Hon2 : online w2) by (by repeat split).
  assert (HD2 : channels (self w2) = channels (self w)) by done.
  assert (HJ2 : joinedChannels (self w2) = joinedChannels (self w)) by done.
  assert (Hp2 : provider_ (self w2) = provider_ (self w)) by done.
  assert (Hp2' : validProvider (provider_ (self w2))) by (by rewrite Hp2).
  assert (Hns : Forall notSend (eventsOf Disconnect w)
                ∧ Forall notSend
                    (eventsOf (Connect (HttpReply 200 (inr tok)) (inr cn')) w1)).
  { split.
    - exact (triple_events _ _ _ _ w (Disconnect_frame (λ _, True) ltac:(done)) I).
    - exact (triple_events _ _ _ _ w1
               (Connect_frame (λ _, True) _ _ ltac:(done)) I). }
  unfold eventsOf in Hns. rewrite H1, H2 in Hns. cbn [snd] in Hns.
  destruct Hns as [Hns1 Hns2].
  exists (passState rangeOrder (intended c w2)),
    (tr1 ++ tr2 ++ passEvents rangeOrder (intended c w2)).
  split.
  { rewrite (bind_Ok _ _ _ _ _ _ H1), (bind_Ok _ _ _ _ _ _ H2).
    by rewrite (perform_online rangeOrder c w2 Hon2 Hp2'). }
  split; [done|]. split; [done|].
  intros k.
  destruct (perform_counts rangeOrder rangeOrder_perm c w2 k Hon2 Hp2')
    as (w3 & tr3 & Hrun3 & _ & _ & _ & _ & Hcj & Hcl).
  rewrite (perform_online rangeOrder c w2 Hon2 Hp2') in Hrun3.
  injection Hrun3 as _ Htr3. rewrite Htr3.
  rewrite !countJoins_app, !countLeaves_app.
  rewrite (countJoins_notSend _ _ _ Hns1), (countJoins_notSend _ _ _ Hns2).
  rewrite (countLeaves_notSend _ _ _ Hns1), (countLeaves_notSend _ _ _ Hns2).
  cbn [Nat.add]. rewrite <- Hp2, Hcj, Hcl, HD2, HJ2. done.
Qed.

End Reconnecting.

Lemma demoWorld_serving : serving demoWorld.
Proof. by repeat split. Qed.

Lemma reconnect_keeps_joined_witness :
  validProvider (provider_ (self demoWorld))
  ∧ ws (self demoWorld) = Some 1%nat ∧ serving demoWorld
  ∧ ∃ w' tr,
      (Disconnect ;; Connect (HttpReply 200 (inr "token")) (inr 2%nat) ;;
       perform keyOrder (CJoin ["MSFT"])) demoWorld = (Ok tt, w', tr)
      ∧ ws (self w') = Some 2%nat.
Proof.
  assert (Hp : validProvider (provider_ (self demoWorld))) by (by left).
  split; [exact Hp|]. split; [reflexivity|]. split; [exact demoWorld_serving|].
  destruct (reconnect_keeps_joined keyOrder keyOrder_perm "token" 1%nat 2%nat
              (CJoin ["MSFT"]) demoWorld Hp eq_refl demoWorld_serving)
    as (w' & tr & Hrun & Hws & _).
  exists w', tr. split; [exact Hrun | exact Hws].
Defined.

(** ** Orderly use *)

Section OrderlyUseFacts.

Variable rangeOrder : nat → gmap string bool → list string.









End OrderlyUseFacts.



(** ** The heartbeat among the calls *)

Lemma isJoin_beat (p : provider) (k : string) (now : Z) :
  validProvider p → isJoin p k (EvSend (heartbeatMsg p now)) = false.
Proof.
  intros Hp. unfold isJoin, isSend. rewrite makeJoinMessage_valid by done.
  apply bool_decide_eq_false. intros [= H]. by apply (heartbeatMsg_joinMsg p now k).
Qed.

Lemma isLeave_beat (p : provider) (k : string) (now : Z) :
  validProvider p → isLeave p k (EvSend (heartbeatMsg p now)) = false.
Proof.
  intros Hp. unfold isLeave, isSend. rewrite makeLeaveMessage_valid by done.
  apply bool_decide_eq_false. intros [= H]. by apply (heartbeatMsg_leaveMsg p now k).
Qed.

Lemma heartbeatTick_online (now : Z) (w : world) :
  online w → validProvider (provider_ (self w)) →
  heartbeatTick now w = (Ok tt, w, [EvSend (heartbeatMsg (provider_ (self w)) now)]).
Proof.
  intros (_ & Hq & Hs) Hp. unfold heartbeatTick.
  rewrite bind_getCli, makeHeartbeatMessage_valid, bind_lift_Ok by done.
  unfold sendQ. by rewrite Hq, Hs.
Qed.

(** The messages of a pass are no heartbeats. *)
Lemma isBeat_pass (rangeOrder : nat → gmap string bool → list string) (w : world) :
  validProvider (provider_ (self w)) →
  filter (λ e, isBeat e = true) (passEvents rangeOrder w) = [].
Proof.
  intros Hp. unfold passEvents. rewrite filter_app.
  assert (Hj : ∀ ks, filter (λ e, isBeat e = true)
                 ((λ k, EvSend (joinMsg (provider_ (self w)) k)) <$> ks) = []).
  { induction ks as [|k ks IH]; [done|]. cbn [fmap list_fmap].
    rewrite filter_cons, decide_False; [exact IH|].
    cbn [isBeat]. rewrite lookup_event_join by done.
    rewrite bool_decide_eq_false_2; [done|]. unfold joinEvent. by case_decide. }
  assert (Hl : ∀ ks, filter (λ e, isBeat e = true)
                 ((λ k, EvSend (leaveMsg (provider_ (self w)) k)) <$> ks) = []).
  { induction ks as [|k ks IH]; [done|]. cbn [fmap list_fmap].
    rewrite filter_cons, decide_False; [exact IH|].
    cbn [isBeat]. rewrite lookup_event_leave by done.
    rewrite bool_decide_eq_false_2; [done|]. unfold leaveEvent. by case_decide. }
  by rewrite Hj, Hl.
Qed.

Section TurnFacts.

Variable rangeOrder : nat → gmap string bool → list string.

Hypothesis rangeOrder_perm :
  ∀ n (m : gmap string bool), rangeOrder n m ≡ₚ (map_to_list m).*1.

Lemma takeTurns_cons (t : turn) (ts : list turn) (w w1 : world) (e1 : list event) :
  takeTurn rangeOrder t w = (Ok tt, w1, e1) →
  takeTurns rangeOrder (t :: ts) w
  = (let '(r, w2, e2) := takeTurns rangeOrder ts w1 in (r, w2, e1 ++ e2)).
Proof.
  intros H.
  exact (bind_Ok (takeTurn rangeOrder t) (λ _, forEach ts (takeTurn rangeOrder))
           w w1 tt e1 H).
Qed.

Lemma takeTurns_online (ts : list turn) (w : world) :
  online w → validProvider (provider_ (self w)) →
  ∃ w' tr,
    takeTurns rangeOrder ts w = (Ok tt, w', tr)
    ∧ online w'
    ∧ provider_ (self w') = provider_ (self w)
    ∧ channels (self w') = foldl (λ D k, intend k D) (channels (self w)) (callsOf ts)
    ∧ (callsOf ts ≠ [] ∨ dom (joinedChannels (self w)) = dom (channels (self w)) →
       dom (joinedChannels (self w')) = dom (channels (self w')))
    ∧ (∀ k, outstanding (provider_ (self w)) k
              (bool_decide (k ∈ dom (joinedChannels (self w)))) tr
            = bool_decide (k ∈ dom (joinedChannels (self w'))))
    ∧ filter (λ e, isBeat e = true) tr
      = (λ now, EvSend (heartbeatMsg (provider_ (self w)) now)) <$> beatsOf ts.
Proof.
  revert w. induction ts as [|[c|now] ts IH]; intros w Hon Hp.
  - exists w, []. split; [reflexivity|]. split; [exact Hon|].
    split; [reflexivity|]. split; [reflexivity|].
    split; [by intros [[]|]|]. split; reflexivity.
  - pose proof (perform_online rangeOrder c w Hon Hp) as Hc.
    set (w0 := intended c w) in *.
    assert (Hp0 : provider_ (self w0) = provider_ (self w))
      by (by destruct w as [[] ? ?]).
    assert (HJ0 : joinedChannels (self w0) = joinedChannels (self w))
      by (by destruct w as [[] ? ?]).
    assert (HD0 : channels (self w0) = intend c (channels (self w)))
      by (by destruct w as [[] ? ?]).
    set (w1 := passState rangeOrder w0) in *.
    assert (Hp1 : provider_ (self w1) = provider_ (self w))
      by (by destruct w as [[] ? ?]).
    assert (HD1 : channels (self w1) = intend c (channels (self w)))
      by (by destruct w as [[] ? ?]).
    assert (HJ1 : dom (joinedChannels (self w1)) = dom (channels (self w1))).
    { rewrite HD1, <- HD0. by apply passState_dom. }
    destruct (IH w1) as (w' & tr & Hrun & Hon' & Hp' & HD' & HJ' & Hout & Hb).
    { by apply passState_online, intended_online. }
    { by rewrite Hp1. }
    exists w', (passEvents rangeOrder w0 ++ tr).
    split; [by rewrite (takeTurns_cons (TCall c) _ _ _ _ Hc), Hrun|].
    split; [done|]. split; [congruence|].
    split; [by rewrite HD', HD1|].
    split; [intros _; apply HJ'; by right|].
    split.
    + intros k. rewrite outstanding_app, <- Hp0, <- HJ0.
      rewrite (outstanding_pass rangeOrder rangeOrder_perm) by (by rewrite Hp0).
      rewrite Hp0, <- Hp1, <- (passState_dom rangeOrder rangeOrder_perm w0).
      apply Hout.
    + rewrite filter_app, isBeat_pass by (by rewrite Hp0).
      cbn [callsOf beatsOf omap]. by rewrite Hb, Hp1.
  - pose proof (heartbeatTick_online now w Hon Hp) as Hc.
    destruct (IH w Hon Hp) as (w' & tr & Hrun & Hon' & Hp' & HD' & HJ' & Hout & Hb).
    exists w', (EvSend (heartbeatMsg (provider_ (self w)) now) :: tr).
    split; [by rewrite (takeTurns_cons (TBeat now) _ _ _ _ Hc), Hrun|].
    split; [done|]. split; [done|]. split; [done|]. split; [done|].
    split.
    + intros k. unfold outstanding. cbn [foldl].
      rewrite isJoin_beat, isLeave_beat by done. apply Hout.
    + rewrite filter_cons, decide_True.
      * cbn [beatsOf omap fmap list_fmap]. by rewrite Hb.
      * cbn [isBeat]. rewrite lookup_event_beat by done.
        by apply bool_decide_eq_true_2.
Qed.

(** X18.  The heartbeat does not disturb the subscriptions.  On a working
    connection, when ticks of the heartbeat fall anywhere between the
    calls of the owner, all of them return; the desired set is what the
    calls alone make it, the channels with an outstanding join are the
    desired ones, and the heartbeat messages on the queue are those of
    the ticks, one for each, in their order. *)
Theorem heartbeats_keep_convergence (ts : list turn) (w : world) :
  online w → validProvider (provider_ (self w)) →
  callsOf ts ≠ [] ∨ dom (joinedChannels (self w)) = dom (channels (self w)) →
  ∃ w' tr,
    takeTurns rangeOrder ts w = (Ok tt, w', tr)
    ∧ channels (self w') = foldl (λ D k, intend k D) (channels (self w)) (callsOf ts)
    ∧ (∀ k, outstanding (provider_ (self w)) k
              (bool_decide (k ∈ dom (joinedChannels (self w)))) tr
            = bool_decide (k ∈ dom (channels (self w'))))
    ∧ ∃ beats,
        Forall2 (λ now e, ∃ m, makeHeartbeatMessage (provider_ (self w)) now = Ok m
                               ∧ e = EvSend m) (beatsOf ts) beats
        ∧ filter (λ e, isBeat e = true) tr = beats.
Proof.
  intros Hon Hp Hstart.
  destruct (takeTurns_online ts w Hon Hp)
    as (w' & tr & Hrun & _ & _ & HD & HJ & Hout & Hb).
  exists w', tr. split; [done|]. split; [done|]. split.
  - intros k. by rewrite Hout, HJ.
  - eexists. split; [|exact Hb].
    clear -Hp. induction (beatsOf ts) as [|now l IH]; constructor; [|exact IH].
    eexists. split; [by apply makeHeartbeatMessage_valid | done].
Qed.

End TurnFacts.

Lemma heartbeats_keep_convergence_witness :
  online connectedIEX ∧ validProvider (provider_ (self connectedIEX))
  ∧ ∃ w' tr,
      takeTurns keyOrder
        [TBeat 3; TCall (CJoin ["AAPL"; "MSFT"]); TBeat 6; TCall (CLeave ["AAPL"])]
        connectedIEX = (Ok tt, w', tr)
      ∧ ∀ k, outstanding (provider_ (self connectedIEX)) k
               (bool_decide (k ∈ dom (joinedChannels (self connectedIEX)))) tr
             = bool_decide (k ∈ dom (channels (self w'))).
Proof.
  assert (Hp : validProvider (provider_ (self connectedIEX))) by (by left).
  assert (Hne : callsOf [TBeat 3; TCall (CJoin ["AAPL"; "MSFT"]); TBeat 6;
                         TCall (CLeave ["AAPL"])] ≠ [])
    by discriminate.
  split; [exact connectedIEX_online|]. split; [exact Hp|].
  destruct (heartbeats_keep_convergence keyOrder keyOrder_perm
              [TBeat 3; TCall (CJoin ["AAPL"; "MSFT"]); TBeat 6;
               TCall (CLeave ["AAPL"])]
              connectedIEX connectedIEX_online Hp (or_introl Hne))
    as (w' & tr & Hrun & _ & Hout & _).
  exists w', tr. split; [exact Hrun | exact Hout].
Defined.

(** ** The goroutines of a connection *)

Lemma quoteCalls_app (a b : list notice) :
  quoteCalls (a ++ b) = quoteCalls a ++ quoteCalls b.
Proof. apply omap_app. Qed.

Lemma errorCalls_app (a b : list notice) :
  errorCalls (a ++ b) = errorCalls a ++ errorCalls b.
Proof. apply omap_app. Qed.


Lemma quoteCalls_onQuote (cli : Client) (a : message) :
  quoteCalls (onQuote cli a)
  = match quoteHander cli with Some f => [(f, a)] | None => [] end.
Proof. unfold onQuote, debugf. by destruct (DebugMode cli), (quoteHander cli). Qed.

Lemma errorCalls_onQuote (cli : Client) (a : message) :
  errorCalls (onQuote cli a) = [].
Proof. unfold onQuote, debugf. by destruct (DebugMode cli), (quoteHander cli). Qed.

Lemma errorCalls_onError (cli : Client) (err : failure) :
  errorCalls (onError cli err)
  = match errorHandler cli with Some f => [(f, err)] | None => [] end.
Proof. unfold onError, debugf. by destruct (DebugMode cli), (errorHandler cli). Qed.

Lemma quoteCalls_onError (cli : Client) (err : failure) :
  quoteCalls (onError cli err) = [].
Proof. unfold onError, debugf. by destruct (DebugMode cli), (errorHandler cli). Qed.


Lemma receiverLoop_connected (quotes : list message) (err : failure) (w : world) :
  Connected (self w) = true →
  receiverLoop quotes err w = (Ok (received (self w) quotes err), w, []).
Proof.
  intros Hc. unfold Connected in Hc.
  destruct (ws (self w)) as [cn|] eqn:Hws; [clear Hc | done].
  assert (Harm : receiverArm w = (Ok tt, w, []))
    by (unfold receiverArm; by rewrite bind_getCli, Hws).
  unfold received. induction quotes as [|a quotes IH]; cbn [receiverLoop].
  - unfold receiverTurn. rewrite (bind_Ok _ _ _ _ _ _ Harm).
    unfold receiverHandle. rewrite bind_getCli.
    by destruct (IsUnexpectedCloseError _ _).
  - erewrite bind_Ok; cycle 1.
    { unfold receiverTurn. rewrite (bind_Ok _ _ _ _ _ _ Harm).
      unfold receiverHandle. by rewrite bind_getCli. }
    erewrite bind_Ok; [|exact IH]. cbn. by rewrite app_assoc.
Qed.

(** X19.  The receiver on a served connection, when the owner makes no
    call meanwhile: the quotes that are read go to the quote handler that
    is registered, each once and in the order of their arrival, and are
    dropped when there is none.  The read that fails ends the loop; the
    error handler is called, once, only for a close error whose code is
    neither 1001 (going away) nor 1006 (abnormal closure); any other
    failure of the read is not reported.  In every case the deferred
    [Disconnect] then tears the connection down as a [Disconnect] of the
    owner would, and the receiver returns. *)
Theorem startReceiver_ends (quotes : list message) (err : failure) (cn : conn)
    (w : world) :
  ws (self w) = Some cn → serving w →
  ∃ ns tr,
    startReceiver quotes err w
    = (Ok ns, mkWorld (tornDown (self w)) (ranges w) false, tr)
    ∧ Disconnect w = (Ok None, mkWorld (tornDown (self w)) (ranges w) false, tr)
    ∧ quoteCalls ns
      = match quoteHander (self w) with
        | Some f => (λ a, (f, a)) <$> quotes
        | None => []
        end
    ∧ errorCalls ns
      = match errorHandler (self w), err with
        | Some f, CloseError code _ =>
            if decide (code = 1001%Z ∨ code = 1006%Z) then [] else [(f, err)]
        | _, _ => []
        end.
Proof.
  intros Hws Hs.
  destruct (Disconnect_serving cn w Hws Hs) as [tr Hd].
  assert (Hc : Connected (self w) = true) by (unfold Connected; by rewrite Hws).
  exists (received (self w) quotes err), tr.
  split; [|split; [exact Hd|split]].
  - unfold startReceiver, deferring.
    rewrite (receiverLoop_connected quotes err w Hc).
    rewrite (bind_Ok _ _ _ _ _ _ Hd). cbn. by rewrite app_nil_r.
  - unfold received. rewrite quoteCalls_app.
    assert (Hq : quoteCalls (if IsUnexpectedCloseError err
                                  [CloseGoingAway; CloseAbnormalClosure]
                             then onError (self w) err else []) = []).
    { destruct (IsUnexpectedCloseError _ _); [apply quoteCalls_onError | done]. }
    rewrite Hq, app_nil_r.
    induction quotes as [|a quotes IH]; [by destruct (quoteHander (self w))|].
    cbn [fmap list_fmap concat]. rewrite quoteCalls_app, quoteCalls_onQuote, IH.
    by destruct (quoteHander (self w)).
  - unfold received. rewrite errorCalls_app.
    assert (Hq : errorCalls (concat (onQuote (self w) <$> quotes)) = []).
    { induction quotes as [|a quotes IH]; [done|].
      cbn [fmap list_fmap concat]. by rewrite errorCalls_app, errorCalls_onQuote, IH. }
    rewrite Hq, app_nil_l.
    destruct err as [code text | text]; cbn [IsUnexpectedCloseError].
    + unfold CloseGoingAway, CloseAbnormalClosure.
      destruct (decide (code = 1001%Z ∨ code = 1006%Z)) as [Hcode | Hcode].
      * rewrite bool_decide_eq_true_2; [by destruct (errorHandler (self w))|].
        rewrite !elem_of_cons. tauto.
      * rewrite bool_decide_eq_false_2.
        -- cbn [negb]. apply errorCalls_onError.
        -- rewrite !elem_of_cons, elem_of_nil. tauto.
    + by destruct (errorHandler (self w)).
Qed.

Lemma startReceiver_ends_witness :
  ws (self connectedIEX) = Some 1%nat ∧ serving connectedIEX
  ∧ ∃ ns tr w',
      startReceiver [joinMsg IEX "AAPL"] (OtherError "i/o timeout") connectedIEX
      = (Ok ns, w', tr)
      ∧ errorCalls ns = [].
Proof.
  split; [reflexivity|]. split; [exact connectedIEX_serving|].
  destruct (startReceiver_ends [joinMsg IEX "AAPL"] (OtherError "i/o timeout")
              1%nat connectedIEX eq_refl connectedIEX_serving)
    as (ns & tr & Hrun & _ & _ & He).
  eexists _, _, _. split; [exact Hrun | exact He].
Defined.

(** X28.  The owner disconnects while the receiver waits in a read.  The
    read then fails, and the receiver returns: its deferred [Disconnect]
    finds the client without socket and does nothing, so that the events
    are those of the owner's [Disconnect] alone and the socket is closed
    once.  No quote is handed over, and the error handler is called only
    if the read failed with a close error whose code is neither 1001 nor
    1006. *)
Theorem receiver_after_Disconnect (err : failure) (cn : conn) (w : world) :
  ws (self w) = Some cn → serving w →
  ∃ ns tr,
    (receiverArm ;; Disconnect ;;
     deferring (Disconnect ;; ret tt) (receiverHandle (inl err))) w
    = (Ok ns, mkWorld (tornDown (self w)) (ranges w) false, tr)
    ∧ Disconnect w = (Ok None, mkWorld (tornDown (self w)) (ranges w) false, tr)
    ∧ quoteCalls ns = []
    ∧ errorCalls ns
      = match errorHandler (self w), err with
        | Some f, CloseError code _ =>
            if decide (code = 1001%Z ∨ code = 1006%Z) then [] else [(f, err)]
        | _, _ => []
        end.
Proof.
  intros Hws Hs.
  destruct (Disconnect_serving cn w Hws Hs) as [tr Hd].
  assert (Harm : receiverArm w = (Ok tt, w, []))
    by (unfold receiverArm; by rewrite bind_getCli, Hws).
  set (w1 := mkWorld (tornDown (self w)) (ranges w) false) in *.
  assert (Hoff : Disconnect w1 = (Ok None, w1, [])) by (by apply Disconnect_offline).
  exists (received (self w) [] err), tr.
  split; [|split; [exact Hd|split]].
  - rewrite (bind_Ok _ _ _ _ _ _ Harm), (bind_Ok _ _ _ _ _ _ Hd).
    unfold deferring, receiverHandle. rewrite bind_getCli.
    unfold received. cbn [fmap list_fmap concat app].
    assert (Hsame : ∀ e, onError (self w1) e = onError (self w) e)
      by (intros e; by destruct w as [[] ? ?]).
    destruct (IsUnexpectedCloseError _ _); cbn [ret];
      rewrite (bind_Ok _ _ _ _ _ _ Hoff); cbn; rewrite ?Hsame, app_nil_r; reflexivity.
  - unfold received. cbn [fmap list_fmap concat app].
    destruct (IsUnexpectedCloseError _ _); [apply quoteCalls_onError | done].
  - unfold received. cbn [fmap list_fmap concat app].
    destruct err as [code text | text]; cbn [IsUnexpectedCloseError].
    + unfold CloseGoingAway, CloseAbnormalClosure.
      destruct (decide (code = 1001%Z ∨ code = 1006%Z)) as [Hcode | Hcode].
      * rewrite bool_decide_eq_true_2; [by destruct (errorHandler (self w))|].
        rewrite !elem_of_cons. tauto.
      * rewrite bool_decide_eq_false_2.
        -- cbn [negb]. apply errorCalls_onError.
        -- rewrite !elem_of_cons, elem_of_nil. tauto.
    + by destruct (errorHandler (self w)).
Qed.

Lemma receiver_after_Disconnect_witness :
  ws (self connectedIEX) = Some 1%nat ∧ serving connectedIEX
  ∧ ∃ ns tr w',
      (receiverArm ;; Disconnect ;;
       deferring (Disconnect ;; ret tt)
         (receiverHandle (inl (OtherError "use of closed network connection"))))
        connectedIEX
      = (Ok ns, w', tr)
      ∧ errorCalls ns = [].
Proof.
  split; [reflexivity|]. split; [exact connectedIEX_serving|].
  destruct (receiver_after_Disconnect (OtherError "use of closed network connection")
              1%nat connectedIEX eq_refl connectedIEX_serving)
    as (ns & tr & Hrun & _ & _ & He).
  eexists _, _, _. split; [exact Hrun | exact He].
Defined.




(** ** The maps as sets *)

Lemma allTrue_empty : allTrue ∅.
Proof. intros k v. by rewrite lookup_empty. Qed.

Lemma allTrue_insert (k : string) (m : gmap string bool) :
  allTrue m → allTrue (<[k := true]> m).
Proof.
  intros H k' v. rewrite lookup_insert_Some. intros [[_ <-] | [_ Hk]]; [done|].
  by apply (H k').
Qed.

Lemma allTrue_delete (k : string) (m : gmap string bool) :
  allTrue m → allTrue (delete k m).
Proof. intros H k' v. rewrite lookup_delete_Some. intros [_ Hk]. by apply (H k'). Qed.

Lemma allTrue_joinAll (chs : list string) (D : gmap string bool) :
  allTrue D → allTrue (joinAll chs D).
Proof.
  unfold joinAll. revert D. induction chs as [|c chs IH]; intros D HD; [done|].
  cbn [foldl]. apply IH. destruct (D !! TrimSpace c); [done|].
  by apply allTrue_insert.
Qed.

Lemma allTrue_leaveEach (chs : list string) (D : gmap string bool) :
  allTrue D → allTrue (leaveEach chs D).
Proof.
  unfold leaveEach. revert D. induction chs as [|c chs IH]; intros D HD; [done|].
  cbn [foldl]. apply IH. by apply allTrue_delete.
Qed.

Lemma setLike_onSubscriptions : onSubscriptions setLike.
Proof.
  intros w w' Heq [HD HJ]. unfold subscriptions in Heq. unfold setLike.
  replace (channels (self w')) with (channels (self w)) by congruence.
  by replace (joinedChannels (self w')) with (joinedChannels (self w)) by congruence.
Qed.

Section SetLike.

Variable rangeOrder : nat → gmap string bool → list string.

Lemma refreshChannels_setLike : keeps setLike anyEvent (refreshChannels rangeOrder).
Proof.
  unfold refreshChannels.
  repeat first
    [ apply keeps_rangeKeys; by intros [[] ? ?]
    | keeps_step ltac:(idtac; intros [[] ? ?] [HD HJ]; split; [exact HD|];
                       first [ apply allTrue_empty | by apply allTrue_insert ]) ].
Qed.

Lemma run_setLike (o : op) : keeps setLike anyEvent (run rangeOrder o).
Proof.
  destruct o; unfold run, OnQuote, OnError.
  - apply keeps_bind; [|intros _; apply keeps_ret].
    apply triple_events_weaken with (E := notSend); [done|].
    apply Connect_frame, setLike_onSubscriptions.
  - apply keeps_bind; [|intros _; apply keeps_ret].
    apply triple_events_weaken with (E := notSend); [done|].
    apply Disconnect_frame, setLike_onSubscriptions.
  - intros w Hw. rewrite perform_unfold.
    apply refreshChannels_setLike.
    destruct Hw as [HD HJ]. destruct w as [[] ? ?]. split; [|exact HJ].
    cbn in HD. destruct c; cbn;
      [by apply allTrue_joinAll | by apply allTrue_leaveEach | apply allTrue_empty].
  - apply keeps_modify. by intros [[] ? ?].
  - apply keeps_modify. by intros [[] ? ?].
  - apply keeps_modify. by intros [[] ? ?].
Qed.

(** X25.  The desired set and the joined set are sets: whatever was done
    with a client since [New], every value stored in [cli.channels] and in
    [cli.joinedChannels] is [true], so that a key is in the map exactly
    when the map gives [true] for it. *)
Theorem maps_are_sets (w : world) :
  reachable rangeOrder w →
  (∀ k v, channels (self w) !! k = Some v → v = true)
  ∧ (∀ k v, joinedChannels (self w) !! k = Some v → v = true)
  ∧ (∀ k, channels (self w) !! k = Some true ↔ k ∈ dom (channels (self w)))
  ∧ (∀ k, joinedChannels (self w) !! k = Some true
          ↔ k ∈ dom (joinedChannels (self w))).
Proof.
  intros Hw.
  assert (Hs : setLike w).
  { induction Hw as [u pw p | o w w' tr _ IH Hrun].
    - split; apply allTrue_empty.
    - exact (triple_returns _ _ _ _ _ _ _ _ (run_setLike o) IH Hrun). }
  destruct Hs as [HD HJ]. split; [exact HD|]. split; [exact HJ|].
  split; intros k; rewrite elem_of_dom; (split; [by eexists|]).
  - intros [v Hv]. by rewrite (HD k v Hv) in Hv.
  - intros [v Hv]. by rewrite (HJ k v Hv) in Hv.
Qed.

End SetLike.

Lemma maps_are_sets_witness :
  reachable keyOrder connectedIEX
  ∧ ∀ k v, channels (self connectedIEX) !! k = Some v → v = true.
Proof.
  split; [exact connectedIEX_reachable|].
  exact (proj1 (maps_are_sets keyOrder connectedIEX connectedIEX_reachable)).
Defined.

(** ** A provider that is neither IEX nor QUODD *)

Section InvalidProvider.

Variable rangeOrder : nat → gmap string bool → list string.

Lemma run_provider (p : provider) (o : op) :
  keeps (λ w, provider_ (self w) = p) anyEvent (run rangeOrder o).
Proof.
  assert (HI : onSubscriptions (λ w, provider_ (self w) = p)).
  { intros w w' Heq H. unfold subscriptions in Heq. congruence. }
  destruct o; unfold run, OnQuote, OnError.
  - apply keeps_bind; [|intros _; apply keeps_ret].
    apply triple_events_weaken with (E := notSend); [done|].
    by apply Connect_frame.
  - apply keeps_bind; [|intros _; apply keeps_ret].
    apply triple_events_weaken with (E := notSend); [done|].
    by apply Disconnect_frame.
  - apply perform_keeps; [by intros [[] ? ?] | done].
  - apply keeps_modify. by intros [[] ? ?].
  - apply keeps_modify. by intros [[] ? ?].
  - apply keeps_modify. by intros [[] ? ?].
Qed.

Lemma Connect_invalid (reply : http_reply) (dialed : error + conn) (w : world) :
  ¬ validProvider (provider_ (self w)) →
  Connect reply dialed w
  = (Panic cPanicProvider, mkWorld (rearmed (self w)) (ranges w) false,
     printed w "Websocket connecting...").
Proof.
  intros Hp. rewrite Connect_unfold. unfold refreshToken.
  unfold mbind at 1, M_bind at 1, bind at 1.
  rewrite bind_getCli. cbn [self rearmed provider_].
  rewrite makeAuthURL_invalid by done. rewrite bind_lift_Panic.
  by rewrite app_nil_r.
Qed.

Lemma reachable_invalid_offline (w : world) :
  reachable rangeOrder w → ¬ validProvider (provider_ (self w)) →
  Connected (self w) = false.
Proof.
  induction 1 as [u pw p | o w w' tr _ IH Hrun]; intros Hp; [done|].
  assert (Hsame : provider_ (self w') = provider_ (self w)).
  { exact (triple_returns _ _ _ _ _ _ _ _ (run_provider (provider_ (self w)) o)
             eq_refl Hrun). }
  rewrite Hsame in Hp. specialize (IH Hp).
  destruct o as [reply dialed| |c|f|f|b]; cbn [run] in Hrun.
  - unfold mbind, M_bind, bind in Hrun.
    rewrite (Connect_invalid reply dialed w Hp) in Hrun. discriminate Hrun.
  - rewrite (bind_Ok _ _ _ _ _ _ (Disconnect_offline w IH)) in Hrun.
    cbn in Hrun. by simplify_eq.
  - rewrite (perform_offline rangeOrder c w IH) in Hrun.
    injection Hrun as <- _. by destruct w as [[] ? ?].
  - unfold OnQuote, modify in Hrun. injection Hrun as <- _. by destruct w as [[] ? ?].
  - unfold OnError, modify in Hrun. injection Hrun as <- _. by destruct w as [[] ? ?].
  - unfold modify in Hrun. injection Hrun as <- _. by destruct w as [[] ? ?].
Qed.

(** X26.  A client whose provider is neither IEX nor QUODD is never
    connected, whatever was done with it since [New].  Its [Connect]
    panics before it talks to the network, with at most the debug print
    made; its [Join], [Leave] and [LeaveAll] never get to build a message:
    they return, send nothing and change the desired set only; its
    [Disconnect] does nothing. *)
Theorem invalid_provider_never_connected (w : world) :
  reachable rangeOrder w → ¬ validProvider (provider_ (self w)) →
  Connected (self w) = false
  ∧ (∀ reply dialed,
       Connect reply dialed w
       = (Panic cPanicProvider, mkWorld (rearmed (self w)) (ranges w) false,
          printed w "Websocket connecting..."))
  ∧ (∀ c, perform rangeOrder c w
          = (Ok tt,
             mkWorld (set_channels (intend c (channels (self w))) (self w))
               (ranges w) (senderUp w), []))
  ∧ Disconnect w = (Ok None, w, []).
Proof.
  intros Hw Hp. pose proof (reachable_invalid_offline w Hw Hp) as Hc.
  split; [exact Hc|]. split; [|split].
  - intros reply dialed. by apply Connect_invalid.
  - intros c. by apply perform_offline.
  - by apply Disconnect_offline.
Qed.

End InvalidProvider.

Lemma invalid_provider_never_connected_witness :
  reachable keyOrder (boot (New "user" "secret" "nyse"))
  ∧ ¬ validProvider (provider_ (self (boot (New "user" "secret" "nyse"))))
  ∧ ∀ c, perform keyOrder c (boot (New "user" "secret" "nyse"))
         = (Ok tt,
            mkWorld
              (set_channels
                 (intend c (channels (self (boot (New "user" "secret" "nyse")))))
                 (self (boot (New "user" "secret" "nyse"))))
              (ranges (boot (New "user" "secret" "nyse")))
              (senderUp (boot (New "user" "secret" "nyse"))), []).
Proof.
  assert (Hw : reachable keyOrder (boot (New "user" "secret" "nyse")))
    by apply reachable_New.
  assert (Hp : ¬ validProvider (provider_ (self (boot (New "user" "secret" "nyse")))))
    by (intros [H | H]; discriminate H).
  split; [exact Hw|]. split; [exact Hp|].
  exact (proj1 (proj2 (proj2 (invalid_provider_never_connected keyOrder _ Hw Hp)))).
Defined.

(** ** The earlier revision of the client *)

Section EarlierRevision.

Import Legacy.

Lemma legacy_Disconnect_offline (closed : option error) (w : world) :
  connected (self w) = false → Disconnect closed w = (Ok None, w, []).
Proof. intros H. unfold Disconnect. rewrite bind_getCli, H. reflexivity. Qed.

Lemma legacy_senderBreak_keeps : keeps (λ _, True) anyEvent senderBreak.
Proof. unfold senderBreak. repeat keeps_step ltac:(done). Qed.

(** A [Disconnect] that returned [nil] leaves no socket. *)
Lemma legacy_Disconnect_nil (closed : option error) :
  triple (λ _, True) (Disconnect closed)
    (λ e w, e = None → connected (self w) = false) anyEvent.
Proof.
  unfold Disconnect.
  apply triple_bind with (R := λ c w, c = self w); [by apply triple_getCli|].
  intros c. destruct (connected c) eqn:Hc; cbn [negb].
  2: { apply triple_ret. by intros w ->. }
  apply triple_weaken with (P' := λ _, True)
    (Q' := λ e w, e = None → ws (self w) = None); [|done|].
  2: { intros e w H He. unfold connected. by rewrite H. }
  unfold onClosing, onCloseFailed, onClosed.
  apply triple_bind with (R := λ _ _, True); [by apply triple_debug|]. intros _.
  apply triple_bind with (R := λ _ _, True); [by apply keeps_closeChan|]. intros _.
  apply triple_bind with (R := λ _ _, True); [by apply keeps_closeChan|]. intros _.
  apply triple_bind with (R := λ _ _, True).
  { intros w _. unfold recvSending.
    destruct (sended (self w)); [constructor| |by split].
    destruct (senderUp w); [|constructor].
    by apply legacy_senderBreak_keeps. }
  intros _.
  apply triple_bind with (R := λ _ _, True); [by apply keeps_wsClose|]. intros _.
  destruct closed as [err|].
  - apply triple_bind with (R := λ _ _, True); [by apply triple_debug|]. intros _.
    by apply triple_ret.
  - apply triple_bind with (R := λ _ w, ws (self w) = None);
      [by apply triple_modify|]. intros _.
    apply triple_bind with (R := λ _ w, ws (self w) = None);
      [by apply triple_debug|]. intros _.
    by apply triple_ret.
Qed.

(** X22.  In the earlier revision too, [Disconnect] on a client that is
    not connected does nothing, and so does a [Disconnect] after one that
    returned [nil]. *)
Lemma legacy_Disconnect_idempotent (closed closed' : option error) (w : world) :
  (connected (self w) = false → Disconnect closed w = (Ok None, w, []))
  ∧ (∀ username password p,
       Disconnect closed (boot (New username password p))
       = (Ok None, boot (New username password p), []))
  ∧ (∀ w' tr,
       Disconnect closed w = (Ok None, w', tr) →
       Disconnect closed' w' = (Ok None, w', [])).
Proof.
  split; [apply legacy_Disconnect_offline|].
  split; [intros; by apply legacy_Disconnect_offline|].
  intros w' tr Hrun. apply legacy_Disconnect_offline.
  exact (triple_returns _ _ _ _ _ _ _ _ (legacy_Disconnect_nil closed) I Hrun eq_refl).
Qed.

Lemma legacy_connectedIEX_run :
  Connect (HttpReply 200 (inr "token")) None (inr 1%nat)
    (boot (New "user" "secret" IEX))
  = (Ok None, connectedIEX,
     [EvHttpGet "https://realtime.intrinio.com/auth" "user" "secret";
      EvDial "wss://realtime.intrinio.com/socket/websocket?vsn=1.0.0&token=token";
      EvGo "startReceiver"; EvGo "startSender"; EvGo "heartbeat"]).
Proof. vm_compute. reflexivity. Qed.

(** C4 in the earlier revision.  A client connects; the first
    [Disconnect] cannot close the socket, returns the error and leaves the
    client connected, with its channels closed; the second [Disconnect]
    panics when it closes [cli.breakHartbeat] again. *)
Theorem legacy_Disconnect_twice_panics :
  (Legacy.Connect (HttpReply 200 (inr "token")) None (inr 1%nat)
     (boot (Legacy.New "user" "secret" IEX))).1
  = (Ok None, Legacy.connectedIEX)
  ∧ Legacy.Disconnect (Some "close failed") Legacy.connectedIEX
    = (Ok (Some "close failed"), Legacy.halfClosedIEX,
       [EvClose BreakHartbeat; EvClose BreakSender; EvClose Sended;
        EvWsClose 1%nat])
  ∧ Legacy.connected (self Legacy.halfClosedIEX) = true
  ∧ ∀ closed, Legacy.Disconnect closed Legacy.halfClosedIEX
              = (Panic "close of closed channel", Legacy.halfClosedIEX, []).
Proof.
  split; [by rewrite legacy_connectedIEX_run|].
  split; [vm_compute; reflexivity|]. split; [reflexivity|].
  intros closed. destruct closed; vm_compute; reflexivity.
Qed.

(** X24.  [Disconnect] of the earlier revision on a served connection
    closes [breakHartbeat] and [breakSender], waits for the sender
    goroutine to close [sending], and then closes the socket itself; the
    queue is never closed.  When the socket is closed without error the
    call clears it and returns [nil]; when the close fails the call
    returns the error and the client still holds the socket, with the
    three channels closed. *)
Theorem legacy_Disconnect_teardown (cn : conn) (closed : option error) (w : world) :
  ws (self w) = Some cn →
  breakHartbeat (self w) = ChOpen → breakSender (self w) = ChOpen →
  sended (self w) = ChOpen → senderUp w = true →
  Legacy.Disconnect closed w
  = match closed with
    | None =>
        (Ok None, mkWorld (legacyTornDown None (self w)) (ranges w) false,
         printed w "Websocket closing"
         ++ [EvClose BreakHartbeat; EvClose BreakSender; EvClose Sended; EvWsClose cn]
         ++ printed w "Websocket closed")
    | Some err =>
        (Ok (Some err), mkWorld (legacyTornDown (Some cn) (self w)) (ranges w) false,
         printed w "Websocket closing"
         ++ [EvClose BreakHartbeat; EvClose BreakSender; EvClose Sended; EvWsClose cn]
         ++ printed w "Websocket failed close")
    end.
Proof.
  destruct w as [[dbg u pw p tok0 ws0 D J qh eh bh bs sd qq cl] n up].
  cbn. intros -> -> -> -> ->.
  destruct closed, dbg; reflexivity.
Qed.

Lemma legacy_Disconnect_teardown_witness :
  ws (self Legacy.connectedIEX) = Some 1%nat
  ∧ breakHartbeat (self Legacy.connectedIEX) = ChOpen
  ∧ breakSender (self Legacy.connectedIEX) = ChOpen
  ∧ sended (self Legacy.connectedIEX) = ChOpen
  ∧ senderUp Legacy.connectedIEX = true
  ∧ ∃ w' tr,
      Legacy.Disconnect (Some "close failed") Legacy.connectedIEX
      = (Ok (Some "close failed"), w', tr)
      ∧ Legacy.connected (self w') = true.
Proof.
  do 5 (split; [reflexivity|]).
  eexists _, _. split.
  - exact (legacy_Disconnect_teardown 1%nat (Some "close failed") Legacy.connectedIEX
             eq_refl eq_refl eq_refl eq_refl eq_refl).
  - reflexivity.
Defined.




End EarlierRevision.
